(** * pcal: the per-month fair-share allocation of [pcal.py]

  A shallow embedding of the computation block of [pcal.py] (the
  [if end_of_end_month >= start_of_current_month:] branch that builds
  [final_df]) and of the functions around it: the month selector, the
  holiday periods, the editing of the closed periods and the
  highlighting of the table.  Percentages are IEEE-754 binary64
  numbers, as the [float64] columns of the source are; calendar dates
  are (year, month, day) triples, as [datetime.date] has them. *)

From Stdlib Require Import ZArith List Bool Lia Arith Sorted Permutation.
From Stdlib Require String Ascii.
Import String.StringSyntax.
From Stdlib Require Import Floats.SpecFloat.
Import ListNotations.

Local Open Scope Z_scope.

(** ** binary64 arithmetic

  The operations of IEEE-754 binary64 (round to nearest, ties to
  even), as the standard library specifies them on [spec_float]. *)

Module F64.

Definition prec : Z := 53.
Definition emax : Z := 1024.

Definition float : Type := spec_float.

Definition add : float -> float -> float := SFadd prec emax.
Definition sub : float -> float -> float := SFsub prec emax.
Definition mul : float -> float -> float := SFmul prec emax.
Definition div : float -> float -> float := SFdiv prec emax.
Definition abs : float -> float := SFabs.
Definition ltb : float -> float -> bool := SFltb.
Definition leb : float -> float -> bool := SFleb.

(** An integer count turned into a float64. *)
Definition of_nat (n : nat) : float :=
  binary_normalize prec emax (Z.of_nat n) 0 false.

Definition zero : float := S754_zero false.
Definition one : float := S754_finite false 4503599627370496 (-52).

(** [x > 0] *)
Definition gt0 (x : float) : bool := ltb zero x.

(** [np.isclose(a, b)] with numpy's defaults [rtol = 1e-05],
    [atol = 1e-08]: [abs(a - b) <= atol + rtol * abs(b)]. *)
Definition rtol : float :=
  S754_finite false 5902958103587057 (-69). (* 0x1.4f8b588e368f1p-17 *)
Definition atol : float :=
  S754_finite false 6044629098073146 (-79). (* 0x1.5798ee2308c3ap-27 *)
Definition isclose (a b : float) : bool :=
  leb (abs (sub a b)) (add atol (mul rtol (abs b))).

(** [Series.sum()] of a float64 column, accumulated in row order. *)
Definition sum (l : list float) : float := fold_left add l zero.

(** [sums_to l s]: [s] is what adding up the entries of [l] gives, in
    some order and some grouping of the additions. *)
Inductive sums_to : list float -> float -> Prop :=
| sums_nil : sums_to [] zero
| sums_one x : sums_to [x] x
| sums_app l1 l2 s1 s2 :
    sums_to l1 s1 -> sums_to l2 s2 -> sums_to (l1 ++ l2) (add s1 s2)
| sums_perm l l' s : Permutation l l' -> sums_to l s -> sums_to l' s.

(** The exact value of a float in units of 2^-128, which is fine
    enough for every percentage of a month; [None] for infinities, NaN
    and a float that is not a whole number of units. *)
Definition units (x : float) : option Z :=
  match x with
  | S754_zero _ => Some 0
  | S754_finite s m e =>
      if 0 <=? e + 128 then
        let v := Z.pos m * 2 ^ (e + 128) in
        Some (if s then - v else v)
      else None
  | _ => None
  end.

(** The exact sum of a column, in the same units. *)
Fixpoint exact_sum (l : list float) : option Z :=
  match l with
  | [] => Some 0
  | x :: l' =>
      match units x, exact_sum l' with
      | Some a, Some b => Some (a + b)
      | _, _ => None
      end
  end.

(** A finite float above zero. *)
Definition is_pos_finite (x : float) : bool :=
  match x with
  | S754_finite false _ _ => true
  | _ => false
  end.

(** 1.0, in the same units. *)
Definition unit_one : Z := 2 ^ 128.

(** [|v - 1.0| <= 1e-9], for [v] in units of 2^-128. *)
Definition within_1e9_of_one (v : Z) : Prop :=
  Z.abs (v - unit_one) * 1000000000 <= unit_one.

End F64.

Declare Scope f64_scope.
Delimit Scope f64_scope with f64.
Infix "+" := F64.add : f64_scope.
Infix "-" := F64.sub : f64_scope.
Infix "*" := F64.mul : f64_scope.
Infix "/" := F64.div : f64_scope.

(** ** One month group

  [group] is a data frame; the allocator reads two of its columns,
  [IsClosed] and (after step 8) [Index], and computes every further
  column from them.  Columns are lists, one entry per row, in row
  (that is, date) order. *)

Module Month.

(** Step 6: [N], [C] and the guarded divisor. *)
Definition N (IsClosed : list bool) : nat :=
  length (filter negb IsClosed).
Definition C (IsClosed : list bool) : nat :=
  length (filter (fun x => x) IsClosed).
Definition N_plus_C (IsClosed : list bool) : nat :=
  if (0 <? N IsClosed + C IsClosed)%nat
  then (N IsClosed + C IsClosed)%nat else 1%nat.

(** [1 / N_plus_C] *)
Definition unit_share (IsClosed : list bool) : F64.float :=
  (F64.one / F64.of_nat (N_plus_C IsClosed))%f64.

(** Step 7: [0 if x else 1 / N_plus_C]. *)
Definition BasePercentage (IsClosed : list bool) : list F64.float :=
  map (fun x : bool => if x then F64.zero else unit_share IsClosed) IsClosed.

(** Step 8: the [Index] column, 0 .. len-1. *)
Definition Index (IsClosed : list bool) : list nat :=
  seq 0 (length IsClosed).

(** Step 9: the [Index] of the last open row before [current_idx]
    ([preceding.iloc[-1]['Index']]), [None] when there is none.
    [df_group] is given by its [Index] and [IsClosed] columns. *)
Definition find_preceding_active_index
    (current_idx : nat) (df_group : list (nat * bool)) : option nat :=
  let preceding :=
    filter (fun r : nat * bool => (fst r <? current_idx)%nat && negb (snd r))
           df_group in
  match rev preceding with
  | [] => None
  | r :: _ => Some (fst r)
  end.

(** Step 10: only closed rows are looked up. *)
Definition PrecedingActiveIndex (IsClosed : list bool) : list (option nat) :=
  let group := combine (Index IsClosed) IsClosed in
  map (fun r : nat * bool =>
         if snd r then find_preceding_active_index (fst r) group
         else None) group.

(** Step 11: the [PrecedingActiveIndex] of the closed rows that have
    one, in row order. *)
Definition closed_days_with_preceding (IsClosed : list bool) : list nat :=
  flat_map (fun r : bool * option nat =>
              match r with
              | (true, Some i) => [i]
              | _ => []
              end)
           (combine IsClosed (PrecedingActiveIndex IsClosed)).

(** Step 12: [groupby(key).size()], one row (key, count) per distinct
    key, the keys ascending. *)
Definition groupby_size (keys : list nat) : list (nat * nat) :=
  let distinct :=
    filter (fun k => existsb (Nat.eqb k) keys) (seq 0 (S (list_max keys))) in
  map (fun k => (k, count_occ Nat.eq_dec keys k)) distinct.

Definition closed_days_grouped (IsClosed : list bool) : list (nat * nat) :=
  groupby_size (closed_days_with_preceding IsClosed).

(** Step 13: [ClosedDaysCount * (1 / N_plus_C)] per key. *)
Definition ExtraPercentage_table (IsClosed : list bool) : list (nat * F64.float) :=
  map (fun kc : nat * nat =>
         (fst kc, (F64.of_nat (snd kc) * unit_share IsClosed)%f64))
      (closed_days_grouped IsClosed).

Fixpoint lookup {A} (k : nat) (tbl : list (nat * A)) : option A :=
  match tbl with
  | [] => None
  | (k', v) :: tbl' => if (k =? k')%nat then Some v else lookup k tbl'
  end.

(** The [ExtraPercentage] of the row with index [i]. *)
Definition extra (IsClosed : list bool) (i : nat) : F64.float :=
  match lookup i (ExtraPercentage_table IsClosed) with
  | Some x => x
  | None => F64.zero
  end.

(** Steps 14 and 15: the left merge on [Index] leaves a missing value
    where the table has no row for the index; [fillna(0)] fills it
    ([extra]). *)
Definition ExtraPercentage (IsClosed : list bool) : list F64.float :=
  map (extra IsClosed) (Index IsClosed).

(** Step 16 *)
Definition FinalPercentage (IsClosed : list bool) : list F64.float :=
  map (fun be : F64.float * F64.float => (fst be + snd be)%f64)
      (combine (BasePercentage IsClosed) (ExtraPercentage IsClosed)).

(** Step 17: [0 if row['IsClosed'] else row['FinalPercentage']]. *)
Definition percentage (IsClosed : list bool) : list F64.float :=
  map (fun cf : bool * F64.float => if fst cf then F64.zero else snd cf)
      (combine IsClosed (FinalPercentage IsClosed)).

(** Step 19: the position of the first row with [percentage > 0]. *)
Fixpoint first_active_idx (pct : list F64.float) : option nat :=
  match pct with
  | [] => None
  | x :: pct' => if F64.gt0 x then Some 0%nat
                 else option_map S (first_active_idx pct')
  end.

(** [col.at[i] += a] *)
Fixpoint add_at (i : nat) (a : F64.float) (col : list F64.float) : list F64.float :=
  match col, i with
  | [], _ => []
  | x :: col', O => (x + a)%f64 :: col'
  | x :: col', S i' => x :: add_at i' a col'
  end.

(** Step 19, given the total. *)
Definition correct_with (total_percentage : F64.float) (pct : list F64.float)
  : list F64.float :=
  if negb (F64.isclose total_percentage F64.one) then
    let adjustment := (F64.one - total_percentage)%f64 in
    match first_active_idx pct with
    | Some i => add_at i adjustment pct
    | None => pct
    end
  else pct.

Definition corrected (pct : list F64.float) : list F64.float :=
  let total_percentage := F64.sum pct in
  correct_with total_percentage pct.

(** The [percentage] column of [month_final] as it is appended to
    [final_df]. *)
Definition month_percentage (IsClosed : list bool) : list F64.float :=
  corrected (percentage IsClosed).

End Month.

(** ** Calendar dates *)

Record Date := mkDate { year : Z; month : Z; day : Z }.

Module Cal.

(** [calendar.isleap] *)
Definition isleap (y : Z) : bool :=
  (y mod 4 =? 0) && (negb (y mod 100 =? 0) || (y mod 400 =? 0)).

(** [calendar.monthrange(y, m)[1]], the number of days of a month. *)
Definition days_in_month (y m : Z) : Z :=
  if m =? 2 then (if isleap y then 29 else 28)
  else if (m =? 4) || (m =? 6) || (m =? 9) || (m =? 11) then 30
  else 31.

(** What the constructor of [datetime.date] accepts. *)
Definition valid (d : Date) : Prop :=
  1 <= year d <= 9999 /\ 1 <= month d <= 12 /\
  1 <= day d <= days_in_month (year d) (month d).

(** The month and day constraints alone. *)
Definition wf (d : Date) : Prop :=
  1 <= month d <= 12 /\ 1 <= day d <= days_in_month (year d) (month d).

(** [d1 <= d2] and [d1 < d2] on dates. *)
Definition leb (d1 d2 : Date) : bool :=
  (year d1 <? year d2) ||
  ((year d1 =? year d2) &&
   ((month d1 <? month d2) ||
    ((month d1 =? month d2) && (day d1 <=? day d2)))).

Definition ltb (d1 d2 : Date) : bool := negb (leb d2 d1).

(** [d.replace(day=1)] *)
Definition replace_day1 (d : Date) : Date :=
  mkDate (year d) (month d) 1.

(** [d + timedelta(days=1)] *)
Definition next_day (d : Date) : Date :=
  if day d <? days_in_month (year d) (month d)
  then mkDate (year d) (month d) (day d + 1)
  else if month d <? 12 then mkDate (year d) (month d + 1) 1
  else mkDate (year d + 1) 1 1.

(** [date.toordinal()]: days since 0001-01-01, that day being 1. *)
Definition days_before_year (y : Z) : Z :=
  (y - 1) * 365 + (y - 1) / 4 - (y - 1) / 100 + (y - 1) / 400.

Definition days_before_month (y m : Z) : Z :=
  nth (Z.to_nat m)
      [0; 0; 31; 59; 90; 120; 151; 181; 212; 243; 273; 304; 334] 0
  + (if (2 <? m) && isleap y then 1 else 0).

Definition toordinal (d : Date) : Z :=
  days_before_year (year d) + days_before_month (year d) (month d) + day d.

(** The number of calendar dates [d] with [a <= d <= b]. *)
Definition days_between (a b : Date) : nat :=
  Z.to_nat (toordinal b - toordinal a + 1).

(** [pd.date_range(start, end, freq='D')]: [start], the day after, and
    so on up to [end]; empty when [end] is before [start]. *)
Fixpoint date_range_from (n : nat) (d end_ : Date) : list Date :=
  match n with
  | O => []
  | S n' => if leb d end_ then d :: date_range_from n' (next_day d) end_
            else []
  end.

Definition date_range (start end_ : Date) : list Date :=
  date_range_from (days_between start end_) start end_.

(** [ts.to_period('M')], as the ordinal pandas gives a monthly period
    (months since 1970-01). *)
Definition to_period_M (d : Date) : Z :=
  (year d - 1970) * 12 + month d - 1.

End Cal.

(** ** The range aggregator *)

(** An entry of [st.session_state.closed_periods]; the [holidays] labels
  are not read by the computation. *)
Record Period := mkPeriod
{ p_start : Date; p_end : Date; p_holidays : list String.string }.

(** A row of [df] / [remaining] / [group]. *)
Record Row := mkRow
{ r_date : Date; r_IsClosed : bool; r_IsTodayOrAfter : bool }.

(** A row of [month_final] and of [final_df]; the source renders the
  date with [strftime('%Y-%m-%d')], here it stays a date. *)
Record OutRow := mkOutRow
{ seasonality_type : String.string; o_date : Date; o_percentage : F64.float }.

Module Agg.

(** Step 2 *)
Definition is_closed (date : Date) (closed_periods : list Period) : bool :=
  existsb (fun period => Cal.leb (p_start period) date
                         && Cal.leb date (p_end period))
          closed_periods.

(** Step 5: the [month] column, the key of the grouping. *)
Definition key (r : Row) : Z := Cal.to_period_M (r_date r).

(** [DataFrame.groupby(key)]: the distinct keys ascending, each with
    the rows that carry it, in their original order. *)
Fixpoint insert_key (k : Z) (ks : list Z) : list Z :=
  match ks with
  | [] => [k]
  | k' :: ks' => if k <? k' then k :: ks
                 else if k =? k' then ks
                 else k' :: insert_key k ks'
  end.

Definition group_keys (rows : list Row) : list Z :=
  fold_right (fun r ks => insert_key (key r) ks) [] rows.

Definition groupby_month (rows : list Row) : list (Z * list Row) :=
  map (fun k => (k, filter (fun r => key r =? k) rows)) (group_keys rows).

(** Step 1: the constant label of every row. *)
Local Open Scope string_scope.
Definition fair_share : String.string := "Fair share".
Local Close Scope string_scope.

(** Steps 6 to 19 on one group: the three columns of [month_final]. *)
Definition month_final (group : list Row) : list OutRow :=
  map (fun rp : Row * F64.float =>
         mkOutRow fair_share (r_date (fst rp)) (snd rp))
      (combine group (Month.month_percentage (map r_IsClosed group))).

(** Steps 1 to 5: [remaining]. *)
Definition remaining (start_of_current_month end_of_end_month current_date : Date)
    (closed_periods : list Period) : list Row :=
  let all_dates := Cal.date_range start_of_current_month end_of_end_month in
  let df := map (fun d => mkRow d (is_closed d closed_periods)
                                (Cal.leb current_date d)) all_dates in
  filter r_IsTodayOrAfter df.

(** The guarded block: [Some final_df] when the range check passes,
    [None] for the [else] branch, which builds no table. *)
Definition final_df (start_of_current_month end_of_end_month current_date : Date)
    (closed_periods : list Period) : option (list OutRow) :=
  if Cal.leb start_of_current_month end_of_end_month then
    Some (concat
            (map (fun mg : Z * list Row => month_final (snd mg))
                 (groupby_month
                    (remaining start_of_current_month end_of_end_month
                               current_date closed_periods))))
  else None.

(** The last day of the selected end month:
    [datetime(end_year, end_month, monthrange(end_year, end_month)[1])]. *)
Definition end_of_end_month (end_year end_month : Z) : Date :=
  mkDate end_year end_month (Cal.days_in_month end_year end_month).

(** The allocation as the application runs it, from today's date, the
    selected end month and the closed periods: the range starts on the
    first day of the current month, [current_date.replace(day=1)]. *)
Definition allocate (current_date : Date) (end_year end_month : Z)
    (closed_periods : list Period) : option (list OutRow) :=
  final_df (Cal.replace_day1 current_date)
           (end_of_end_month end_year end_month)
           current_date closed_periods.

End Agg.

(** ** The roll-forward rule, as the specification words it *)

Module Rule.

(** The nearest open day before position [j], found by scanning
    backward from [j - 1]. *)
Fixpoint nearest_preceding_open (IsClosed : list bool) (j : nat) : option nat :=
  match j with
  | O => None
  | S j' => if nth j' IsClosed true
            then nearest_preceding_open IsClosed j'
            else Some j'
  end.

(** The first open day of the group. *)
Fixpoint first_open (IsClosed : list bool) : option nat :=
  match IsClosed with
  | [] => None
  | true :: l => option_map S (first_open l)
  | false :: _ => Some 0%nat
  end.

(** Whether day [j] is closed and rolls onto day [i]. *)
Definition rolls_onto (IsClosed : list bool) (i j : nat) : bool :=
  nth j IsClosed false &&
  match nearest_preceding_open IsClosed j with
  | Some i' => (i' =? i)%nat
  | None => false
  end.

(** The number of closed days whose nearest preceding open day is [i]. *)
Definition rolled_count (IsClosed : list bool) (i : nat) : nat :=
  length (filter (rolls_onto IsClosed i) (seq 0 (length IsClosed))).

(** Step 5 of the allocator: [u + u * count], with [u = 1 / D] and [D]
    the number of days of the group. *)
Definition open_weight (IsClosed : list bool) (i : nat) : F64.float :=
  let u := (F64.one / F64.of_nat (length IsClosed))%f64 in
  (u + u * F64.of_nat (rolled_count IsClosed i))%f64.

End Rule.

(** ** The allocation in one pass

    The percentages of a group, row by row: an open day gets its unit
    share and one more for each closed day that directly follows it. *)

Module Pass.

(** The length of the closed run at the head of the column. *)
Fixpoint run_len (IsClosed : list bool) : nat :=
  match IsClosed with
  | true :: l => S (run_len l)
  | _ => O
  end.

(** The weight of an open day followed by [c] closed days, the unit
    share being [u]. *)
Definition weight (u : F64.float) (c : nat) : F64.float :=
  (u + (if (c =? 0)%nat then F64.zero else F64.of_nat c * u))%f64.

Fixpoint percentage (u : F64.float) (IsClosed : list bool) : list F64.float :=
  match IsClosed with
  | [] => []
  | true :: l => F64.zero :: percentage u l
  | false :: l => weight u (run_len l) :: percentage u l
  end.

(** The unit share and the weights in a group of [D] days. *)
Definition unit (D : nat) : F64.float := (F64.one / F64.of_nat D)%f64.

Definition W (D c : nat) : F64.float := weight (unit D) c.

(** What the nearest preceding open day becomes when a day [b] is put in
    front of the column. *)
Definition shift (b : bool) (o : option nat) : option nat :=
  match o with
  | Some i => Some (S i)
  | None => if b then None else Some 0%nat
  end.

End Pass.

(** ** The total of a month

    [worth D l j]: the column [l] holds zeros and weights of a group of
    [D] days that account for [j] unit shares.  [reach D j s]: [s] can
    be the sum of such a column, whatever the order and the grouping of
    the additions.  The sums that can occur are few; [build] tabulates
    them, for a given [D], and [table_ok] checks on the table what the
    correction step relies on. *)

Module Sums.

Inductive worth (D : nat) : list F64.float -> nat -> Prop :=
| worth_nil : worth D [] 0
| worth_zero l j : worth D l j -> worth D (F64.zero :: l) j
| worth_weight c l j : worth D l j -> worth D (Pass.W D c :: l) (c + 1 + j).

Inductive reach (D : nat) : nat -> F64.float -> Prop :=
| reach_zero : reach D 0 F64.zero
| reach_weight c : (c + 1 <= D)%nat -> reach D (c + 1) (Pass.W D c)
| reach_add j1 s1 j2 s2 :
    reach D j1 s1 -> reach D j2 s2 -> (j1 + j2 <= D)%nat ->
    reach D (j1 + j2) (s1 + s2)%f64.

(** Structural equality of floats. *)
Definition same (x y : F64.float) : bool :=
  match x, y with
  | S754_zero a, S754_zero b => Bool.eqb a b
  | S754_infinity a, S754_infinity b => Bool.eqb a b
  | S754_nan, S754_nan => true
  | S754_finite a m e, S754_finite b m' e' =>
      Bool.eqb a b && Pos.eqb m m' && Z.eqb e e'
  | _, _ => false
  end.

Definition insert (x : F64.float) (l : list F64.float) :=
  if existsb (same x) l then l else x :: l.

Fixpoint add_level (tbl : list (list F64.float)) (idx : nat) (x : F64.float) :=
  match tbl, idx with
  | l :: t, O => insert x l :: t
  | l :: t, S i => l :: add_level t i x
  | [], _ => []
  end.

Definition level (tbl : list (list F64.float)) (j : nat) := nth j tbl [].

Definition add_all (tbl : list (list F64.float)) (idx : nat) (xs : list F64.float) :=
  fold_left (fun t x => add_level t idx x) xs tbl.

Definition pair_sums (a b : list F64.float) : list F64.float :=
  flat_map (fun x => map (fun y => (x + y)%f64) b) a.

(** Level [j] gets the weight worth [j] shares and the sums of the
    entries of the levels [i] and [j - i]. *)
Definition build (D : nat) : list (list F64.float) :=
  fold_left
    (fun tbl j =>
       let tbl1 := add_level tbl j (Pass.W D (j - 1)) in
       fold_left
         (fun t i => add_all t j (pair_sums (level t i) (level t (j - i))))
         (seq 1 (j - 1)) tbl1)
    (seq 1 D) ([F64.zero] :: repeat [] D).

(** The table has 0, every weight, and every sum of two entries. *)
Definition closed_table (D : nat) (tbl : list (list F64.float)) : bool :=
  existsb (same F64.zero) (level tbl 0) &&
  forallb (fun c => existsb (same (Pass.W D c)) (level tbl (c + 1))) (seq 0 D) &&
  forallb (fun j1 =>
     forallb (fun j2 =>
        forallb (fun s1 =>
           forallb (fun s2 => existsb (same (s1 + s2)%f64) (level tbl (j1 + j2)))
                   (level tbl j2))
                (level tbl j1))
             (seq 0 (S (D - j1))))
          (seq 0 (S D)).

(** [|v - target / D| <= 1e-11], for [v] in units of 2^-128. *)
Definition tol_ok (D : nat) (v : Z) (target : nat) : bool :=
  Z.abs (Z.of_nat D * v - Z.of_nat target * F64.unit_one) * 100000000000
  <=? Z.of_nat D * F64.unit_one.

(** Every weight is above zero and within 1e-11 of [(c + 1) / D]. *)
Definition weight_ok (D c : nat) : bool :=
  F64.is_pos_finite (Pass.W D c) &&
  match F64.units (Pass.W D c) with
  | Some v => tol_ok D v (c + 1)
  | None => false
  end.

Definition weights_ok (D : nat) : bool :=
  forallb (weight_ok D) (seq 0 D).

(** [|s - 1.0| <= 1e-9] and [|s - 1.0| > 1e-9] *)
Definition dev_small (s : F64.float) : bool :=
  match F64.units s with
  | Some v => Z.abs (v - F64.unit_one) * 1000000000 <=? F64.unit_one
  | None => false
  end.

Definition dev_large (s : F64.float) : bool :=
  match F64.units s with
  | Some v => F64.unit_one <? Z.abs (v - F64.unit_one) * 1000000000
  | None => false
  end.

(** Correcting the first weight [W D c1] with the total [s] adds the
    [missing] unit shares to it, up to 1e-11. *)
Definition adjust_ok (D missing : nat) (s : F64.float) (c1 : nat) : bool :=
  let w := Pass.W D c1 in
  let w' := (w + (F64.one - s))%f64 in
  F64.is_pos_finite w' &&
  match F64.units w', F64.units w with
  | Some v', Some v => tol_ok D (v' - v) missing
  | _, _ => false
  end.

(** What holds of a running total [s] after [j] of [D] unit shares:
    it is 0 at the start and above 0 later; a full total is close to 1
    (no correction), a partial one is not, and correcting any first
    weight with it adds the missing [D - j] shares. *)
Definition level_ok (D j : nat) (s : F64.float) : bool :=
  if (j =? 0)%nat then same s F64.zero
  else F64.is_pos_finite s &&
       if (j =? D)%nat then F64.isclose s F64.one && dev_small s
       else negb (F64.isclose s F64.one) && dev_large s &&
            forallb (adjust_ok D (D - j) s) (seq 0 j).

Definition table_ok (D : nat) (tbl : list (list F64.float)) : bool :=
  closed_table D tbl && weights_ok D &&
  forallb (fun j => forallb (level_ok D j) (level tbl j)) (seq 0 (S D)).

Definition check (D : nat) : bool := table_ok D (build D).

(** Correcting a lone weight [w] that is not the whole month with
    [1 - w] gives 1.0 exactly. *)
Definition single_ok (D : nat) : bool :=
  forallb (fun c1 => let w := Pass.W D c1 in
                     same (w + (F64.one - w))%f64 F64.one)
          (seq 0 (D - 1)).

End Sums.

(** ** A sample run *)

Module Sample.

(** Today is 2024-01-29, the range ends with February 2024, and
    2024-02-10 .. 2024-02-12 is closed. *)
Definition today : Date := mkDate 2024 1 29.
Definition closed_periods : list Period :=
  [mkPeriod (mkDate 2024 2 10) (mkDate 2024 2 12) []].

Definition output : list OutRow :=
  match Agg.allocate today 2024 2 closed_periods with
  | Some out => out
  | None => []
  end.

(** The frame the loop goes over, and its group of February 2024. *)
Definition frame : list Row :=
  Agg.remaining (Cal.replace_day1 today) (Agg.end_of_end_month 2024 2)
                today closed_periods.

Definition february : list Row :=
  filter (fun r => Agg.key r =? 649) frame.

(** February 2023 seen from its first day, with 2 to 28 closed; and
    the last three days of January 2024, the first of them closed. *)
Definition single_today : Date := mkDate 2023 2 1.
Definition single_closed : list Period :=
  [mkPeriod (mkDate 2023 2 2) (mkDate 2023 2 28) []].

Definition leading_today : Date := mkDate 2024 1 29.
Definition leading_closed : list Period :=
  [mkPeriod (mkDate 2024 1 29) (mkDate 2024 1 29) []].
Definition leading_frame : list Row :=
  Agg.remaining (Cal.replace_day1 leading_today) (Agg.end_of_end_month 2024 1)
                leading_today leading_closed.

(** February 2023 again, with only the 15th open. *)
Definition mid_closed : list Period :=
  [mkPeriod (mkDate 2023 2 1) (mkDate 2023 2 14) [];
   mkPeriod (mkDate 2023 2 16) (mkDate 2023 2 28) []].
Definition mid_frame : list Row :=
  Agg.remaining (Cal.replace_day1 single_today) (Agg.end_of_end_month 2023 2)
                single_today mid_closed.

End Sample.

(** ** The month selector

  [add_months], [generate_month_options] and the reading of the
  selected option back into [end_year], [end_month] and
  [end_of_end_month].  A Python [str] is the string of its UTF-8
  bytes. *)

Module Options.

(** The constructor of [datetime.date], which [date.replace] and
    [datetime(...)] go through: [None] is its [ValueError]. *)
Definition date_new (y m d : Z) : option Date :=
  if (1 <=? y) && (y <=? 9999) && (1 <=? m) && (m <=? 12) &&
     (1 <=? d) && (d <=? Cal.days_in_month y m)
  then Some (mkDate y m d) else None.

(** [add_months(source_date, months)]; [//] and [%] round towards
    minus infinity, as [Z.div] and [Z.modulo] do for the divisor 12. *)
Definition add_months (source_date : Date) (months : Z) : option Date :=
  let month0 := month source_date - 1 + months in
  let year := year source_date + month0 / 12 in
  let month := month0 mod 12 + 1 in
  let day := Z.min (day source_date) (Cal.days_in_month year month) in
  date_new year month day.

(** The months since year 0 that a date lies in. *)
Definition month_index (d : Date) : Z := 12 * year d + month d.

(** The character ['-']. *)
Definition dash : Ascii.ascii := Ascii.ascii_of_nat 45.

(** The decimal digit of [n mod 10]. *)
Definition digit (n : Z) : Ascii.ascii :=
  Ascii.ascii_of_nat (48 + Z.to_nat (n mod 10)).

(** [d.strftime('%Y-%m')]: the year on four digits, a dash, the month
    on two digits. *)
Definition strftime_Ym (d : Date) : String.string :=
  String.String (digit (year d / 1000))
 (String.String (digit (year d / 100))
 (String.String (digit (year d / 10))
 (String.String (digit (year d))
 (String.String dash
 (String.String (digit (month d / 10))
 (String.String (digit (month d)) String.EmptyString)))))).

(** [generate_month_options(start_date, num_months)]; the error of an
    [add_months] call is the error of the whole. *)
Fixpoint options_from (start_date : Date) (i : Z) (n : nat)
  : option (list String.string) :=
  match n with
  | O => Some []
  | S n' =>
      match add_months start_date i with
      | None => None
      | Some month_date =>
          match options_from start_date (i + 1) n' with
          | None => None
          | Some options => Some (strftime_Ym month_date :: options)
          end
      end
  end.

Definition generate_month_options (start_date : Date) (num_months : nat)
  : option (list String.string) :=
  options_from start_date 0 num_months.

(** [month_options], the options of the select box. *)
Definition month_options (current_date : Date) : option (list String.string) :=
  generate_month_options (Cal.replace_day1 current_date) 12.

(** [s.split('-')] *)
Fixpoint split_dash_aux (s acc : String.string) : list String.string :=
  match s with
  | String.EmptyString => [acc]
  | String.String c s' =>
      if Ascii.eqb c dash then acc :: split_dash_aux s' String.EmptyString
      else split_dash_aux s' (String.append acc (String.String c String.EmptyString))
  end.

Definition split_dash (s : String.string) : list String.string :=
  split_dash_aux s String.EmptyString.

(** [int(s)] for a string [s] of decimal digits, which is what the
    two parts of a month option are; [None] for any other string. *)
Definition digit_value (c : Ascii.ascii) : option Z :=
  let n := Z.of_nat (Ascii.nat_of_ascii c) in
  if (48 <=? n) && (n <=? 57) then Some (n - 48) else None.

Fixpoint int_digits (s : String.string) (acc : Z) : option Z :=
  match s with
  | String.EmptyString => Some acc
  | String.String c s' =>
      match digit_value c with
      | Some v => int_digits s' (10 * acc + v)
      | None => None
      end
  end.

Definition int (s : String.string) : option Z :=
  match s with
  | String.EmptyString => None
  | _ => int_digits s 0
  end.

(** [end_year, end_month = map(int, end_month_selected.split('-'))] *)
Definition parse_selected (end_month_selected : String.string) : option (Z * Z) :=
  match split_dash end_month_selected with
  | [a; b] =>
      match int a, int b with
      | Some end_year, Some end_month => Some (end_year, end_month)
      | _, _ => None
      end
  | _ => None
  end.

(** [end_of_end_month] as lines 109 to 111 compute it from the selected
    option: [monthrange] refuses a month outside 1..12 and [datetime]
    a year outside 1..9999. *)
Definition selected_end (end_month_selected : String.string) : option Date :=
  match parse_selected end_month_selected with
  | Some (end_year, end_month) =>
      if (1 <=? end_month) && (end_month <=? 12) then
        let end_day := Cal.days_in_month end_year end_month in
        date_new end_year end_month end_day
      else None
  | None => None
  end.

End Options.

(** ** Holidays and closed periods

  [get_all_holidays] and [group_consecutive_dates], which fill
  [st.session_state.closed_periods] when the end month or the selected
  countries change. *)

(** An entry of the list [get_all_holidays] returns: the dictionary
    with the keys ['date'], ['name'] and ['country']. *)
Record Holiday := mkHoliday
{ h_date : Date; h_name : String.string; h_country : String.string }.

(** The classes of the [holidays] package that the source names. *)
Inductive HolidayClass :=
| China | US | UnitedKingdom | France | Germany | Italy | Spain | Canada | Japan.

Module Holidays.

(** [d1 == d2] on dates. *)
Definition date_eqb (d1 d2 : Date) : bool :=
  (year d1 =? year d2) && (month d1 =? month d2) && (day d1 =? day d2).

(** [d + timedelta(days=1)]; [None] is the [OverflowError] past
    [date.max], 9999-12-31. *)
Definition plus_one_day (d : Date) : option Date :=
  let r := Cal.next_day d in
  if year r <=? 9999 then Some r else None.

(** [sorted(l)] under the order [le]: the stable sort. *)
Fixpoint insert_by {A : Type} (le : A -> A -> bool) (x : A) (l : list A)
  : list A :=
  match l with
  | [] => [x]
  | y :: l' => if le x y then x :: l else y :: insert_by le x l'
  end.

Definition sorted_by {A : Type} (le : A -> A -> bool) (l : list A) : list A :=
  fold_right (insert_by le) [] l.

(** [sorted(set(l))] on strings: the distinct strings, ascending.
    Strings compare by code point, which the order of their UTF-8
    bytes agrees with. *)
Fixpoint insert_label (x : String.string) (l : list String.string)
  : list String.string :=
  match l with
  | [] => [x]
  | y :: l' =>
      match String.compare x y with
      | Lt => x :: l
      | Eq => l
      | Gt => y :: insert_label x l'
      end
  end.

Definition sorted_set (l : list String.string) : list String.string :=
  fold_right insert_label [] l.

(** [range(a, b)] *)
Definition range (a b : Z) : list Z :=
  map (fun i => a + Z.of_nat i) (seq 0 (Z.to_nat (b - a))).

(** The order of the [(date, name)] tuples of [dict.items()]. *)
Definition item_le (a b : Date * String.string) : bool :=
  Cal.ltb (fst a) (fst b) ||
  (date_eqb (fst a) (fst b) && String.leb (snd a) (snd b)).

(** The dictionary [country_classes], in the order of its keys. *)
Local Open Scope string_scope.
Definition country_classes : list (String.string * HolidayClass) :=
  [("中国", China); ("美国", US); ("英国", UnitedKingdom);
   ("法国", France); ("德国", Germany); ("意大利", Italy);
   ("西班牙", Spain); ("加拿大", Canada); ("日本", Japan)].

(** [f"{name} ({country})"] *)
Definition label (holiday : Holiday) : String.string :=
  String.append (h_name holiday)
    (String.append " (" (String.append (h_country holiday) ")")).
Local Close Scope string_scope.

Section Library.

(** The [holidays] package: [holiday_class c years] is the content of
    the dictionary [c(years=years)], or [None] when the class raises
    [NotImplementedError]. *)
Variable holiday_class :
  HolidayClass -> list Z -> option (list (Date * String.string)).

Definition get_all_holidays (start_date end_date : Date)
    (selected_countries : list String.string) : list Holiday :=
  flat_map
    (fun cc : String.string * HolidayClass =>
       let country := fst cc in
       if existsb (String.eqb country) selected_countries then
         match holiday_class (snd cc)
                 (range (year start_date) (year end_date + 1)) with
         | Some country_holidays =>
             map (fun dn => mkHoliday (fst dn) (snd dn) country)
                 (filter (fun dn => Cal.leb start_date (fst dn)
                                    && Cal.leb (fst dn) end_date)
                         (sorted_by item_le country_holidays))
         | None => []
         end
       else [])
    country_classes.

End Library.

(** The dictionary appended to [grouped]. *)
Definition close_period (start end_ : Date)
    (holidays_in_period : list String.string) : Period :=
  mkPeriod start end_ (sorted_set holidays_in_period).

(** The loop of [group_consecutive_dates] over [sorted_dates[1:]],
    its four variables passed along, and the final append. *)
Fixpoint group_loop (rest : list Holiday) (grouped : list Period)
    (start end_ : Date) (holidays_in_period : list String.string)
  : option (list Period) :=
  match rest with
  | [] => Some (grouped ++ [close_period start end_ holidays_in_period])
  | current :: rest' =>
      let current_date := h_date current in
      match plus_one_day end_ with
      | None => None
      | Some next =>
          if date_eqb current_date next then
            group_loop rest' grouped start current_date
                       (holidays_in_period ++ [label current])
          else
            group_loop rest'
                       (grouped ++ [close_period start end_ holidays_in_period])
                       current_date current_date [label current]
      end
  end.

Definition group_consecutive_dates (dates_with_info : list Holiday)
  : option (list Period) :=
  match dates_with_info with
  | [] => Some []
  | _ =>
      let sorted_dates :=
        sorted_by (fun x y => Cal.leb (h_date x) (h_date y)) dates_with_info in
      match sorted_dates with
      | [] => None
      | first :: rest =>
          group_loop rest [] (h_date first) (h_date first) [label first]
      end
  end.

(** The reset of lines 202 to 212: the closed periods are the holiday
    periods between today and the end date. *)
Definition holiday_periods
    (holiday_class : HolidayClass -> list Z -> option (list (Date * String.string)))
    (current_date end_of_end_month : Date)
    (selected_countries : list String.string) : option (list Period) :=
  let all_holidays_with_info :=
    get_all_holidays holiday_class current_date end_of_end_month
                     selected_countries in
  group_consecutive_dates all_holidays_with_info.

(** The periods of the loop by direct recursion, [grouped] left out. *)
Fixpoint runs (rest : list Holiday) (start end_ : Date)
    (holidays_in_period : list String.string) : list Period :=
  match rest with
  | [] => [close_period start end_ holidays_in_period]
  | current :: rest' =>
      if date_eqb (h_date current) (Cal.next_day end_) then
        runs rest' start (h_date current)
             (holidays_in_period ++ [label current])
      else
        close_period start end_ holidays_in_period
        :: runs rest' (h_date current) (h_date current) [label current]
  end.

(** The number of days of a period. *)
Definition period_days (p : Period) : Z :=
  Cal.toordinal (p_end p) - Cal.toordinal (p_start p) + 1.

Definition total_days (periods : list Period) : Z :=
  fold_right (fun p n => period_days p + n) 0 periods.

End Holidays.

(** ** The display of the table *)

Module Display.
Local Open Scope string_scope.

(** [highlight_percentage(val)] on a cell of the [percentage] column;
    [float(val)] is the cell itself and does not raise. *)
Definition highlight_percentage (val : F64.float) : String.string :=
  if F64.gt0 val then "background-color: #d3f9d8"
  else "background-color: #f8d7da".

End Display.

(** ** Editing the closed periods

  The list [st.session_state.closed_periods] as the page changes it:
  [remove_closed_period], the confirmation of an added period, and
  the body of the loop that shows each period.  What the widgets
  return (the two dates and whether the delete button was pressed) is
  an input. *)

Module Edit.
Import Holidays.

(** [del l[index]]: a negative index counts from the end; [None] is
    the [IndexError]. *)
Definition remove_closed_period (index : Z) (closed_periods : list Period)
  : option (list Period) :=
  let n := Z.of_nat (length closed_periods) in
  let i := if index <? 0 then index + n else index in
  if (0 <=? i) && (i <? n) then
    Some (firstn (Z.to_nat i) closed_periods
          ++ skipn (S (Z.to_nat i)) closed_periods)
  else None.

(** [l[i] = x] for an index within the list. *)
Fixpoint set_nth {A : Type} (i : nat) (x : A) (l : list A) : list A :=
  match l, i with
  | [], _ => []
  | _ :: l', O => x :: l'
  | y :: l', S i' => y :: set_nth i' x l'
  end.

Section Library.

Variable holiday_class :
  HolidayClass -> list Z -> option (list (Date * String.string)).

(** The dictionary of a period from [start] to [end_], with the
    holidays of the selected countries in it. *)
Definition period_of (selected_countries : list String.string)
    (start end_ : Date) : Period :=
  let holidays := get_all_holidays holiday_class start end_ selected_countries in
  mkPeriod start end_ (sorted_set (map label holidays)).

(** The [confirm] branch of lines 238 to 252; the list is left as it
    is when the end date is before the start date. *)
Definition confirm_add (selected_countries : list String.string)
    (new_start_date new_end_date : Date) (closed_periods : list Period)
  : list Period :=
  if Cal.ltb new_end_date new_start_date then closed_periods
  else closed_periods
       ++ [period_of selected_countries new_start_date new_end_date].

(** Lines 288 to 298, the end of the loop body for the period of
    index [i]: the deletion when the button was pressed, then the
    three assignments to [closed_periods[i]]. *)
Definition manage_period (selected_countries : list String.string)
    (i : nat) (start_date end_date : Date) (delete_pressed : bool)
    (closed_periods : list Period) : option (list Period) :=
  match (if delete_pressed
         then remove_closed_period (Z.of_nat i) closed_periods
         else Some closed_periods) with
  | None => None
  | Some closed_periods' =>
      match nth_error closed_periods' i with
      | None => None
      | Some _ =>
          Some (set_nth i (period_of selected_countries start_date end_date)
                        closed_periods')
      end
  end.

End Library.

End Edit.

(** ** Further sample runs *)

Module Sample2.
Local Open Scope string_scope.

(** A library that knows New Year and the days around Christmas. *)
Definition library (c : HolidayClass) (years : list Z)
  : option (list (Date * String.string)) :=
  match c with
  | US => Some (flat_map (fun y => [(mkDate y 12 25, "Christmas Day");
                                    (mkDate y 1 1, "New Year's Day")]) years)
  | Italy => Some (flat_map (fun y => [(mkDate y 1 1, "Capodanno");
                                       (mkDate y 12 25, "Natale");
                                       (mkDate y 12 26, "Santo Stefano")]) years)
  | Spain => None
  | _ => Some []
  end.

Definition selected : list String.string := ["美国"; "意大利"; "西班牙"].

(** December 2024 and January 2025, seen from 2024-12-01. *)
Definition entries : list Holiday :=
  Holidays.get_all_holidays library (mkDate 2024 12 1) (mkDate 2025 1 31)
                            selected.

Definition periods : list Period :=
  match Holidays.group_consecutive_dates entries with
  | Some ps => ps
  | None => []
  end.

(** The same with one country, whose holidays are on distinct days. *)
Definition italy_entries : list Holiday :=
  Holidays.get_all_holidays library (mkDate 2024 12 1) (mkDate 2025 1 31)
                            ["意大利"].

Definition italy_periods : list Period :=
  match Holidays.group_consecutive_dates italy_entries with
  | Some ps => ps
  | None => []
  end.

End Sample2.

Module Sample3.

(** The table for the holiday periods of [Sample2], seen from
    2024-12-01 with January 2025 as the end month. *)
Definition today : Date := mkDate 2024 12 1.

Definition output : list OutRow :=
  match Agg.allocate today 2025 1 Sample2.periods with
  | Some out => out
  | None => []
  end.

(** Its row of 2024-12-25 and its row of 2024-12-27. *)
Definition christmas : OutRow :=
  nth 24 output (mkOutRow Agg.fair_share today F64.one).

Definition third_day : OutRow :=
  nth 26 output (mkOutRow Agg.fair_share today F64.zero).

End Sample3.

Module Sample4.

(** Three periods of December 2024. *)
Definition three : list Period :=
  [mkPeriod (mkDate 2024 12 3) (mkDate 2024 12 4) [];
   mkPeriod (mkDate 2024 12 10) (mkDate 2024 12 11) [];
   mkPeriod (mkDate 2024 12 25) (mkDate 2024 12 26) []].

End Sample4.

(** * Properties *)

(** ** Columns of one month group *)

Module MonthFacts.
Import Month.

Lemma N_C_length (cl : list bool) : (N cl + C cl = length cl)%nat.
Proof.
  unfold N, C. induction cl as [|b cl IH]; simpl; [reflexivity|].
  destruct b; simpl; lia.
Qed.

Lemma N_plus_C_length (cl : list bool) :
  cl <> [] -> N_plus_C cl = length cl.
Proof.
  intros Hne. unfold N_plus_C. rewrite N_C_length.
  destruct cl as [|b cl]; [congruence|]. reflexivity.
Qed.

Lemma pct_shape (f : bool -> F64.float) (g : nat -> F64.float) :
  forall (l : list bool) (idx : list nat),
    length idx = length l ->
    map (fun cf : bool * F64.float => if fst cf then F64.zero else snd cf)
        (combine l (map (fun be : F64.float * F64.float => (fst be + snd be)%f64)
                        (combine (map f l) (map g idx))))
    = map (fun ci : bool * nat =>
             if fst ci then F64.zero else (f (fst ci) + g (snd ci))%f64)
          (combine l idx).
Proof.
  induction l as [|b l IH]; intros [|i idx] Hlen; simpl in *;
    try reflexivity; try discriminate.
  f_equal. apply IH. lia.
Qed.

Lemma percentage_eq (cl : list bool) :
  percentage cl
  = map (fun ci : bool * nat =>
           if fst ci then F64.zero else (unit_share cl + extra cl (snd ci))%f64)
        (combine cl (seq 0 (length cl))).
Proof.
  unfold percentage, FinalPercentage, BasePercentage, ExtraPercentage, Index.
  rewrite pct_shape by apply length_seq.
  apply map_ext. intros [b i]; simpl. destruct b; reflexivity.
Qed.

Lemma nth_error_combine_seq {A} (l : list A) :
  forall s i x, nth_error l i = Some x ->
                nth_error (combine l (seq s (length l))) i = Some (x, (s + i)%nat).
Proof.
  induction l as [|a l IH]; intros s [|i] x H; simpl in *; try discriminate.
  - inversion H. subst. f_equal. f_equal. lia.
  - rewrite (IH (S s) i x H). f_equal. f_equal. lia.
Qed.

Lemma percentage_nth (cl : list bool) (i : nat) (b : bool) :
  nth_error cl i = Some b ->
  nth_error (percentage cl) i
  = Some (if b then F64.zero else (unit_share cl + extra cl i)%f64).
Proof.
  intros H. rewrite percentage_eq, nth_error_map.
  rewrite (nth_error_combine_seq cl 0 i b H). reflexivity.
Qed.

Lemma percentage_length (cl : list bool) : length (percentage cl) = length cl.
Proof.
  rewrite percentage_eq, length_map, length_combine, length_seq. lia.
Qed.

Lemma add_at_length (a : F64.float) (col : list F64.float) :
  forall i, length (add_at i a col) = length col.
Proof.
  induction col as [|x col IH]; intros [|i]; simpl; auto.
Qed.

Lemma add_at_other (a : F64.float) (col : list F64.float) :
  forall i j, i <> j -> nth_error (add_at i a col) j = nth_error col j.
Proof.
  induction col as [|x col IH]; intros [|i] [|j] Hij; simpl; auto.
  congruence.
Qed.

Lemma add_at_same (a : F64.float) (col : list F64.float) :
  forall i x, nth_error col i = Some x ->
              nth_error (add_at i a col) i = Some (x + a)%f64.
Proof.
  induction col as [|y col IH]; intros [|i] x H; simpl in *;
    try discriminate; auto.
  congruence.
Qed.

Lemma first_active_idx_gt0 (pct : list F64.float) :
  forall k, first_active_idx pct = Some k ->
            exists x, nth_error pct k = Some x /\ F64.gt0 x = true.
Proof.
  induction pct as [|x pct IH]; intros k H; simpl in H; [discriminate|].
  destruct (F64.gt0 x) eqn:Hx.
  - inversion H; subst. exists x. auto.
  - destruct (first_active_idx pct) as [k'|]; simpl in H; [|discriminate].
    inversion H; subst. simpl. apply IH. reflexivity.
Qed.

Lemma corrected_length (pct : list F64.float) :
  length (corrected pct) = length pct.
Proof.
  unfold corrected, correct_with.
  destruct (negb _); [|reflexivity].
  destruct (first_active_idx pct); [apply add_at_length|reflexivity].
Qed.

(** The correction never touches a row whose percentage is 0. *)
Lemma corrected_zero (pct : list F64.float) (i : nat) :
  nth_error pct i = Some F64.zero ->
  nth_error (corrected pct) i = Some F64.zero.
Proof.
  intros H. unfold corrected, correct_with.
  destruct (negb _); [|exact H].
  destruct (first_active_idx pct) as [k|] eqn:Hk; [|exact H].
  destruct (first_active_idx_gt0 _ _ Hk) as (x & Hx & Hpos).
  rewrite add_at_other; [exact H|].
  intros ->. rewrite H in Hx. inversion Hx; subst. discriminate.
Qed.

Lemma month_percentage_length (cl : list bool) :
  length (month_percentage cl) = length cl.
Proof.
  unfold month_percentage. rewrite corrected_length. apply percentage_length.
Qed.

Lemma month_closed_zero (cl : list bool) (i : nat) :
  nth_error cl i = Some true ->
  nth_error (month_percentage cl) i = Some F64.zero.
Proof.
  intros H. apply corrected_zero. rewrite (percentage_nth cl i true H).
  reflexivity.
Qed.

End MonthFacts.

(** ** The calendar *)

Module CalFacts.
Import Cal.

Lemma valid_wf d : valid d -> wf d.
Proof. unfold valid, wf. tauto. Qed.

Lemma days_in_month_bounds y m : 28 <= days_in_month y m <= 31.
Proof.
  unfold days_in_month.
  destruct (m =? 2); [destruct (isleap y); lia|].
  destruct (_ || _); lia.
Qed.

Lemma leb_refl d : leb d d = true.
Proof.
  unfold leb. rewrite !Z.eqb_refl, Z.leb_refl. simpl.
  rewrite !orb_true_r. reflexivity.
Qed.

(** The comparison of dates, spelled out. *)
Lemma leb_spec d1 d2 :
  leb d1 d2 = true <->
  year d1 < year d2 \/
  (year d1 = year d2 /\
   (month d1 < month d2 \/ (month d1 = month d2 /\ day d1 <= day d2))).
Proof.
  unfold leb.
  rewrite !orb_true_iff, !andb_true_iff, !orb_true_iff, !andb_true_iff.
  rewrite !Z.ltb_lt, !Z.eqb_eq, Z.leb_le. tauto.
Qed.

Lemma leb_false_spec d1 d2 :
  leb d1 d2 = false <->
  year d2 < year d1 \/
  (year d1 = year d2 /\
   (month d2 < month d1 \/ (month d1 = month d2 /\ day d2 < day d1))).
Proof.
  rewrite <- not_true_iff_false, leb_spec. lia.
Qed.

Lemma date_eq d1 d2 :
  year d1 = year d2 -> month d1 = month d2 -> day d1 = day d2 -> d1 = d2.
Proof. destruct d1, d2; simpl; congruence. Qed.

Lemma isleap_cases y :
  (isleap y = true /\ y mod 4 = 0 /\ (y mod 100 <> 0 \/ y mod 400 = 0)) \/
  (isleap y = false /\ (y mod 4 <> 0 \/ (y mod 100 = 0 /\ y mod 400 <> 0))).
Proof.
  unfold isleap.
  destruct (y mod 4 =? 0) eqn:H4; destruct (y mod 100 =? 0) eqn:H100;
    destruct (y mod 400 =? 0) eqn:H400; simpl;
    rewrite ?Z.eqb_eq, ?Z.eqb_neq in *; lia.
Qed.

(** A year has 365 days, a leap year one more. *)
Lemma days_before_year_succ y :
  days_before_year (y + 1)
  = days_before_year y + 365 + (if isleap y then 1 else 0).
Proof.
  unfold days_before_year.
  replace (y + 1 - 1) with y by lia.
  destruct (isleap_cases y) as [(-> & H)|(-> & H)];
    Z.to_euclidean_division_equations; lia.
Qed.

Lemma days_before_year_mono y1 y2 :
  y1 < y2 ->
  days_before_year y1 + 365 + (if isleap y1 then 1 else 0)
  <= days_before_year y2.
Proof.
  intros H. rewrite <- days_before_year_succ.
  unfold days_before_year. Z.to_euclidean_division_equations; lia.
Qed.

Ltac month_cases m :=
  assert (m = 1 \/ m = 2 \/ m = 3 \/ m = 4 \/ m = 5 \/ m = 6 \/
          m = 7 \/ m = 8 \/ m = 9 \/ m = 10 \/ m = 11 \/ m = 12) as Hcases
    by lia;
  repeat (destruct Hcases as [Hcases|Hcases]); subst m.

Lemma days_before_month_succ y m :
  1 <= m < 12 ->
  days_before_month y (m + 1) = days_before_month y m + days_in_month y m.
Proof.
  intros Hm. unfold days_before_month, days_in_month.
  month_cases m; simpl; destruct (isleap y); simpl; lia.
Qed.

Lemma days_before_month_1 y : days_before_month y 1 = 0.
Proof. reflexivity. Qed.

Lemma days_before_month_12 y :
  days_before_month y 12 + days_in_month y 12
  = 365 + (if isleap y then 1 else 0).
Proof.
  unfold days_before_month, days_in_month. simpl. destruct (isleap y); lia.
Qed.

Lemma days_before_month_bounds y m :
  1 <= m <= 12 ->
  0 <= days_before_month y m /\
  days_before_month y m + days_in_month y m
  <= 365 + (if isleap y then 1 else 0).
Proof.
  intros Hm. unfold days_before_month, days_in_month.
  month_cases m; simpl; destruct (isleap y); simpl; lia.
Qed.

(** The day of the year lies within the year. *)
Lemma day_of_year_bounds d :
  wf d ->
  1 <= days_before_month (year d) (month d) + day d
    <= 365 + (if isleap (year d) then 1 else 0).
Proof.
  intros [Hm Hd].
  pose proof (days_before_month_bounds (year d) (month d) Hm). lia.
Qed.

Lemma days_before_month_mono y m1 m2 :
  1 <= m1 -> m1 < m2 -> m2 <= 12 ->
  days_before_month y m1 + days_in_month y m1 <= days_before_month y m2.
Proof.
  intros H1 H12 H2. unfold days_before_month, days_in_month.
  month_cases m1; month_cases m2; try lia;
    simpl; destruct (isleap y); simpl; lia.
Qed.

Lemma wf_next_day d : wf d -> wf (next_day d).
Proof.
  destruct d as [y m dd]. unfold wf, next_day; simpl. intros [Hm Hd].
  destruct (dd <? days_in_month y m) eqn:Hlt; simpl.
  - apply Z.ltb_lt in Hlt. lia.
  - destruct (m <? 12) eqn:Hm12; simpl.
    + apply Z.ltb_lt in Hm12. pose proof (days_in_month_bounds y (m + 1)). lia.
    + pose proof (days_in_month_bounds (y + 1) 1). lia.
Qed.

(** The next day has the next ordinal. *)
Lemma toordinal_next_day d :
  wf d -> toordinal (next_day d) = toordinal d + 1.
Proof.
  destruct d as [y m dd]. unfold wf, next_day, toordinal; simpl. intros [Hm Hd].
  destruct (dd <? days_in_month y m) eqn:Hlt; simpl; [lia|].
  apply Z.ltb_ge in Hlt.
  destruct (m <? 12) eqn:Hm12; simpl.
  - apply Z.ltb_lt in Hm12. rewrite days_before_month_succ by lia. lia.
  - apply Z.ltb_ge in Hm12. assert (m = 12) by lia. subst m.
    rewrite days_before_year_succ, days_before_month_1.
    pose proof (days_before_month_12 y). lia.
Qed.

(** Dates compare as their ordinals do. *)
Lemma leb_toordinal d1 d2 :
  wf d1 -> wf d2 ->
  (leb d1 d2 = true <-> toordinal d1 <= toordinal d2).
Proof.
  intros W1 W2.
  assert (Hlt : forall a b, wf a -> wf b -> leb a b = false ->
                            toordinal b < toordinal a).
  { intros a b Wa Wb Hf. apply leb_false_spec in Hf.
    pose proof (day_of_year_bounds a Wa) as Ba.
    pose proof (day_of_year_bounds b Wb) as Bb.
    unfold toordinal.
    destruct Hf as [Hy|(Hy & [Hm|(Hm & Hd)])].
    - pose proof (days_before_year_mono _ _ Hy). lia.
    - destruct Wa as [? ?], Wb as [? ?]. rewrite Hy in *.
      pose proof (days_before_month_mono (year b) (month b) (month a)).
      lia.
    - rewrite Hy, Hm. lia. }
  split.
  - intros Hle. rewrite leb_spec in Hle.
    pose proof (day_of_year_bounds d1 W1) as B1.
    pose proof (day_of_year_bounds d2 W2) as B2.
    unfold toordinal.
    destruct Hle as [Hy|(Hy & [Hm|(Hm & Hd)])].
    + pose proof (days_before_year_mono _ _ Hy). lia.
    + destruct W1 as [? ?], W2 as [? ?]. rewrite Hy in *.
      pose proof (days_before_month_mono (year d2) (month d1) (month d2)).
      lia.
    + rewrite Hy, Hm. lia.
  - intros Hle. destruct (leb d1 d2) eqn:E; [reflexivity|].
    specialize (Hlt d1 d2 W1 W2 E). lia.
Qed.

Lemma leb_antisym d1 d2 : leb d1 d2 = true -> leb d2 d1 = true -> d1 = d2.
Proof.
  rewrite !leb_spec. intros H1 H2. apply date_eq; lia.
Qed.

Lemma to_period_M_mono d1 d2 :
  wf d1 -> wf d2 -> leb d1 d2 = true -> to_period_M d1 <= to_period_M d2.
Proof.
  intros [H1 _] [H2 _]. rewrite leb_spec. unfold to_period_M. lia.
Qed.

(** ** [date_range] *)

Lemma date_range_nil a e : leb a e = false -> date_range a e = [].
Proof.
  intros H. unfold date_range. destruct (days_between a e); simpl;
    [reflexivity|]. rewrite H. reflexivity.
Qed.

Lemma days_between_next a e :
  wf a -> wf e -> leb a e = true ->
  days_between a e = S (days_between (next_day a) e).
Proof.
  intros Wa We H. apply (leb_toordinal a e Wa We) in H.
  unfold days_between. rewrite toordinal_next_day by exact Wa. lia.
Qed.

Lemma date_range_cons a e :
  wf a -> wf e -> leb a e = true ->
  date_range a e = a :: date_range (next_day a) e.
Proof.
  intros Wa We H. unfold date_range.
  rewrite (days_between_next a e Wa We H). simpl. rewrite H. reflexivity.
Qed.

(** Induction along a range: from a day to the next, up to the end. *)
Lemma date_range_ind (e : Date) (P : Date -> Prop) :
  wf e ->
  (forall a, wf a -> leb a e = false -> P a) ->
  (forall a, wf a -> leb a e = true -> P (next_day a) -> P a) ->
  forall a, wf a -> P a.
Proof.
  intros We Hstop Hstep a.
  remember (days_between a e) as n eqn:Hn. revert a Hn.
  induction n as [|n IH]; intros a Hn Wa.
  - apply Hstop; [exact Wa|].
    destruct (leb a e) eqn:E; [|reflexivity].
    rewrite (days_between_next a e Wa We E) in Hn. discriminate.
  - destruct (leb a e) eqn:E; [|apply Hstop; assumption].
    apply Hstep; [exact Wa|exact E|].
    apply IH; [|apply wf_next_day; exact Wa].
    rewrite (days_between_next a e Wa We E) in Hn. congruence.
Qed.

Lemma date_range_length a e :
  wf a -> wf e -> length (date_range a e) = days_between a e.
Proof.
  intros Wa We. revert a Wa.
  apply (date_range_ind e (fun a => length (date_range a e) = days_between a e) We).
  - intros a Wa H. rewrite (date_range_nil a e H). simpl.
    unfold days_between.
    destruct (leb_toordinal a e Wa We) as [_ Hb].
    destruct (Z_le_gt_dec (toordinal a) (toordinal e)) as [Hle|Hgt];
      [rewrite (Hb Hle) in H; discriminate|lia].
  - intros a Wa H IH.
    rewrite (date_range_cons a e Wa We H), (days_between_next a e Wa We H).
    simpl. congruence.
Qed.

(** Every date of a range is a calendar date between its ends. *)
Lemma date_range_In a e :
  wf a -> wf e ->
  forall d, In d (date_range a e) ->
            wf d /\ toordinal a <= toordinal d <= toordinal e.
Proof.
  intros Wa We. revert a Wa.
  apply (date_range_ind e
           (fun a => forall d, In d (date_range a e) ->
                               wf d /\ toordinal a <= toordinal d <= toordinal e) We).
  - intros a Wa H d Hd. rewrite (date_range_nil a e H) in Hd. destruct Hd.
  - intros a Wa H IH d Hd.
    rewrite (date_range_cons a e Wa We H) in Hd.
    destruct Hd as [<-|Hd].
    + split; [exact Wa|]. apply (leb_toordinal a e Wa We) in H. lia.
    + destruct (IH d Hd) as [Wd Hb]. split; [exact Wd|].
      rewrite toordinal_next_day in Hb by exact Wa. lia.
Qed.

(** The dates of a range ascend strictly. *)
Lemma date_range_sorted a e :
  wf a -> wf e ->
  StronglySorted (fun x y => toordinal x < toordinal y) (date_range a e).
Proof.
  intros Wa We. revert a Wa.
  apply (date_range_ind e
           (fun a => StronglySorted (fun x y => toordinal x < toordinal y)
                                    (date_range a e)) We).
  - intros a Wa H. rewrite (date_range_nil a e H). constructor.
  - intros a Wa H IH. rewrite (date_range_cons a e Wa We H).
    constructor; [exact IH|].
    apply Forall_forall. intros d Hd.
    destruct (date_range_In (next_day a) e (wf_next_day a Wa) We d Hd) as [_ Hb].
    rewrite toordinal_next_day in Hb by exact Wa. lia.
Qed.

Lemma filter_all {A} (f : A -> bool) (l : list A) :
  (forall x, In x l -> f x = true) -> filter f l = l.
Proof.
  induction l as [|x l IH]; intros H; simpl; [reflexivity|].
  rewrite (H x (or_introl eq_refl)). f_equal. apply IH.
  intros y Hy. apply H. right. exact Hy.
Qed.

(** Dropping the days before [c] from a range that starts earlier
    leaves the range that starts at [c]. *)
Lemma date_range_filter c e :
  wf c -> wf e ->
  forall a, wf a -> leb a c = true ->
            filter (fun d => leb c d) (date_range a e) = date_range c e.
Proof.
  intros Wc We.
  apply (date_range_ind e
           (fun a => leb a c = true ->
                     filter (fun d => leb c d) (date_range a e) = date_range c e)
           We).
  - intros a Wa H Hac. rewrite (date_range_nil a e H). simpl.
    symmetry. apply date_range_nil.
    destruct (leb c e) eqn:E; [|reflexivity].
    apply (leb_toordinal a c Wa Wc) in Hac.
    apply (leb_toordinal c e Wc We) in E.
    assert (Hae : leb a e = true) by (apply (leb_toordinal a e Wa We); lia).
    congruence.
  - intros a Wa H IH Hac.
    rewrite (date_range_cons a e Wa We H). simpl.
    destruct (leb c a) eqn:Hca.
    + assert (a = c) by (apply leb_antisym; assumption). subst a.
      rewrite (date_range_cons c e Wc We H). f_equal.
      apply filter_all. intros d Hd.
      destruct (date_range_In (next_day c) e (wf_next_day c Wc) We d Hd)
        as [Wd Hb].
      rewrite toordinal_next_day in Hb by exact Wc.
      apply (leb_toordinal c d Wc Wd). lia.
    + apply IH.
      apply (leb_toordinal (next_day a) c (wf_next_day a Wa) Wc).
      rewrite toordinal_next_day by exact Wa.
      apply (leb_toordinal a c Wa Wc) in Hac.
      destruct (Z_le_gt_dec (toordinal c) (toordinal a)) as [Hle|Hgt]; [|lia].
      apply (leb_toordinal c a Wc Wa) in Hle. congruence.
Qed.

End CalFacts.

(** ** Rows and groups of the aggregator *)

Module AggFacts.
Import Agg.

Lemma In_combine_nth_error {A B} (l : list A) :
  forall (l' : list B) a b,
    In (a, b) (combine l l') ->
    exists i, nth_error l i = Some a /\ nth_error l' i = Some b.
Proof.
  induction l as [|x l IH]; intros [|y l'] a b H; simpl in H; try tauto.
  destruct H as [H|H].
  - inversion H; subst. exists 0%nat. auto.
  - destruct (IH _ _ _ H) as (i & Hi & Hi'). exists (S i). auto.
Qed.

(** Every row of [remaining] carries the classification of its date. *)
Lemma remaining_IsClosed som eom cur periods r :
  In r (remaining som eom cur periods) ->
  r_IsClosed r = is_closed (r_date r) periods.
Proof.
  unfold remaining. intros H. apply filter_In in H. destruct H as [H _].
  apply in_map_iff in H. destruct H as (d & <- & _). reflexivity.
Qed.

Lemma remaining_IsTodayOrAfter som eom cur periods r :
  In r (remaining som eom cur periods) ->
  Cal.leb cur (r_date r) = true.
Proof.
  unfold remaining. intros H. apply filter_In in H. destruct H as [H Ht].
  apply in_map_iff in H. destruct H as (d & <- & _). exact Ht.
Qed.

Lemma filter_nil_aux {A} (f : A -> bool) (l : list A) :
  (forall x, In x l -> f x = false) -> filter f l = [].
Proof.
  induction l as [|x l IH]; intros H; simpl; [reflexivity|].
  rewrite (H x (or_introl eq_refl)). apply IH.
  intros y Hy. apply H. right. exact Hy.
Qed.

Lemma In_insert_key k k0 ks :
  In k (insert_key k0 ks) <-> k = k0 \/ In k ks.
Proof.
  induction ks as [|k' ks IH]; simpl.
  - intuition.
  - destruct (k0 <? k') eqn:Hlt; simpl; [intuition|].
    destruct (k0 =? k') eqn:Heq; simpl.
    + apply Z.eqb_eq in Heq. subst. intuition.
    + rewrite IH. intuition.
Qed.

Lemma In_group_keys rows k :
  In k (group_keys rows) <->
  exists r, In r rows /\ key r = k.
Proof.
  unfold group_keys. induction rows as [|r rows IH]; simpl.
  - split; [tauto|]. intros (r & [] & _).
  - rewrite In_insert_key, IH. split.
    + intros [->|(r' & Hr' & Hk)]; eauto.
    + intros (r' & [<-|Hr'] & Hk); eauto.
Qed.

(** A group of [groupby_month] holds rows of the frame, all of the
    group's month, and at least one. *)
Lemma groupby_month_group rows k g :
  In (k, g) (groupby_month rows) ->
  g = filter (fun r => key r =? k) rows /\ g <> [].
Proof.
  unfold groupby_month. intros H. apply in_map_iff in H.
  destruct H as (k' & Heq & Hk'). inversion Heq; subst k' g. split; [reflexivity|].
  apply In_group_keys in Hk'. destruct Hk' as (r & Hr & Hk).
  intros Hnil.
  assert (Hin : In r (filter (fun r => key r =? k) rows)).
  { apply filter_In. split; [exact Hr|]. apply Z.eqb_eq. exact Hk. }
  rewrite Hnil in Hin. exact Hin.
Qed.

Lemma groupby_month_In rows k g r :
  In (k, g) (groupby_month rows) -> In r g -> In r rows.
Proof.
  intros H Hr. apply groupby_month_group in H. destruct H as [-> _].
  apply filter_In in Hr. tauto.
Qed.

(** A row of [month_final] pairs a row of the group with the
    percentage computed at the same position. *)
Lemma In_month_final g o :
  In o (month_final g) ->
  exists i r p,
    nth_error g i = Some r /\
    nth_error (Month.month_percentage (map r_IsClosed g)) i = Some p /\
    o = mkOutRow fair_share (r_date r) p.
Proof.
  unfold month_final. intros H. apply in_map_iff in H.
  destruct H as ([r p] & <- & Hin). simpl.
  destruct (In_combine_nth_error _ _ _ _ Hin) as (i & Hi & Hi').
  exists i, r, p. auto.
Qed.

(** A row of [final_df] comes from one group of [remaining]. *)
Lemma In_final_df som eom cur periods out o :
  final_df som eom cur periods = Some out ->
  In o out ->
  exists k g, In (k, g) (groupby_month (remaining som eom cur periods)) /\
              In o (month_final g).
Proof.
  unfold final_df. destruct (Cal.leb som eom); [|discriminate].
  intros H Ho. inversion H; subst out. clear H.
  apply in_concat in Ho. destruct Ho as (l & Hl & Ho).
  apply in_map_iff in Hl. destruct Hl as ([k g] & <- & Hg).
  exists k, g. auto.
Qed.

Lemma insert_key_sorted k ks :
  StronglySorted Z.lt ks -> StronglySorted Z.lt (insert_key k ks).
Proof.
  induction 1 as [|k' ks Hs IH Hall]; simpl.
  - repeat constructor.
  - destruct (k <? k') eqn:Hlt.
    + apply Z.ltb_lt in Hlt. constructor; [constructor; assumption|].
      constructor; [exact Hlt|].
      rewrite Forall_forall in *. intros x Hx. specialize (Hall x Hx). lia.
    + destruct (k =? k') eqn:Heq; [constructor; assumption|].
      apply Z.ltb_ge in Hlt. apply Z.eqb_neq in Heq.
      constructor; [exact IH|].
      rewrite Forall_forall in *. intros x Hx.
      apply In_insert_key in Hx. destruct Hx as [->|Hx]; [lia|auto].
Qed.

(** The group keys ascend strictly: [groupby] visits each month once,
    in month order. *)
Lemma group_keys_sorted rows : StronglySorted Z.lt (group_keys rows).
Proof.
  unfold group_keys. induction rows as [|r rows IH]; simpl.
  - constructor.
  - apply insert_key_sorted. exact IH.
Qed.

Lemma groups_skip r rows ks :
  (forall k, In k ks -> k <> key r) ->
  map (fun k => filter (fun r' => key r' =? k) (r :: rows)) ks
  = map (fun k => filter (fun r' => key r' =? k) rows) ks.
Proof.
  intros H. apply map_ext_in. intros k Hk. simpl.
  destruct (key r =? k) eqn:E; [|reflexivity].
  apply Z.eqb_eq in E. exfalso. apply (H k Hk). congruence.
Qed.

(** On a frame whose rows come in month order, the groups, one after
    the other, are the frame itself. *)
Lemma groupby_month_concat rows :
  StronglySorted (fun r1 r2 => key r1 <= key r2) rows ->
  concat (map snd (groupby_month rows)) = rows.
Proof.
  unfold groupby_month. rewrite map_map. simpl.
  induction 1 as [|r rows Hs IH Hall]; [reflexivity|].
  pose proof (group_keys_sorted rows) as Hks.
  assert (Hge : forall k, In k (group_keys rows) -> key r <= k).
  { intros k Hk. apply In_group_keys in Hk. destruct Hk as (r' & Hr' & <-).
    rewrite Forall_forall in Hall. apply Hall. exact Hr'. }
  change (group_keys (r :: rows)) with (insert_key (key r) (group_keys rows)).
  destruct (group_keys rows) as [|k' ks] eqn:Eks; simpl insert_key.
  - destruct rows as [|r' rows'].
    + simpl. rewrite Z.eqb_refl. reflexivity.
    + exfalso.
      assert (Hin : In (key r') (group_keys (r' :: rows'))).
      { apply In_group_keys. exists r'. split; [left; reflexivity|reflexivity]. }
      rewrite Eks in Hin. exact Hin.
  - inversion Hks as [|? ? Hks' Hlt]; subst.
    destruct (key r <? k') eqn:Hlt'.
    + apply Z.ltb_lt in Hlt'.
      rewrite map_cons, concat_cons.
      rewrite groups_skip.
      * rewrite IH. simpl. rewrite Z.eqb_refl.
        rewrite filter_nil_aux; [reflexivity|].
        intros r' Hr'. apply Z.eqb_neq. intros E.
        assert (Hin : In (key r) (group_keys rows)).
        { apply In_group_keys. exists r'. auto. }
        rewrite Eks in Hin. rewrite Forall_forall in Hlt.
        destruct Hin as [E'|Hin]; [lia|]. specialize (Hlt _ Hin). lia.
      * intros k Hk E. subst k. rewrite Forall_forall in Hlt.
        destruct Hk as [E'|Hk]; [lia|]. specialize (Hlt _ Hk). lia.
    + destruct (key r =? k') eqn:Heq.
      * apply Z.eqb_eq in Heq.
        rewrite map_cons, concat_cons in IH |- *.
        rewrite groups_skip.
        -- simpl. rewrite Heq, Z.eqb_refl. simpl. f_equal. exact IH.
        -- intros k Hk E. rewrite Forall_forall in Hlt.
           specialize (Hlt _ Hk). lia.
      * exfalso. apply Z.ltb_ge in Hlt'. apply Z.eqb_neq in Heq.
        specialize (Hge k' (or_introl eq_refl)). lia.
Qed.

Lemma SS_filter {A} (R : A -> A -> Prop) (f : A -> bool) (l : list A) :
  StronglySorted R l -> StronglySorted R (filter f l).
Proof.
  induction 1 as [|x l Hs IH Hall]; simpl; [constructor|].
  destruct (f x); [|exact IH].
  constructor; [exact IH|].
  rewrite Forall_forall in *. intros y Hy. apply filter_In in Hy.
  apply Hall. tauto.
Qed.

Lemma SS_map {A B} (R : B -> B -> Prop) (f : A -> B) (l : list A) :
  StronglySorted (fun x y => R (f x) (f y)) l -> StronglySorted R (map f l).
Proof.
  induction 1 as [|x l Hs IH Hall]; simpl; constructor; [exact IH|].
  rewrite Forall_forall in *. intros y Hy. apply in_map_iff in Hy.
  destruct Hy as (z & <- & Hz). auto.
Qed.

Lemma SS_unmap {A B} (R : B -> B -> Prop) (f : A -> B) (l : list A) :
  StronglySorted R (map f l) -> StronglySorted (fun x y => R (f x) (f y)) l.
Proof.
  induction l as [|x l IH]; simpl; intros H; [constructor|].
  inversion H as [|? ? Hs Hall]; subst. constructor; [auto|].
  rewrite Forall_forall in *. intros y Hy. apply Hall.
  apply in_map. exact Hy.
Qed.

Lemma SS_weaken {A} (R R' : A -> A -> Prop) (P : A -> Prop) (l : list A) :
  (forall x y, P x -> P y -> R x y -> R' x y) ->
  Forall P l -> StronglySorted R l -> StronglySorted R' l.
Proof.
  intros HR HP Hs. induction Hs as [|x l Hs IH Hall]; [constructor|].
  inversion HP as [|? ? Px Pl]; subst. constructor; [auto|].
  rewrite Forall_forall in *. intros y Hy. apply HR; auto.
Qed.

(** The date column of [remaining]. *)
Lemma remaining_dates som eom cur periods :
  map r_date (remaining som eom cur periods)
  = filter (fun d => Cal.leb cur d) (Cal.date_range som eom).
Proof.
  unfold remaining. induction (Cal.date_range som eom) as [|d l IH]; simpl;
    [reflexivity|].
  destruct (Cal.leb cur d); simpl; rewrite IH; reflexivity.
Qed.

(** The rows of [remaining] come in date order. *)
Lemma remaining_sorted som eom cur periods :
  Cal.wf som -> Cal.wf eom ->
  StronglySorted (fun r1 r2 => Cal.toordinal (r_date r1) < Cal.toordinal (r_date r2))
                 (remaining som eom cur periods).
Proof.
  intros Ws We.
  apply (SS_unmap (fun x y => Cal.toordinal x < Cal.toordinal y) r_date).
  rewrite remaining_dates.
  apply SS_filter. apply CalFacts.date_range_sorted; assumption.
Qed.

Lemma remaining_wf som eom cur periods r :
  Cal.wf som -> Cal.wf eom ->
  In r (remaining som eom cur periods) -> Cal.wf (r_date r).
Proof.
  intros Ws We Hr.
  assert (Hin : In (r_date r) (map r_date (remaining som eom cur periods)))
    by (apply in_map; exact Hr).
  rewrite remaining_dates in Hin. apply filter_In in Hin.
  destruct Hin as [Hin _].
  apply (CalFacts.date_range_In som eom Ws We) in Hin. tauto.
Qed.

(** ... hence in month order. *)
Lemma remaining_key_sorted som eom cur periods :
  Cal.wf som -> Cal.wf eom ->
  StronglySorted (fun r1 r2 => key r1 <= key r2)
                 (remaining som eom cur periods).
Proof.
  intros Ws We.
  apply (SS_weaken _ _ (fun r => Cal.wf (r_date r)) _)
    with (3 := remaining_sorted som eom cur periods Ws We).
  - intros x y Wx Wy Hlt. unfold key.
    apply CalFacts.to_period_M_mono; [assumption..|].
    apply (CalFacts.leb_toordinal _ _ Wx Wy). lia.
  - apply Forall_forall. intros r Hr.
    apply (remaining_wf som eom cur periods r Ws We Hr).
Qed.

Lemma month_final_dates g : map o_date (month_final g) = map r_date g.
Proof.
  unfold month_final.
  assert (Hlen : length (Month.month_percentage (map r_IsClosed g)) = length g)
    by (rewrite MonthFacts.month_percentage_length; apply length_map).
  revert Hlen. generalize (Month.month_percentage (map r_IsClosed g)).
  induction g as [|r g IH]; intros [|p l] Hlen; simpl in *;
    try reflexivity; try discriminate.
  f_equal. apply IH. lia.
Qed.

Lemma concat_month_final_dates gs :
  map o_date (concat (map month_final gs)) = map r_date (concat gs).
Proof.
  induction gs as [|g gs IH]; simpl; [reflexivity|].
  rewrite !map_app, IH, month_final_dates. reflexivity.
Qed.

(** The date column of [final_df] is that of [remaining]. *)
Lemma final_df_dates som eom cur periods out :
  Cal.wf som -> Cal.wf eom ->
  final_df som eom cur periods = Some out ->
  map o_date out = filter (fun d => Cal.leb cur d) (Cal.date_range som eom).
Proof.
  intros Ws We. unfold final_df.
  destruct (Cal.leb som eom); [|discriminate].
  intros H. inversion H; subst out. clear H.
  transitivity
    (map r_date
         (concat (map snd (groupby_month (remaining som eom cur periods))))).
  - rewrite <- concat_month_final_dates, map_map. reflexivity.
  - rewrite groupby_month_concat by (apply remaining_key_sorted; assumption).
    apply remaining_dates.
Qed.

Lemma sorted_range_length (l : list Z) :
  StronglySorted Z.lt l ->
  forall a b, Forall (fun x => a <= x <= b) l ->
              Z.of_nat (length l) <= Z.max 0 (b - a + 1).
Proof.
  induction 1 as [|x l Hs IH Hall]; intros a b Hab; simpl length; [lia|].
  inversion Hab as [|? ? Hx Hl]; subst.
  assert (Hl' : Forall (fun y => x + 1 <= y <= b) l).
  { rewrite Forall_forall in *. intros y Hy.
    specialize (Hall y Hy). specialize (Hl y Hy). simpl in Hl. lia. }
  specialize (IH (x + 1) b Hl'). lia.
Qed.

Lemma key_eq d1 d2 :
  Cal.wf d1 -> Cal.wf d2 -> Cal.to_period_M d1 = Cal.to_period_M d2 ->
  year d1 = year d2 /\ month d1 = month d2.
Proof.
  intros [H1 _] [H2 _]. unfold Cal.to_period_M. lia.
Qed.

(** A group holds the days of one calendar month: at most 31 rows. *)
Lemma group_length som eom cur periods k g :
  Cal.wf som -> Cal.wf eom ->
  In (k, g) (groupby_month (remaining som eom cur periods)) ->
  (1 <= length g <= 31)%nat.
Proof.
  intros Ws We Hg.
  destruct (groupby_month_group _ _ _ Hg) as [Hgf Hne].
  split; [destruct g; [congruence|simpl; lia]|].
  pose proof (remaining_sorted som eom cur periods Ws We) as Hs.
  apply (SS_filter _ (fun r => key r =? k)) in Hs. rewrite <- Hgf in Hs.
  assert (Hwf : forall r, In r g -> Cal.wf (r_date r) /\ key r = k).
  { intros r Hr. rewrite Hgf in Hr. apply filter_In in Hr.
    destruct Hr as [Hr Hk]. apply Z.eqb_eq in Hk. split; [|exact Hk].
    apply (remaining_wf som eom cur periods r Ws We Hr). }
  destruct g as [|r0 g']; [congruence|].
  destruct (Hwf r0 (or_introl eq_refl)) as [W0 K0].
  assert (Hday : StronglySorted Z.lt (map (fun r => day (r_date r)) (r0 :: g'))).
  { apply SS_map.
    apply (SS_weaken _ _ (fun r => In r (r0 :: g')) _) with (3 := Hs).
    - intros x y Hx Hy Hlt.
      destruct (Hwf x Hx) as [Wx Kx]. destruct (Hwf y Hy) as [Wy Ky].
      destruct (key_eq (r_date x) (r_date y) Wx Wy) as [Ey Em];
        [unfold key in *; congruence|].
      unfold Cal.toordinal in Hlt. rewrite Ey, Em in Hlt. lia.
    - apply Forall_forall. auto. }
  pose proof (sorted_range_length _ Hday 1 31) as Hlen.
  rewrite length_map in Hlen.
  assert (Hb : Forall (fun x => 1 <= x <= 31)
                      (map (fun r => day (r_date r)) (r0 :: g'))).
  { apply Forall_forall. intros x Hx. apply in_map_iff in Hx.
    destruct Hx as (r & <- & Hr). destruct (Hwf r Hr) as [[_ Wd] _].
    pose proof (CalFacts.days_in_month_bounds (year (r_date r)) (month (r_date r))).
    lia. }
  specialize (Hlen Hb). lia.
Qed.

End AggFacts.

(** ** Floats of a month: the divisor is at most 31 *)

Module FloatFacts.

(** Case analysis on a number of days between 1 and 31. *)
Ltac days_cases n H :=
  do 32 (destruct n as [|n]; [try (exfalso; lia); try reflexivity|]);
  exfalso; lia.

Lemma of_nat_pos (n : nat) :
  (1 <= n <= 31)%nat -> F64.is_pos_finite (F64.of_nat n) = true.
Proof. intros H. days_cases n H. Qed.

Lemma unit_pos (n : nat) :
  (1 <= n <= 31)%nat ->
  F64.is_pos_finite (F64.one / F64.of_nat n)%f64 = true.
Proof. intros H. days_cases n H. Qed.

(** Multiplication of floats commutes. *)
Lemma mul_comm (x y : F64.float) : (x * y)%f64 = (y * x)%f64.
Proof.
  unfold F64.mul.
  destruct x as [sx|sx| |sx mx ex], y as [sy|sy| |sy my ey]; simpl;
    rewrite ?(xorb_comm sx sy); try reflexivity.
  rewrite (Pos.mul_comm mx my), (Z.add_comm ex ey). reflexivity.
Qed.

Lemma mul_zero_r (x : F64.float) :
  F64.is_pos_finite x = true -> (x * F64.of_nat 0)%f64 = F64.zero.
Proof.
  destruct x as [sx|sx| |[|] mx ex]; simpl; intros H;
    try discriminate. reflexivity.
Qed.

(** Adding 0 leaves a finite float above zero as it is. *)
Lemma add_zero_r (x : F64.float) :
  F64.is_pos_finite x = true -> (x + F64.zero)%f64 = x.
Proof.
  destruct x as [sx|sx| |[|] mx ex]; simpl; intros H;
    try discriminate. reflexivity.
Qed.

End FloatFacts.

(** ** The code's table of counts against the rule *)

Module RuleFacts.
Import Month.

Lemma combine_seq_map {A} (d : A) (l : list A) :
  forall s, combine (seq s (length l)) l
            = map (fun k => (k, nth (k - s) l d)) (seq s (length l)).
Proof.
  induction l as [|x l IH]; intros s; simpl; [reflexivity|].
  f_equal.
  - rewrite Nat.sub_diag. reflexivity.
  - rewrite IH. apply map_ext_in. intros k Hk. apply in_seq in Hk.
    replace (k - s)%nat with (S (k - S s)) by lia. reflexivity.
Qed.

(** The frame [group], as its [Index] and [IsClosed] columns. *)
Lemma group_rows (cl : list bool) :
  combine (Index cl) cl = map (fun k => (k, nth k cl false)) (seq 0 (length cl)).
Proof.
  unfold Index. rewrite (combine_seq_map false cl 0).
  apply map_ext. intros k. rewrite Nat.sub_0_r. reflexivity.
Qed.

Lemma filter_map_comm {A B} (f : B -> bool) (g : A -> B) (l : list A) :
  filter f (map g l) = map g (filter (fun x => f (g x)) l).
Proof.
  induction l as [|x l IH]; simpl; [reflexivity|].
  destruct (f (g x)); simpl; rewrite IH; reflexivity.
Qed.

(** The open rows before [j], in row order. *)
Lemma preceding_rows (cl : list bool) (j : nat) :
  (j <= length cl)%nat ->
  filter (fun k => (k <? j)%nat && negb (nth k cl false)) (seq 0 (length cl))
  = filter (fun k => negb (nth k cl false)) (seq 0 j).
Proof.
  intros Hj.
  replace (length cl) with (j + (length cl - j))%nat by lia.
  rewrite seq_app, filter_app. simpl.
  rewrite (AggFacts.filter_nil_aux _ (seq j (length cl - j))).
  - rewrite app_nil_r. apply filter_ext_in. intros k Hk. apply in_seq in Hk.
    destruct (Nat.ltb_spec k j); [reflexivity|lia].
  - intros k Hk. apply in_seq in Hk.
    destruct (Nat.ltb_spec k j); [lia|reflexivity].
Qed.

Lemma last_open_rule (cl : list bool) :
  forall j, (j <= length cl)%nat ->
            match rev (filter (fun k => negb (nth k cl false)) (seq 0 j)) with
            | [] => None
            | k :: _ => Some k
            end = Rule.nearest_preceding_open cl j.
Proof.
  induction j as [|j IH]; intros Hj; [reflexivity|].
  rewrite seq_S, filter_app, rev_app_distr. simpl.
  rewrite (nth_indep cl true false) by lia.
  destruct (nth j cl false); simpl; [apply IH; lia|reflexivity].
Qed.

(** Step 9 is the backward scan of the rule. *)
Lemma find_preceding_rule (cl : list bool) (j : nat) :
  (j <= length cl)%nat ->
  find_preceding_active_index j (combine (Index cl) cl)
  = Rule.nearest_preceding_open cl j.
Proof.
  intros Hj. unfold find_preceding_active_index.
  rewrite group_rows, filter_map_comm. simpl.
  rewrite (preceding_rows cl j Hj), <- map_rev.
  rewrite <- (last_open_rule cl j Hj).
  destruct (rev (filter (fun k => negb (nth k cl false)) (seq 0 j))); reflexivity.
Qed.

(** Step 10, row by row. *)
Lemma PrecedingActiveIndex_rule (cl : list bool) :
  PrecedingActiveIndex cl
  = map (fun k => if nth k cl false then Rule.nearest_preceding_open cl k
                  else None)
        (seq 0 (length cl)).
Proof.
  unfold PrecedingActiveIndex. cbv zeta.
  remember (fun r : nat * bool =>
              if snd r then find_preceding_active_index (fst r)
                              (combine (Index cl) cl)
              else None) as F eqn:HF.
  rewrite group_rows, map_map. subst F. simpl.
  apply map_ext_in. intros k Hk. apply in_seq in Hk.
  destruct (nth k cl false); [|reflexivity].
  apply find_preceding_rule. lia.
Qed.

Lemma combine_map_seq {A B} (d : A) (g : nat -> B) (l : list A) :
  forall s, combine l (map g (seq s (length l)))
            = map (fun k => (nth (k - s) l d, g k)) (seq s (length l)).
Proof.
  induction l as [|x l IH]; intros s; simpl; [reflexivity|].
  f_equal.
  - rewrite Nat.sub_diag. reflexivity.
  - rewrite IH. apply map_ext_in. intros k Hk. apply in_seq in Hk.
    replace (k - s)%nat with (S (k - S s)) by lia. reflexivity.
Qed.

Lemma flat_map_map_comm {A B C} (h : B -> list C) (m : A -> B) (l : list A) :
  flat_map h (map m l) = flat_map (fun x => h (m x)) l.
Proof.
  induction l as [|x l IH]; simpl; [reflexivity|]. rewrite IH. reflexivity.
Qed.

(** Step 11: one key per closed day that has a preceding open day. *)
Lemma closed_days_with_preceding_rule (cl : list bool) :
  closed_days_with_preceding cl
  = flat_map (fun k => if nth k cl false
                       then match Rule.nearest_preceding_open cl k with
                            | Some i => [i]
                            | None => []
                            end
                       else [])
             (seq 0 (length cl)).
Proof.
  unfold closed_days_with_preceding.
  rewrite PrecedingActiveIndex_rule, (combine_map_seq false _ cl 0).
  rewrite flat_map_map_comm. apply flat_map_ext. intros k.
  rewrite Nat.sub_0_r. destruct (nth k cl false); reflexivity.
Qed.

(** Step 12 counts, for each open day, the closed days that roll onto
    it. *)
Lemma count_keys_rule (cl : list bool) (i : nat) :
  count_occ Nat.eq_dec (closed_days_with_preceding cl) i
  = Rule.rolled_count cl i.
Proof.
  rewrite closed_days_with_preceding_rule. unfold Rule.rolled_count.
  induction (seq 0 (length cl)) as [|k l IH]; [reflexivity|].
  simpl flat_map. rewrite count_occ_app, IH. simpl filter.
  unfold Rule.rolls_onto at 2.
  destruct (nth k cl false); simpl; [|reflexivity].
  destruct (Rule.nearest_preceding_open cl k) as [i'|]; simpl; [|reflexivity].
  destruct (Nat.eq_dec i' i) as [->|Hne].
  - rewrite Nat.eqb_refl. reflexivity.
  - destruct (Nat.eqb_spec i' i); [congruence|reflexivity].
Qed.

Lemma lookup_map {A} (v : nat -> A) (ks : list nat) (i : nat) :
  lookup i (map (fun k => (k, v k)) ks)
  = if existsb (Nat.eqb i) ks then Some (v i) else None.
Proof.
  induction ks as [|k ks IH]; simpl; [reflexivity|].
  destruct (Nat.eqb_spec i k) as [->|Hne]; simpl; [reflexivity|exact IH].
Qed.

Lemma existsb_eqb_In (i : nat) (ks : list nat) :
  existsb (Nat.eqb i) ks = true <-> In i ks.
Proof.
  rewrite existsb_exists. split.
  - intros (k & Hk & E). apply Nat.eqb_eq in E. congruence.
  - intros H. exists i. split; [exact H|apply Nat.eqb_refl].
Qed.

Lemma list_max_In (k : nat) (l : list nat) : In k l -> (k <= list_max l)%nat.
Proof.
  induction l as [|x l IH]; simpl; [tauto|].
  intros [->|H]; [lia|]. specialize (IH H). lia.
Qed.

(** Steps 12 to 15: the extra percentage of row [i]. *)
Lemma extra_rule (cl : list bool) (i : nat) :
  extra cl i
  = if (Rule.rolled_count cl i =? 0)%nat then F64.zero
    else (F64.of_nat (Rule.rolled_count cl i) * unit_share cl)%f64.
Proof.
  unfold extra, ExtraPercentage_table, closed_days_grouped, groupby_size.
  rewrite map_map. cbn [fst snd].
  rewrite (lookup_map
             (fun k => (F64.of_nat
                          (count_occ Nat.eq_dec (closed_days_with_preceding cl) k)
                        * unit_share cl)%f64)).
  rewrite count_keys_rule.
  set (keys := closed_days_with_preceding cl).
  destruct (existsb _ _) eqn:E.
  - apply existsb_eqb_In in E. apply filter_In in E. destruct E as [_ E].
    apply existsb_eqb_In in E.
    apply (count_occ_In Nat.eq_dec) in E. unfold keys in E.
    rewrite count_keys_rule in E.
    destruct (Nat.eqb_spec (Rule.rolled_count cl i) 0); [lia|reflexivity].
  - destruct (Nat.eqb_spec (Rule.rolled_count cl i) 0) as [|Hne]; [reflexivity|].
    exfalso. rewrite <- count_keys_rule in Hne. fold keys in Hne.
    assert (Hin : In i keys).
    { apply (count_occ_In Nat.eq_dec). lia. }
    assert (Hin' : existsb (Nat.eqb i)
                     (filter (fun k => existsb (Nat.eqb k) keys)
                             (seq 0 (S (list_max keys)))) = true).
    { apply existsb_eqb_In. apply filter_In. split.
      - apply in_seq. pose proof (list_max_In i keys Hin). lia.
      - apply existsb_eqb_In. exact Hin. }
    congruence.
Qed.

End RuleFacts.

(** ** The one-pass form of the allocation *)

Module PassFacts.
Import Month.

Lemma nearest_cons (b : bool) (cl : list bool) (j : nat) :
  Rule.nearest_preceding_open (b :: cl) (S j)
  = Pass.shift b (Rule.nearest_preceding_open cl j).
Proof.
  induction j as [|j IH].
  - simpl. destruct b; reflexivity.
  - change (Rule.nearest_preceding_open (b :: cl) (S (S j)))
      with (if nth j cl true
            then Rule.nearest_preceding_open (b :: cl) (S j)
            else Some (S j)).
    rewrite IH. simpl. destruct (nth j cl true); reflexivity.
Qed.

Lemma seq_filter_shift (f : nat -> bool) (n : nat) :
  filter f (seq 1 n) = map S (filter (fun j => f (S j)) (seq 0 n)).
Proof.
  rewrite <- seq_shift. apply RuleFacts.filter_map_comm.
Qed.

(** The count of a later row does not see the first row. *)
Lemma rolled_count_cons (b : bool) (cl : list bool) (i : nat) :
  Rule.rolled_count (b :: cl) (S i) = Rule.rolled_count cl i.
Proof.
  unfold Rule.rolled_count. simpl length. simpl seq.
  cbn [filter]. unfold Rule.rolls_onto at 1. simpl.
  rewrite Bool.andb_false_r.
  rewrite seq_filter_shift, length_map. f_equal.
  apply filter_ext. intros j. unfold Rule.rolls_onto.
  rewrite nearest_cons. simpl.
  destruct (Rule.nearest_preceding_open cl j) as [i'|]; simpl; [reflexivity|].
  destruct b; reflexivity.
Qed.

(** The closed days without a preceding open day are those of the
    leading run. *)
Lemma leading_count (cl : list bool) :
  length (filter (fun j => nth j cl false
                           && match Rule.nearest_preceding_open cl j with
                              | Some _ => false
                              | None => true
                              end)
                 (seq 0 (length cl)))
  = Pass.run_len cl.
Proof.
  induction cl as [|b cl IH]; [reflexivity|].
  simpl length. simpl seq. cbn [filter].
  destruct b; simpl;
    rewrite seq_filter_shift, length_map.
  - f_equal. rewrite <- IH. f_equal. apply filter_ext. intros j.
    rewrite nearest_cons. simpl.
    destruct (Rule.nearest_preceding_open cl j); reflexivity.
  - rewrite (AggFacts.filter_nil_aux _ (seq 0 (length cl)));
      [reflexivity|].
    intros j _. rewrite nearest_cons. simpl.
    destruct (Rule.nearest_preceding_open cl j); simpl;
      rewrite Bool.andb_false_r; reflexivity.
Qed.

(** An open first day collects the closed run that follows it. *)
Lemma rolled_count_head (cl : list bool) :
  Rule.rolled_count (false :: cl) 0 = Pass.run_len cl.
Proof.
  unfold Rule.rolled_count. simpl length. simpl seq. cbn [filter].
  unfold Rule.rolls_onto at 1. simpl.
  rewrite seq_filter_shift, length_map, <- leading_count. f_equal.
  apply filter_ext. intros j. unfold Rule.rolls_onto.
  rewrite nearest_cons. simpl.
  destruct (Rule.nearest_preceding_open cl j); reflexivity.
Qed.

Lemma combine_map_snd {A B C} (f : B -> C) (l : list A) :
  forall l' : list B,
    combine l (map f l') = map (fun p => (fst p, f (snd p))) (combine l l').
Proof.
  induction l as [|x l IH]; intros [|y l']; simpl; try reflexivity.
  rewrite IH. reflexivity.
Qed.

Lemma pass_shape (u : F64.float) :
  forall cl,
    map (fun ci : bool * nat =>
           if fst ci then F64.zero
           else Pass.weight u (Rule.rolled_count cl (snd ci)))
        (combine cl (seq 0 (length cl)))
    = Pass.percentage u cl.
Proof.
  induction cl as [|b cl IH]; [reflexivity|].
  simpl length. simpl seq. simpl combine. rewrite map_cons.
  rewrite <- seq_shift, combine_map_snd, map_map. simpl.
  rewrite <- IH. destruct b.
  - f_equal. apply map_ext. intros [c i]. simpl.
    rewrite rolled_count_cons. reflexivity.
  - rewrite rolled_count_head. f_equal. apply map_ext. intros [c i]. simpl.
    rewrite rolled_count_cons. reflexivity.
Qed.

(** Steps 6 to 17 compute the one-pass percentages. *)
Lemma percentage_pass (cl : list bool) :
  percentage cl = Pass.percentage (unit_share cl) cl.
Proof.
  rewrite MonthFacts.percentage_eq, <- pass_shape.
  apply map_ext. intros [c i]. simpl. destruct c; [reflexivity|].
  rewrite RuleFacts.extra_rule. unfold Pass.weight. reflexivity.
Qed.

End PassFacts.

(** ** The running totals are those of the table *)

Module SumsFacts.
Import Sums.

Lemma same_eq (x y : F64.float) : same x y = true -> x = y.
Proof.
  destruct x as [a|a| |a m e], y as [b|b| |b m' e']; simpl;
    try discriminate; intros H.
  - apply eqb_prop in H. congruence.
  - apply eqb_prop in H. congruence.
  - reflexivity.
  - apply andb_true_iff in H. destruct H as [H He].
    apply andb_true_iff in H. destruct H as [Ha Hm].
    apply eqb_prop in Ha. apply Pos.eqb_eq in Hm. apply Z.eqb_eq in He.
    congruence.
Qed.

Lemma existsb_same (x : F64.float) (l : list F64.float) :
  existsb (same x) l = true -> In x l.
Proof.
  rewrite existsb_exists. intros (y & Hy & E).
  apply same_eq in E. congruence.
Qed.

Lemma reach_le (D j : nat) (s : F64.float) : reach D j s -> (j <= D)%nat.
Proof. induction 1; lia. Qed.

(** Every sum is in a table that is closed. *)
Lemma reach_in_table (D : nat) (tbl : list (list F64.float)) :
  closed_table D tbl = true ->
  forall j s, reach D j s -> In s (level tbl j).
Proof.
  unfold closed_table. intros H. apply andb_true_iff in H.
  destruct H as [H Hadd]. apply andb_true_iff in H. destruct H as [H0 Hw].
  rewrite forallb_forall in Hw, Hadd.
  induction 1 as [|c Hc|j1 s1 j2 s2 Hr1 IH1 Hr2 IH2 Hle].
  - apply existsb_same. exact H0.
  - apply existsb_same. apply Hw. apply in_seq. lia.
  - assert (Hj1 : In j1 (seq 0 (S D))) by (apply in_seq; lia).
    specialize (Hadd j1 Hj1). rewrite forallb_forall in Hadd.
    assert (Hj2 : In j2 (seq 0 (S (D - j1)))) by (apply in_seq; lia).
    specialize (Hadd j2 Hj2). rewrite forallb_forall in Hadd.
    specialize (Hadd s1 IH1). rewrite forallb_forall in Hadd.
    apply existsb_same. apply Hadd. exact IH2.
Qed.

Lemma reach_level_ok (D : nat) (tbl : list (list F64.float)) :
  table_ok D tbl = true ->
  forall j s, reach D j s -> level_ok D j s = true.
Proof.
  unfold table_ok. intros H. apply andb_true_iff in H.
  destruct H as [H Hl]. apply andb_true_iff in H. destruct H as [Hc _].
  intros j s Hr. rewrite forallb_forall in Hl.
  assert (Hj : In j (seq 0 (S D))).
  { apply in_seq. pose proof (reach_le D j s Hr). lia. }
  specialize (Hl j Hj). rewrite forallb_forall in Hl.
  apply Hl. apply (reach_in_table D tbl Hc j s Hr).
Qed.

(** The tables of the months of 1 to 31 days pass the check. *)
Lemma check_month (D : nat) : (1 <= D <= 31)%nat -> check D = true.
Proof.
  intros H.
  do 32 (destruct D as [|D]; [try (exfalso; lia); try (vm_compute; reflexivity)|]).
  exfalso. lia.
Qed.

Lemma single_month (D : nat) : (1 <= D <= 31)%nat -> single_ok D = true.
Proof.
  intros H.
  do 32 (destruct D as [|D]; [try (exfalso; lia); try (vm_compute; reflexivity)|]).
  exfalso. lia.
Qed.

End SumsFacts.

(** ** The sum of a month *)

Module MonthSum.
Import Sums.

Lemma run_len_le (l : list bool) : (Pass.run_len l <= length l)%nat.
Proof.
  induction l as [|[|] l IH]; simpl; lia.
Qed.

Lemma gt0_pos (x : F64.float) : F64.is_pos_finite x = true -> F64.gt0 x = true.
Proof.
  destruct x as [a|a| |[|] m e]; simpl; intros H; try discriminate. reflexivity.
Qed.

(** Adding up in row order is one way of summing. *)
Lemma fold_sums_to (l : list F64.float) :
  forall l0 s, F64.sums_to l0 s ->
               F64.sums_to (l0 ++ l) (fold_left F64.add l s).
Proof.
  induction l as [|x l IH]; intros l0 s Hs; simpl.
  - rewrite app_nil_r. exact Hs.
  - replace (l0 ++ x :: l) with ((l0 ++ [x]) ++ l)
      by (rewrite <- app_assoc; reflexivity).
    apply IH. apply F64.sums_app; [exact Hs|apply F64.sums_one].
Qed.

Lemma sum_sums_to (l : list F64.float) : F64.sums_to l (F64.sum l).
Proof. apply (fold_sums_to l [] F64.zero). apply F64.sums_nil. Qed.

Lemma scale_bound (d x U n : Z) :
  0 < d -> 0 <= U -> n <= 100 ->
  Z.abs (d * x) * 100000000000 <= n * (d * U) ->
  Z.abs x * 1000000000 <= U.
Proof.
  intros Hd HU Hn H. rewrite Z.abs_mul, (Z.abs_eq d) in H by lia.
  assert (H' : d * (Z.abs x * 100000000000) <= d * (n * U)) by lia.
  apply Z.mul_le_mono_pos_l in H'; [|exact Hd].
  assert (n * U <= 100 * U) by (apply Z.mul_le_mono_nonneg_r; lia).
  lia.
Qed.

Section Month.

Variable D : nat.
Hypothesis HD : check D = true.

Lemma reach_ok j s : reach D j s -> level_ok D j s = true.
Proof. apply (SumsFacts.reach_level_ok D (build D) HD). Qed.

Lemma weight_checked c : (c < D)%nat -> weight_ok D c = true.
Proof.
  intros Hc. unfold check, table_ok in HD.
  apply andb_true_iff in HD. destruct HD as [H _].
  apply andb_true_iff in H. destruct H as [_ Hw].
  unfold weights_ok in Hw. rewrite forallb_forall in Hw.
  apply Hw. apply in_seq. lia.
Qed.

Lemma weight_pos c : (c < D)%nat -> F64.is_pos_finite (Pass.W D c) = true.
Proof.
  intros Hc. pose proof (weight_checked c Hc) as H.
  unfold weight_ok in H. apply andb_true_iff in H. tauto.
Qed.

(** The percentages of a column account for the days after its
    leading closed run. *)
Lemma worth_pass (l : list bool) :
  worth D (Pass.percentage (Pass.unit D) l) (length l - Pass.run_len l).
Proof.
  induction l as [|b l IH]; [constructor|].
  pose proof (run_len_le l) as Hrl. destruct b.
  - simpl. apply worth_zero. exact IH.
  - simpl Pass.percentage. simpl length. simpl Pass.run_len.
    replace (S (length l) - 0)%nat
      with (Pass.run_len l + 1 + (length l - Pass.run_len l))%nat by lia.
    apply (worth_weight D (Pass.run_len l)). exact IH.
Qed.

Lemma worth_perm (l l' : list F64.float) :
  Permutation l l' -> forall j, worth D l j -> worth D l' j.
Proof.
  induction 1 as [|x l l' HP IH|x y l|l l' l'' HP1 IH1 HP2 IH2]; intros j Hw.
  - exact Hw.
  - inversion Hw as [|l0 j0 Hw0|c l0 j0 Hw0]; subst.
    + apply worth_zero. auto.
    + apply worth_weight. auto.
  - inversion Hw as [|l0 j0 Hw0|c l0 j0 Hw0]; subst;
      inversion Hw0 as [|l1 j1 Hw1|c' l1 j1 Hw1]; subst.
    + apply worth_zero. apply worth_zero. exact Hw1.
    + apply worth_weight. apply worth_zero. exact Hw1.
    + apply worth_zero. apply worth_weight. exact Hw1.
    + replace (c + 1 + (c' + 1 + j1))%nat
        with (c' + 1 + (c + 1 + j1))%nat by lia.
      apply worth_weight. apply worth_weight. exact Hw1.
  - auto.
Qed.

Lemma worth_app (l1 l2 : list F64.float) :
  forall j, worth D (l1 ++ l2) j ->
            exists j1 j2, worth D l1 j1 /\ worth D l2 j2 /\ j = (j1 + j2)%nat.
Proof.
  induction l1 as [|x l1 IH]; intros j Hw.
  - exists 0%nat, j. split; [constructor|]. split; [exact Hw|reflexivity].
  - simpl in Hw. inversion Hw as [|l0 j0 Hw0|c l0 j0 Hw0]; subst.
    + destruct (IH _ Hw0) as (j1 & j2 & H1 & H2 & E).
      exists j1, j2. split; [apply worth_zero; exact H1|]. auto.
    + destruct (IH _ Hw0) as (j1 & j2 & H1 & H2 & E).
      exists (c + 1 + j1)%nat, j2.
      split; [apply worth_weight; exact H1|]. split; [exact H2|lia].
Qed.

(** Whatever the order of the additions, the sum of a column is one of
    the sums of [reach]. *)
Lemma sums_reach (l : list F64.float) (s : F64.float) :
  F64.sums_to l s ->
  forall j, worth D l j -> (j <= D)%nat -> reach D j s.
Proof.
  induction 1 as [|x|l1 l2 s1 s2 H1 IH1 H2 IH2|l l' s HP Hs IH]; intros j Hw Hj.
  - inversion Hw; subst. apply reach_zero.
  - inversion Hw as [|l0 j0 Hw0|c l0 j0 Hw0]; subst; inversion Hw0; subst.
    + apply reach_zero.
    + rewrite Nat.add_0_r in *. apply reach_weight. exact Hj.
  - destruct (worth_app l1 l2 j Hw) as (j1 & j2 & Hw1 & Hw2 & ->).
    apply reach_add; [apply IH1; [exact Hw1|lia]|apply IH2; [exact Hw2|lia]|exact Hj].
  - apply IH; [|exact Hj]. apply (worth_perm l' l); [|exact Hw].
    apply Permutation_sym. exact HP.
Qed.

Lemma first_weight (l : list bool) :
  (Pass.run_len l < length l)%nat ->
  exists c1 rest,
    Pass.percentage (Pass.unit D) l
    = repeat F64.zero (Pass.run_len l) ++ Pass.W D c1 :: rest /\
    (Pass.run_len l + c1 + 1 <= length l)%nat.
Proof.
  induction l as [|b l IH]; simpl; intros H; [lia|].
  destruct b.
  - destruct IH as (c1 & rest & E & Hc); [lia|].
    exists c1, rest. simpl. rewrite E. split; [reflexivity|lia].
  - exists (Pass.run_len l), (Pass.percentage (Pass.unit D) l).
    split; [reflexivity|]. pose proof (run_len_le l). simpl. lia.
Qed.

Lemma all_closed (l : list bool) :
  Pass.run_len l = length l ->
  Pass.percentage (Pass.unit D) l = repeat F64.zero (length l).
Proof.
  induction l as [|b l IH]; simpl; intros H; [reflexivity|].
  destruct b; [|discriminate]. rewrite IH by lia. reflexivity.
Qed.

Lemma first_active_zeros (k : nat) (w : F64.float) (rest : list F64.float) :
  F64.gt0 w = true ->
  Month.first_active_idx (repeat F64.zero k ++ w :: rest) = Some k.
Proof.
  intros Hw. induction k as [|k IH]; simpl; [rewrite Hw; reflexivity|].
  rewrite IH. reflexivity.
Qed.

Lemma first_active_none (k : nat) :
  Month.first_active_idx (repeat F64.zero k) = None.
Proof.
  induction k as [|k IH]; simpl; [reflexivity|]. rewrite IH. reflexivity.
Qed.

Lemma add_at_zeros (k : nat) (a w : F64.float) (rest : list F64.float) :
  Month.add_at k a (repeat F64.zero k ++ w :: rest)
  = repeat F64.zero k ++ (w + a)%f64 :: rest.
Proof.
  induction k as [|k IH]; simpl; [reflexivity|]. rewrite IH. reflexivity.
Qed.

Lemma sum_zeros (k : nat) : F64.sum (repeat F64.zero k) = F64.zero.
Proof.
  unfold F64.sum. induction k as [|k IH]; simpl; [reflexivity|exact IH].
Qed.

Lemma exact_sum_zeros (k : nat) (l : list F64.float) :
  F64.exact_sum (repeat F64.zero k ++ l) = F64.exact_sum l.
Proof.
  induction k as [|k IH]; simpl; [reflexivity|]. rewrite IH.
  destruct (F64.exact_sum l); reflexivity.
Qed.

(** The exact sum of the percentages, before the correction: the
    shares of all days but those of the leading closed run. *)
Lemma exact_sum_pass (l : list bool) :
  (length l <= D)%nat ->
  exists v,
    F64.exact_sum (Pass.percentage (Pass.unit D) l) = Some v /\
    Z.abs (Z.of_nat D * v
           - Z.of_nat (length l - Pass.run_len l) * F64.unit_one)
    * 100000000000
    <= Z.of_nat (length l) * (Z.of_nat D * F64.unit_one).
Proof.
  induction l as [|b l IH]; intros Hlen.
  - exists 0. split; [reflexivity|]. simpl. lia.
  - simpl length in Hlen. destruct IH as (v & Hv & Hb); [lia|].
    pose proof (run_len_le l) as Hrl.
    destruct b.
    + exists v. split; [simpl; rewrite Hv; reflexivity|].
      simpl length. simpl Pass.run_len.
      replace (S (length l) - S (Pass.run_len l))%nat
        with (length l - Pass.run_len l)%nat by lia.
      assert (0 <= Z.of_nat D * F64.unit_one).
      { apply Z.mul_nonneg_nonneg; [lia|]. unfold F64.unit_one. lia. }
      lia.
    + pose proof (weight_checked (Pass.run_len l)) as Hw.
      unfold weight_ok in Hw. rewrite andb_true_iff in Hw.
      destruct Hw as [_ Hw]; [lia|].
      change (Pass.weight (Pass.unit D) (Pass.run_len l))
        with (Pass.W D (Pass.run_len l)) in *.
      destruct (F64.units (Pass.W D (Pass.run_len l))) as [w|] eqn:Ew;
        [|discriminate].
      unfold tol_ok in Hw. apply Z.leb_le in Hw.
      exists (w + v). split.
      { simpl. change (Pass.weight (Pass.unit D) (Pass.run_len l))
          with (Pass.W D (Pass.run_len l)). rewrite Ew, Hv. reflexivity. }
      simpl length. simpl Pass.run_len.
      replace (Z.of_nat (S (length l) - 0))
        with (Z.of_nat (Pass.run_len l + 1)
              + Z.of_nat (length l - Pass.run_len l)) by lia.
      remember F64.unit_one as U.
      rewrite Z.mul_add_distr_l, Z.mul_add_distr_r.
      rewrite Nat2Z.inj_succ. lia.
Qed.


Hypothesis HD1 : (1 <= D)%nat.

Lemma month_unit (cl : list bool) :
  length cl = D -> Month.unit_share cl = Pass.unit D.
Proof.
  intros H. unfold Month.unit_share, Pass.unit.
  rewrite MonthFacts.N_plus_C_length; [rewrite H; reflexivity|].
  intros E. rewrite E in H. simpl in H. lia.
Qed.

Lemma percentage_is_pass (cl : list bool) :
  length cl = D -> Month.percentage cl = Pass.percentage (Pass.unit D) cl.
Proof.
  intros H. rewrite PassFacts.percentage_pass, (month_unit cl H). reflexivity.
Qed.

(** A total of the percentages is a sum for the days after the
    leading closed run. *)
Lemma total_reach (cl : list bool) (T : F64.float) :
  length cl = D -> F64.sums_to (Month.percentage cl) T ->
  reach D (D - Pass.run_len cl) T.
Proof.
  intros H HT. rewrite (percentage_is_pass cl H) in HT.
  apply (sums_reach _ T HT); [|lia].
  pose proof (worth_pass cl) as Hw. rewrite H in Hw. exact Hw.
Qed.

(** A group without an open day: every percentage is 0, before and
    after the correction step. *)
Lemma month_all_closed (cl : list bool) (T : F64.float) :
  length cl = D -> Pass.run_len cl = D ->
  Month.percentage cl = repeat F64.zero D /\
  Month.correct_with T (Month.percentage cl) = repeat F64.zero D.
Proof.
  intros H Hk. assert (HP : Month.percentage cl = repeat F64.zero D).
  { rewrite (percentage_is_pass cl H), all_closed by lia.
    rewrite H. reflexivity. }
  split; [exact HP|].
  unfold Month.correct_with. rewrite HP.
  rewrite first_active_none. destruct (negb _); reflexivity.
Qed.

(** A group that starts with an open day: the total is close to 1 and
    the correction step changes nothing. *)
Lemma month_full (cl : list bool) (T : F64.float) :
  length cl = D -> Pass.run_len cl = 0%nat ->
  F64.sums_to (Month.percentage cl) T ->
  F64.isclose T F64.one = true /\ dev_small T = true /\
  Month.correct_with T (Month.percentage cl) = Month.percentage cl.
Proof.
  intros H Hk HT. pose proof (total_reach cl T H HT) as Hr.
  rewrite Hk, Nat.sub_0_r in Hr. apply reach_ok in Hr.
  unfold level_ok in Hr.
  destruct (Nat.eqb_spec D 0) as [|_]; [lia|].
  rewrite Nat.eqb_refl in Hr.
  apply andb_true_iff in Hr. destruct Hr as [_ Hr].
  apply andb_true_iff in Hr. destruct Hr as [Hc Hd].
  split; [exact Hc|]. split; [exact Hd|].
  unfold Month.correct_with. rewrite Hc. reflexivity.
Qed.

(** A group that starts with [k] closed days and has an open day: the
    total is not close to 1 and the correction is added to the first
    open day. *)
Lemma month_partial (cl : list bool) (T : F64.float) :
  length cl = D -> (0 < Pass.run_len cl < D)%nat ->
  F64.sums_to (Month.percentage cl) T ->
  let k := Pass.run_len cl in
  F64.isclose T F64.one = false /\ dev_large T = true /\
  exists c1 rest,
    Month.percentage cl = repeat F64.zero k ++ Pass.W D c1 :: rest /\
    Month.correct_with T (Month.percentage cl)
    = repeat F64.zero k ++ (Pass.W D c1 + (F64.one - T))%f64 :: rest /\
    (k + c1 + 1 <= D)%nat /\
    adjust_ok D k T c1 = true.
Proof.
  intros H Hk HT k. pose proof (total_reach cl T H HT) as Hr.
  apply reach_ok in Hr. unfold level_ok in Hr. fold k in Hr.
  destruct (Nat.eqb_spec (D - k) 0) as [|_]; [unfold k in *; lia|].
  destruct (Nat.eqb_spec (D - k) D) as [|_]; [unfold k in *; lia|].
  apply andb_true_iff in Hr. destruct Hr as [_ Hr].
  apply andb_true_iff in Hr. destruct Hr as [Hr Hadj].
  apply andb_true_iff in Hr. destruct Hr as [Hc Hd].
  apply negb_true_iff in Hc.
  split; [exact Hc|]. split; [exact Hd|].
  destruct (first_weight cl) as (c1 & rest & E & Hc1); [lia|].
  fold k in E, Hc1. rewrite H in Hc1.
  rewrite <- (percentage_is_pass cl H) in E.
  exists c1, rest. split; [exact E|].
  rewrite forallb_forall in Hadj.
  assert (Hc1' : (c1 < D - k)%nat) by lia.
  specialize (Hadj c1 (proj2 (in_seq _ _ _) (conj (Nat.le_0_l _) Hc1'))).
  replace (D - (D - k))%nat with k in Hadj by (unfold k in *; lia).
  split; [|split; [exact Hc1|exact Hadj]].
  unfold Month.correct_with. rewrite Hc. simpl negb.
  cbv iota. rewrite E, first_active_zeros, add_at_zeros; [reflexivity|].
  apply gt0_pos. apply weight_pos. lia.
Qed.

(** With an open day in the group, the percentages of the month sum
    to 1 within 1e-9, exactly summed, whatever the order in which the
    total of the correction step was added up. *)
Lemma month_sum (cl : list bool) (T : F64.float) :
  length cl = D -> (D <= 31)%nat -> (Pass.run_len cl < D)%nat ->
  F64.sums_to (Month.percentage cl) T ->
  exists v,
    F64.exact_sum (Month.correct_with T (Month.percentage cl)) = Some v /\
    F64.within_1e9_of_one v.
Proof.
  intros H H31 Hk HT.
  destruct (exact_sum_pass cl) as (v & Hv & Hb); [lia|].
  rewrite <- (percentage_is_pass cl H) in Hv. rewrite H in Hb.
  assert (HU : 0 <= F64.unit_one) by (unfold F64.unit_one; lia).
  unfold F64.within_1e9_of_one.
  destruct (Nat.eq_dec (Pass.run_len cl) 0) as [E|E].
  - destruct (month_full cl T H E HT) as (_ & _ & ->).
    exists v. split; [exact Hv|].
    rewrite E, Nat.sub_0_r in Hb.
    apply (scale_bound (Z.of_nat D) _ _ (Z.of_nat D)); [lia|lia|lia|].
    rewrite Z.mul_sub_distr_l. lia.
  - destruct (month_partial cl T H) as (_ & _ & c1 & rest & EP & EM & Hc1 & Hadj);
      [lia|exact HT|].
    rewrite EP, exact_sum_zeros in Hv. rewrite EM, exact_sum_zeros.
    cbn [F64.exact_sum] in Hv |- *.
    unfold adjust_ok in Hadj. apply andb_true_iff in Hadj.
    destruct Hadj as [_ Hadj].
    destruct (F64.units (Pass.W D c1 + (F64.one - T))%f64)
      as [a'|]; [|discriminate].
    destruct (F64.units (Pass.W D c1)) as [a|]; [|discriminate].
    destruct (F64.exact_sum rest) as [b|]; [|discriminate].
    inversion Hv; subst v. clear Hv.
    unfold tol_ok in Hadj. apply Z.leb_le in Hadj.
    exists (a' + b). split; [reflexivity|].
    apply (scale_bound (Z.of_nat D) _ _ (Z.of_nat D + 1)); [lia|lia|lia|].
    remember F64.unit_one as U. remember (Z.of_nat D * U) as DU.
    rewrite Nat2Z.inj_sub in Hb by lia.
    rewrite Z.mul_sub_distr_l, Z.mul_add_distr_l.
    rewrite Z.mul_add_distr_l, Z.mul_sub_distr_r in Hb.
    rewrite Z.mul_sub_distr_l in Hadj.
    rewrite <- HeqDU in *. lia.
Qed.

End Month.
End MonthSum.

(** ** Groups of the loop *)

Module GroupFacts.
Import Agg.

Lemma month_final_percentages g :
  map o_percentage (month_final g) = Month.month_percentage (map r_IsClosed g).
Proof.
  unfold month_final.
  assert (Hlen : length (Month.month_percentage (map r_IsClosed g)) = length g)
    by (rewrite MonthFacts.month_percentage_length; apply length_map).
  revert Hlen. generalize (Month.month_percentage (map r_IsClosed g)).
  induction g as [|r g IH]; intros [|p l] Hlen; simpl in *;
    try reflexivity; try discriminate.
  f_equal. apply IH. lia.
Qed.

Lemma run_len_open (cl : list bool) (i : nat) :
  nth_error cl i = Some false -> (Pass.run_len cl < length cl)%nat.
Proof.
  revert i. induction cl as [|b cl IH]; intros [|i] H; simpl in *;
    try discriminate.
  - inversion H; subst. lia.
  - destruct b; [|lia]. specialize (IH i H). lia.
Qed.

Lemma first_open_run (cl : list bool) :
  Rule.first_open cl
  = if (Pass.run_len cl <? length cl)%nat then Some (Pass.run_len cl) else None.
Proof.
  induction cl as [|b cl IH]; [reflexivity|].
  destruct b; simpl Rule.first_open; simpl Pass.run_len; simpl length.
  - rewrite IH.
    destruct (Nat.ltb_spec (Pass.run_len cl) (length cl));
      destruct (Nat.ltb_spec (S (Pass.run_len cl)) (S (length cl)));
      try lia; reflexivity.
  - reflexivity.
Qed.

(** The column [IsClosed] of a group of the loop has 1 to 31 rows. *)
Lemma group_column som eom cur periods k g :
  Cal.wf som -> Cal.wf eom ->
  In (k, g) (groupby_month (remaining som eom cur periods)) ->
  (1 <= length (map r_IsClosed g) <= 31)%nat.
Proof.
  intros Ws We Hg. rewrite length_map.
  apply (AggFacts.group_length som eom cur periods k g Ws We Hg).
Qed.

Lemma dev_excl (s : F64.float) :
  Sums.dev_small s = true -> Sums.dev_large s = true -> False.
Proof.
  unfold Sums.dev_small, Sums.dev_large.
  destruct (F64.units s) as [v|]; [|discriminate].
  rewrite Z.leb_le, Z.ltb_lt. lia.
Qed.

(** The three cases of the correction step on a group of the loop. *)
Lemma correction_cases (cl : list bool) :
  (1 <= length cl <= 31)%nat ->
  let pct := Month.percentage cl in
  let total := F64.sum pct in
  match Rule.first_open cl with
  | Some i =>
      (Sums.dev_large total = true /\ F64.isclose total F64.one = false /\
       (0 < i)%nat /\
       Month.month_percentage cl = Month.add_at i (F64.one - total)%f64 pct)
      \/
      (Sums.dev_small total = true /\ F64.isclose total F64.one = true /\
       i = 0%nat /\
       Month.month_percentage cl = pct)
  | None =>
      Month.month_percentage cl = pct /\
      pct = repeat F64.zero (length cl)
  end.
Proof.
  intros Hlen pct total.
  pose proof (SumsFacts.check_month (length cl) Hlen) as HD.
  rewrite first_open_run.
  pose proof (MonthSum.run_len_le cl) as Hrl.
  destruct (Nat.ltb_spec (Pass.run_len cl) (length cl)) as [Hlt|Hge].
  - destruct (Nat.eq_dec (Pass.run_len cl) 0) as [E|E].
    + right.
      destruct (MonthSum.month_full (length cl) HD ltac:(lia) cl total
                                    eq_refl E (MonthSum.sum_sums_to _))
        as (Hc & Hd & Hm).
      repeat split; assumption.
    + left.
      destruct (MonthSum.month_partial (length cl) HD ltac:(lia) cl total
                                       eq_refl ltac:(lia)
                                       (MonthSum.sum_sums_to _))
        as (Hc & Hd & c1 & rest & EP & EM & _ & _).
      repeat split; try assumption; [lia|].
      change (Month.month_percentage cl)
        with (Month.correct_with total (Month.percentage cl)).
      rewrite EM. unfold pct. generalize total. intros T.
      rewrite EP, MonthSum.add_at_zeros. reflexivity.
  - destruct (MonthSum.month_all_closed (length cl) ltac:(lia) cl total
                                        eq_refl ltac:(lia)) as [HP HM].
    split; [|exact HP].
    change (Month.month_percentage cl)
      with (Month.correct_with total (Month.percentage cl)).
    rewrite HM, <- HP. reflexivity.
Qed.

(** Before the correction an open day weighs what the rule gives it. *)
Lemma open_weight_rule (cl : list bool) (i : nat) :
  (1 <= length cl <= 31)%nat ->
  nth_error cl i = Some false ->
  nth_error (Month.percentage cl) i = Some (Rule.open_weight cl i).
Proof.
  intros Hlen Hi.
  rewrite (MonthFacts.percentage_nth cl i false Hi). f_equal.
  assert (Hu : Month.unit_share cl = (F64.one / F64.of_nat (length cl))%f64).
  { unfold Month.unit_share. rewrite MonthFacts.N_plus_C_length; [reflexivity|].
    intros E. rewrite E in Hlen. simpl in Hlen. lia. }
  unfold Rule.open_weight. cbv zeta. rewrite <- Hu.
  rewrite RuleFacts.extra_rule.
  destruct (Nat.eqb_spec (Rule.rolled_count cl i) 0) as [E|_].
  - rewrite E, FloatFacts.mul_zero_r; [reflexivity|].
    rewrite Hu. apply FloatFacts.unit_pos. lia.
  - rewrite FloatFacts.mul_comm. reflexivity.
Qed.

End GroupFacts.

(** ** A month with a single open day *)

Module SingleFacts.

Lemma add_zero_l (x : F64.float) :
  F64.is_pos_finite x = true -> (F64.zero + x)%f64 = x.
Proof.
  destruct x as [sx|sx| |[|] mx ex]; simpl; intros H;
    try discriminate. reflexivity.
Qed.

(** The total of a column with a single weight is that weight. *)
Lemma sum_single (k c : nat) (w : F64.float) :
  F64.is_pos_finite w = true ->
  F64.sum (repeat F64.zero k ++ w :: repeat F64.zero c) = w.
Proof.
  intros Hw. unfold F64.sum. rewrite fold_left_app.
  change (fold_left F64.add (repeat F64.zero k) F64.zero)
    with (F64.sum (repeat F64.zero k)).
  rewrite MonthSum.sum_zeros. cbn [fold_left].
  rewrite (add_zero_l w Hw).
  induction c as [|c IH]; cbn [repeat fold_left]; [reflexivity|].
  rewrite (FloatFacts.add_zero_r w Hw). exact IH.
Qed.

(** With one open day in the column, every other day is closed. *)
Lemma single_open (cl : list bool) :
  forall i, Month.N cl = 1%nat -> nth_error cl i = Some false ->
            forall j, j <> i -> (j < length cl)%nat ->
                      nth_error cl j = Some true.
Proof.
  unfold Month.N.
  induction cl as [|b cl IH]; intros i HN Hi j Hji Hj; simpl in *; [lia|].
  destruct b; simpl in HN.
  - destruct i as [|i]; [discriminate|]. destruct j as [|j]; [reflexivity|].
    simpl in *. apply (IH i HN Hi j); lia.
  - assert (Hnone : forall m x, nth_error cl m = Some x -> x = true).
    { intros m x Hm. destruct x; [reflexivity|].
      assert (Hin : In false (filter negb cl)).
      { apply filter_In. split; [|reflexivity].
        apply (nth_error_In _ _ Hm). }
      destruct (filter negb cl); [destruct Hin|discriminate]. }
    destruct i as [|i].
    + destruct j as [|j]; [congruence|]. simpl.
      destruct (nth_error cl j) as [x|] eqn:E.
      * rewrite (Hnone j x E). reflexivity.
      * apply nth_error_None in E. lia.
    + simpl in Hi. specialize (Hnone i false Hi). discriminate.
Qed.

(** The exact sum of a column that is 0 but at one row. *)
Lemma exact_sum_single (l : list F64.float) :
  forall i w v,
    nth_error l i = Some w ->
    (forall j, j <> i -> (j < length l)%nat -> nth_error l j = Some F64.zero) ->
    F64.exact_sum l = Some v ->
    F64.units w = Some v.
Proof.
  induction l as [|x l IH]; intros i w v Hi Hz Hs; [destruct i; discriminate|].
  simpl in Hs. destruct (F64.units x) as [a|] eqn:Ea; [|discriminate].
  destruct (F64.exact_sum l) as [b|] eqn:Eb; [|discriminate].
  inversion Hs; subst v. clear Hs.
  destruct i as [|i]; simpl in Hi.
  - inversion Hi; subst x. rewrite Ea. f_equal.
    assert (Hb : forall l', (forall j, (j < length l')%nat ->
                                       nth_error l' j = Some F64.zero) ->
                            forall b', F64.exact_sum l' = Some b' -> b' = 0).
    { induction l' as [|y l' IH']; intros Hall b' Hb'; simpl in Hb'.
      - congruence.
      - pose proof (Hall 0%nat ltac:(simpl; lia)) as H0. simpl in H0.
        inversion H0; subst y. simpl in Hb'.
        destruct (F64.exact_sum l') as [c|] eqn:Ec; [|discriminate].
        inversion Hb'; subst b'.
        rewrite (IH' (fun j Hj => Hall (S j) ltac:(simpl; lia)) c eq_refl).
        reflexivity. }
    rewrite (Hb l (fun j Hj => Hz (S j) ltac:(lia) ltac:(simpl; lia)) b Eb).
    lia.
  - pose proof (Hz 0%nat ltac:(lia) ltac:(simpl; lia)) as H0. simpl in H0.
    inversion H0; subst x. simpl in Ea. inversion Ea; subst a.
    rewrite (IH i w b Hi); [reflexivity| |reflexivity].
    intros j Hji Hj. apply (Hz (S j)); simpl; lia.
Qed.

Lemma run_len_first (cl : list bool) :
  forall i, (forall j, (j < i)%nat -> nth_error cl j = Some true) ->
            nth_error cl i = Some false -> Pass.run_len cl = i.
Proof.
  induction cl as [|b cl IH]; intros i Hbefore Hi; [destruct i; discriminate|].
  destruct i as [|i]; simpl in Hi.
  - inversion Hi; subst b. reflexivity.
  - pose proof (Hbefore 0%nat ltac:(lia)) as H0. simpl in H0.
    inversion H0; subst b. simpl. f_equal. apply IH; [|exact Hi].
    intros j Hj. apply (Hbefore (S j)). lia.
Qed.

Lemma nth_error_zeros_skip {A} (z : A) (k : nat) (w : A) (rest : list A) (j : nat) :
  nth_error (repeat z k ++ w :: rest) (k + 1 + j) = nth_error rest j.
Proof.
  induction k as [|k IH]; simpl; [reflexivity|exact IH].
Qed.

Lemma nth_error_zeros_at {A} (z : A) (k : nat) (w : A) (rest : list A) :
  nth_error (repeat z k ++ w :: rest) k = Some w.
Proof.
  induction k as [|k IH]; simpl; [reflexivity|exact IH].
Qed.

(** A month with a single open day. *)
Lemma single_open_weight (cl : list bool) (i : nat) :
  (1 <= length cl <= 31)%nat ->
  Month.N cl = 1%nat -> nth_error cl i = Some false ->
  exists w v,
    nth_error (Month.month_percentage cl) i = Some w /\
    F64.units w = Some v /\ F64.within_1e9_of_one v /\
    ((0 < i)%nat -> w = F64.one) /\
    (forall j, j <> i -> (j < length cl)%nat ->
               nth_error (Month.month_percentage cl) j = Some F64.zero).
Proof.
  intros Hlen HN Hi.
  pose proof (SumsFacts.check_month (length cl) Hlen) as HD.
  pose proof (single_open cl i HN Hi) as Hclosed.
  assert (Hothers : forall j, j <> i -> (j < length cl)%nat ->
                              nth_error (Month.month_percentage cl) j
                              = Some F64.zero).
  { intros j Hji Hj. apply MonthFacts.month_closed_zero. auto. }
  assert (Hil : (i < length cl)%nat).
  { apply nth_error_Some. congruence. }
  assert (Hk : Pass.run_len cl = i).
  { apply run_len_first; [|exact Hi]. intros j Hj. apply Hclosed; lia. }
  destruct (nth_error (Month.month_percentage cl) i) as [w|] eqn:Ew.
  2:{ apply nth_error_None in Ew.
      rewrite MonthFacts.month_percentage_length in Ew. lia. }
  destruct (MonthSum.month_sum (length cl) HD ltac:(lia) cl
                               (F64.sum (Month.percentage cl)) eq_refl
                               ltac:(lia) ltac:(lia)
                               (MonthSum.sum_sums_to _))
    as (v & Hv & Hnear).
  exists w, v. split; [reflexivity|]. split.
  { apply (exact_sum_single (Month.month_percentage cl) i w v Ew); [|exact Hv].
    intros j Hji Hj. rewrite MonthFacts.month_percentage_length in Hj. auto. }
  split; [exact Hnear|]. split; [|exact Hothers].
  intros Hpos.
  destruct (MonthSum.month_partial (length cl) HD ltac:(lia) cl
                                   (F64.sum (Month.percentage cl)) eq_refl
                                   ltac:(lia) (MonthSum.sum_sums_to _))
    as (_ & _ & c1 & rest & EP & EM & Hc1 & _).
  change (Month.month_percentage cl)
    with (Month.correct_with (F64.sum (Month.percentage cl))
                             (Month.percentage cl)) in Ew.
  rewrite Hk in EP, EM, Hc1.
  assert (Hrest : rest = repeat F64.zero (length rest)).
  { apply Forall_eq_repeat. apply Forall_forall. intros x Hx.
    apply In_nth_error in Hx. destruct Hx as [j Hj].
    assert (Hjl : (j < length rest)%nat) by (apply nth_error_Some; congruence).
    assert (Hlen' : length (Month.percentage cl) = length cl)
      by apply MonthFacts.percentage_length.
    rewrite EP, length_app, repeat_length in Hlen'. simpl in Hlen'.
    pose proof (MonthFacts.percentage_nth cl (i + 1 + j) true
                  (Hclosed (i + 1 + j)%nat ltac:(lia) ltac:(lia))) as Hp.
    rewrite EP, nth_error_zeros_skip, Hj in Hp. congruence. }
  assert (Hw : F64.is_pos_finite (Pass.W (length cl) c1) = true)
    by (apply (MonthSum.weight_pos (length cl) HD); lia).
  assert (HT : F64.sum (Month.percentage cl) = Pass.W (length cl) c1).
  { rewrite EP, Hrest. apply sum_single. exact Hw. }
  rewrite EM, HT, nth_error_zeros_at in Ew. inversion Ew; subst w.
  pose proof (SumsFacts.single_month (length cl) Hlen) as Hs.
  unfold Sums.single_ok in Hs. rewrite forallb_forall in Hs.
  apply SumsFacts.same_eq. apply (Hs c1). apply in_seq. lia.
Qed.

End SingleFacts.

(** * The claims *)

Section Claims.

Import Agg.

(** Checks that a concrete triple is a calendar date. *)
Ltac calendar_date :=
  unfold Cal.valid, Cal.wf; simpl;
  repeat split; apply Z.leb_le; reflexivity.



(** C6.  Every day that falls within a closed period has weight
    exactly 0 in the output, whatever the range and the periods. *)
Theorem C6_closed_days_weigh_zero som eom cur periods out o :
  final_df som eom cur periods = Some out ->
  In o out ->
  is_closed (o_date o) periods = true ->
  o_percentage o = F64.zero.
Proof.
  intros Hout Ho Hclosed.
  destruct (AggFacts.In_final_df _ _ _ _ _ _ Hout Ho) as (k & g & Hg & Hog).
  destruct (AggFacts.In_month_final _ _ Hog) as (i & r & p & Hr & Hp & ->).
  simpl in *.
  assert (Hrc : r_IsClosed r = true).
  { rewrite (AggFacts.remaining_IsClosed som eom cur periods r); [exact Hclosed|].
    apply (AggFacts.groupby_month_In _ _ _ _ Hg).
    apply (nth_error_In _ _ Hr). }
  assert (Hi : nth_error (map r_IsClosed g) i = Some true).
  { rewrite nth_error_map, Hr. simpl. congruence. }
  rewrite (MonthFacts.month_closed_zero _ _ Hi) in Hp. congruence.
Qed.

Lemma C6_witness :
  o_percentage (nth 12 Sample.output (mkOutRow fair_share Sample.today F64.one))
  = F64.zero.
Proof.
  apply (C6_closed_days_weigh_zero
           (Cal.replace_day1 Sample.today) (end_of_end_month 2024 2)
           Sample.today Sample.closed_periods Sample.output).
  - vm_compute. reflexivity.
  - apply nth_In. vm_compute. lia.
  - vm_compute. reflexivity.
Defined.



(** The range check of the block: nothing is built when the range
    ends before its first day. *)
Lemma final_df_guard som eom cur periods :
  Cal.ltb eom som = true -> final_df som eom cur periods = None.
Proof.
  unfold Cal.ltb, final_df. intros H. apply negb_true_iff in H.
  rewrite H. reflexivity.
Qed.

(** C9.  When the end of the range is before its start (today), the
    block is skipped: no output table is built at all. *)
Theorem C9_inverted_range_no_output cur ey em periods :
  Cal.valid cur ->
  Cal.ltb (end_of_end_month ey em) cur = true ->
  allocate cur ey em periods = None.
Proof.
  intros (_ & _ & Hd) H. unfold allocate. apply final_df_guard.
  unfold Cal.ltb in *. apply negb_true_iff in H. apply negb_true_iff.
  apply CalFacts.leb_false_spec in H. apply CalFacts.leb_false_spec.
  simpl in *.
  destruct H as [Hy|(Hy & [Hm|(Hm & Hlt)])]; [lia|lia|].
  rewrite Hy, Hm in Hd. lia.
Qed.

Lemma C9_witness :
  allocate Sample.today 2023 12 Sample.closed_periods = None.
Proof.
  apply C9_inverted_range_no_output.
  - calendar_date.
  - reflexivity.
Defined.

(** C10.  Every group of the monthly loop has at least one row, so
    [N + C >= 1], the guard takes its first branch
    ([N_plus_C = N + C]), and the divisor of [1 / N_plus_C] is not
    zero, neither as an integer nor as a float. *)
Theorem C10_divisor_never_zero som eom cur periods k g :
  Cal.wf som -> Cal.wf eom ->
  In (k, g) (groupby_month (remaining som eom cur periods)) ->
  let IsClosed := map r_IsClosed g in
  g <> [] /\
  (1 <= Month.N IsClosed + Month.C IsClosed)%nat /\
  (0 <? Month.N IsClosed + Month.C IsClosed)%nat = true /\
  Month.N_plus_C IsClosed = (Month.N IsClosed + Month.C IsClosed)%nat /\
  Month.N_plus_C IsClosed <> 0%nat /\
  F64.is_pos_finite (F64.of_nat (Month.N_plus_C IsClosed)) = true.
Proof.
  intros Ws We Hg IsClosed.
  pose proof (AggFacts.group_length _ _ _ _ _ _ Ws We Hg) as Hlen.
  destruct (AggFacts.groupby_month_group _ _ _ Hg) as [_ Hne].
  assert (HNC : (Month.N IsClosed + Month.C IsClosed = length g)%nat).
  { rewrite MonthFacts.N_C_length. apply length_map. }
  assert (Hnpc : Month.N_plus_C IsClosed = length g).
  { rewrite MonthFacts.N_plus_C_length; [apply length_map|].
    unfold IsClosed. destruct g; [congruence|discriminate]. }
  split; [exact Hne|]. split; [lia|]. split; [apply Nat.ltb_lt; lia|].
  split; [lia|]. split; [lia|].
  rewrite Hnpc. apply FloatFacts.of_nat_pos. exact Hlen.
Qed.

Lemma C10_witness :
  Month.N_plus_C
    (map r_IsClosed
         (filter (fun r => key r =? 649)
                 (remaining (Cal.replace_day1 Sample.today)
                            (end_of_end_month 2024 2)
                            Sample.today Sample.closed_periods)))
  <> 0%nat.
Proof.
  apply (C10_divisor_never_zero
           (Cal.replace_day1 Sample.today) (end_of_end_month 2024 2)
           Sample.today Sample.closed_periods 649).
  - calendar_date.
  - calendar_date.
  - vm_compute. right. left. reflexivity.
Defined.

(** C2.  In every month group, before the rounding correction, an
    open day weighs [u + u * c], where [u = 1 / D], [D] is the number
    of days of the group and [c] the number of closed days of the group
    whose nearest preceding open day it is. *)
Theorem C2_open_day_weight som eom cur periods k g i r :
  Cal.wf som -> Cal.wf eom ->
  In (k, g) (groupby_month (remaining som eom cur periods)) ->
  nth_error g i = Some r ->
  r_IsClosed r = false ->
  nth_error (Month.percentage (map r_IsClosed g)) i
  = Some (Rule.open_weight (map r_IsClosed g) i).
Proof.
  intros Ws We Hg Hr Hopen.
  apply GroupFacts.open_weight_rule.
  - apply (GroupFacts.group_column _ _ _ _ _ _ Ws We Hg).
  - rewrite nth_error_map, Hr. simpl. congruence.
Qed.

Lemma C2_witness :
  let g := filter (fun r => key r =? 649)
                  (remaining (Cal.replace_day1 Sample.today)
                             (end_of_end_month 2024 2)
                             Sample.today Sample.closed_periods) in
  nth_error (Month.percentage (map r_IsClosed g)) 8
  = Some (Rule.open_weight (map r_IsClosed g) 8).
Proof.
  intros g.
  apply (C2_open_day_weight
           (Cal.replace_day1 Sample.today) (end_of_end_month 2024 2)
           Sample.today Sample.closed_periods 649 g 8
           (mkRow (mkDate 2024 2 9) false true)).
  - calendar_date.
  - calendar_date.
  - vm_compute. right. left. reflexivity.
  - reflexivity.
  - reflexivity.
Defined.











(** The month of the specification: 28 days, the 15th open. *)
Example single_open_day_15 :
  map o_percentage (month_final Sample.mid_frame)
  = repeat F64.zero 14 ++ F64.one :: repeat F64.zero 13.
Proof. vm_compute. reflexivity. Qed.

End Claims.

(** * Further properties *)

(** ** The month selector *)

Module OptionsFacts.
Import Options.

Lemma date_new_Some y m d r :
  date_new y m d = Some r <-> (Cal.valid (mkDate y m d) /\ r = mkDate y m d).
Proof.
  unfold date_new, Cal.valid. simpl.
  destruct ((1 <=? y) && (y <=? 9999) && (1 <=? m) && (m <=? 12) &&
            (1 <=? d) && (d <=? Cal.days_in_month y m)) eqn:E.
  - repeat (apply andb_true_iff in E; destruct E as [E ?]).
    split; [intros Hs; inversion Hs; subst; split; [lia|reflexivity]|].
    intros [_ ->]. reflexivity.
  - split; [discriminate|]. intros [H _]. exfalso.
    repeat (apply andb_false_iff in E; destruct E as [E|E]); lia.
Qed.

Lemma date_new_None y m d :
  date_new y m d = None <-> ~ Cal.valid (mkDate y m d).
Proof.
  destruct (date_new y m d) as [r|] eqn:E.
  - apply date_new_Some in E. destruct E as [H _].
    split; [discriminate|]. intros Hn. contradiction.
  - split; [|reflexivity]. intros _ Hv.
    assert (H : date_new y m d = Some (mkDate y m d))
      by (apply date_new_Some; split; [exact Hv|reflexivity]).
    congruence.
Qed.

(** The year and the month [add_months] arrives at. *)
Lemma target_month y m n :
  let month0 := m - 1 + n in
  let y' := y + month0 / 12 in
  let m' := month0 mod 12 + 1 in
  1 <= m' <= 12 /\ 12 * y' + m' = 12 * y + m + n.
Proof. cbv zeta. Z.to_euclidean_division_equations. lia. Qed.

Lemma add_months_Some d n r :
  Cal.valid d -> add_months d n = Some r ->
  Cal.valid r /\ month_index r = month_index d + n /\
  day r = Z.min (day d) (Cal.days_in_month (year r) (month r)).
Proof.
  intros Hv H. unfold add_months in H. apply date_new_Some in H.
  destruct H as [Hr ->]. split; [exact Hr|].
  unfold month_index. cbn [year month day].
  split; [apply (target_month (year d) (month d) n)|reflexivity].
Qed.

Lemma add_months_None d n :
  Cal.valid d ->
  (add_months d n = None <-> ~ (13 <= month_index d + n <= 120000)).
Proof.
  intros (Hy & Hm & Hd). unfold add_months. rewrite date_new_None.
  unfold Cal.valid, month_index. cbn [year month day].
  pose proof (target_month (year d) (month d) n) as [Hm' Hi].
  cbv zeta in Hm', Hi.
  set (y' := year d + (month d - 1 + n) / 12) in *.
  set (m' := (month d - 1 + n) mod 12 + 1) in *.
  pose proof (CalFacts.days_in_month_bounds y' m') as Hb.
  clearbody y' m'.
  split; intros H; [intros Hr; apply H|intros Hr; apply H]; lia.
Qed.

(** Two dates of the same month index are of the same month. *)
Lemma month_index_inj y1 m1 y2 m2 :
  1 <= m1 <= 12 -> 1 <= m2 <= 12 -> 12 * y1 + m1 = 12 * y2 + m2 ->
  y1 = y2 /\ m1 = m2.
Proof. lia. Qed.

Lemma add_months_eq d1 d2 n1 n2 :
  1 <= month d1 <= 12 -> 1 <= month d2 <= 12 ->
  month_index d1 + n1 = month_index d2 + n2 -> day d1 = day d2 ->
  add_months d1 n1 = add_months d2 n2.
Proof.
  intros H1 H2 Hi Hd. unfold add_months.
  pose proof (target_month (year d1) (month d1) n1) as [Ha Ea].
  pose proof (target_month (year d2) (month d2) n2) as [Hb Eb].
  cbv zeta in *. unfold month_index in Hi.
  destruct (month_index_inj (year d1 + (month d1 - 1 + n1) / 12) _
                            (year d2 + (month d2 - 1 + n2) / 12) _ Ha Hb)
    as [Ey Em]; [lia|].
  rewrite Ey, Em, Hd. reflexivity.
Qed.


(** Composition: for a day every month has, adding months twice is
    adding the sum. *)
Lemma add_months_add d a b d1 :
  Cal.valid d -> day d <= 28 -> add_months d a = Some d1 ->
  add_months d1 b = add_months d (a + b).
Proof.
  intros Hv H28 H1.
  destruct (add_months_Some d a d1 Hv H1) as (Hv1 & Hi & Hd).
  pose proof (CalFacts.days_in_month_bounds (year d1) (month d1)) as Hb.
  destruct Hv as (_ & Hm & _). destruct Hv1 as (_ & Hm1 & _).
  apply add_months_eq; [exact Hm1|exact Hm|lia|lia].
Qed.

Lemma add_months_0 d : Cal.valid d -> add_months d 0 = Some d.
Proof.
  intros (Hy & Hm & Hd). unfold add_months.
  replace ((month d - 1 + 0) / 12) with 0
    by (Z.to_euclidean_division_equations; lia).
  replace ((month d - 1 + 0) mod 12 + 1) with (month d)
    by (Z.to_euclidean_division_equations; lia).
  rewrite Z.add_0_r, Z.min_l by lia.
  apply date_new_Some. split; [|destruct d; reflexivity].
  repeat split; cbn [year month day]; lia.
Qed.

(** *** Digits *)

Lemma digit_value_digit n : digit_value (digit n) = Some (n mod 10).
Proof.
  unfold digit_value, digit.
  assert (H : 0 <= n mod 10 < 10) by (apply Z.mod_pos_bound; lia).
  rewrite Ascii.nat_ascii_embedding by lia.
  rewrite Nat2Z.inj_add, Z2Nat.id by lia. simpl Z.of_nat.
  destruct (Z.leb_spec 48 (48 + n mod 10)); [|lia].
  destruct (Z.leb_spec (48 + n mod 10) 57); [|lia].
  cbn [andb]. f_equal. lia.
Qed.

Lemma digit_not_dash n : Ascii.eqb (digit n) dash = false.
Proof.
  apply Ascii.eqb_neq. intros E.
  assert (H : 0 <= n mod 10 < 10) by (apply Z.mod_pos_bound; lia).
  apply (f_equal Ascii.nat_of_ascii) in E. unfold digit, dash in E.
  rewrite !Ascii.nat_ascii_embedding in E by lia. lia.
Qed.

Lemma dash_is_dash : Ascii.eqb dash dash = true.
Proof. apply Ascii.eqb_refl. Qed.

(** Reading a month option back gives the year and the month. *)
Lemma parse_strftime d :
  0 <= year d <= 9999 -> 0 <= month d <= 99 ->
  parse_selected (strftime_Ym d) = Some (year d, month d).
Proof.
  intros Hy Hm. unfold parse_selected, strftime_Ym, split_dash.
  repeat (cbn [split_dash_aux String.append];
          first [rewrite digit_not_dash|rewrite dash_is_dash]).
  cbn [split_dash_aux String.append].
  unfold int. cbn [int_digits]. rewrite !digit_value_digit.
  cbn [int_digits].
  f_equal. f_equal; Z.to_euclidean_division_equations; lia.
Qed.


(** *** The options *)

Lemma options_from_Some start n :
  forall i opts,
    options_from start i n = Some opts ->
    length opts = n /\
    forall k, (k < n)%nat ->
              exists r, add_months start (i + Z.of_nat k) = Some r /\
                        nth_error opts k = Some (strftime_Ym r).
Proof.
  induction n as [|n IH]; intros i opts H; simpl in H.
  - inversion H; subst. split; [reflexivity|]. intros k Hk. lia.
  - destruct (add_months start i) as [r|] eqn:Er; [|discriminate].
    destruct (options_from start (i + 1) n) as [o|] eqn:Eo; [|discriminate].
    inversion H; subst. destruct (IH _ _ Eo) as [Hl Hn].
    split; [simpl; congruence|]. intros [|k] Hk.
    + exists r. rewrite Z.add_0_r. split; [exact Er|reflexivity].
    + destruct (Hn k ltac:(lia)) as (r' & Hr' & Hk').
      exists r'. split; [|exact Hk'].
      rewrite <- Hr'. f_equal. lia.
Qed.

Lemma options_from_None start n :
  forall i,
    options_from start i n = None <->
    exists k, (k < n)%nat /\ add_months start (i + Z.of_nat k) = None.
Proof.
  induction n as [|n IH]; intros i; simpl.
  - split; [discriminate|]. intros (k & Hk & _). lia.
  - destruct (add_months start i) as [r|] eqn:Er.
    + destruct (options_from start (i + 1) n) as [o|] eqn:Eo.
      * split; [discriminate|]. intros ([|k] & Hk & Hn).
        -- rewrite Z.add_0_r in Hn. congruence.
        -- assert (Hx : options_from start (i + 1) n = None).
           { apply IH. exists k. split; [lia|].
             rewrite <- Hn. f_equal. lia. }
           congruence.
      * split; [|reflexivity]. intros _.
        apply IH in Eo. destruct Eo as (k & Hk & Hn).
        exists (S k). split; [lia|]. rewrite <- Hn. f_equal. lia.
    + split; [|reflexivity]. intros _. exists 0%nat.
      split; [lia|]. rewrite Z.add_0_r. exact Er.
Qed.

Lemma valid_replace_day1 d : Cal.valid d -> Cal.valid (Cal.replace_day1 d).
Proof.
  intros (Hy & Hm & Hd).
  repeat split; cbn [year month day Cal.replace_day1]; lia.
Qed.

(** A later month ends after every day of an earlier one. *)
Lemma leb_month_end d y m :
  Cal.valid d -> 1 <= m <= 12 -> month_index d <= 12 * y + m ->
  Cal.leb d (Agg.end_of_end_month y m) = true.
Proof.
  intros (Hy & Hm & Hd) Hm' Hi. unfold month_index in Hi.
  apply CalFacts.leb_spec. unfold Agg.end_of_end_month.
  cbn [year month day].
  destruct (Z.lt_trichotomy (year d) y) as [H|[H|H]]; [lia| |lia].
  right. split; [exact H|].
  destruct (Z.lt_trichotomy (month d) m) as [H'|[H'|H']]; [lia| |lia].
  right. split; [exact H'|]. subst. lia.
Qed.

End OptionsFacts.

(** ** Sorting *)

Module SortFacts.
Import Holidays.

Lemma insert_by_perm {A} (le : A -> A -> bool) (x : A) (l : list A) :
  Permutation (insert_by le x l) (x :: l).
Proof.
  induction l as [|y l IH]; simpl; [reflexivity|].
  destruct (le x y); [reflexivity|].
  rewrite IH. apply perm_swap.
Qed.

Lemma sorted_by_perm {A} (le : A -> A -> bool) (l : list A) :
  Permutation (sorted_by le l) l.
Proof.
  induction l as [|x l IH]; simpl; [reflexivity|].
  rewrite insert_by_perm. apply perm_skip. exact IH.
Qed.

Lemma insert_by_sorted {A} (le : A -> A -> bool) (x : A) (l : list A) :
  (forall a b, le a b = false -> le b a = true) ->
  (forall a b c, le a b = true -> le b c = true -> le a c = true) ->
  StronglySorted (fun a b => le a b = true) l ->
  StronglySorted (fun a b => le a b = true) (insert_by le x l).
Proof.
  intros Htot Htr. induction 1 as [|y l Hs IH Hy]; simpl.
  - constructor; constructor.
  - destruct (le x y) eqn:E.
    + constructor; [constructor; assumption|].
      constructor; [exact E|].
      rewrite Forall_forall in *. intros z Hz. apply (Htr x y z E). auto.
    + constructor; [exact IH|].
      rewrite Forall_forall in *. intros z Hz.
      apply (Permutation_in _ (insert_by_perm le x l)) in Hz.
      destruct Hz as [<-|Hz]; [apply Htot; exact E|auto].
Qed.

Lemma sorted_by_sorted {A} (le : A -> A -> bool) (l : list A) :
  (forall a b, le a b = false -> le b a = true) ->
  (forall a b c, le a b = true -> le b c = true -> le a c = true) ->
  StronglySorted (fun a b => le a b = true) (sorted_by le l).
Proof.
  intros Htot Htr. induction l as [|x l IH]; simpl; [constructor|].
  apply insert_by_sorted; assumption.
Qed.

(** *** [sorted(set(l))] *)

Lemma In_insert_label x y l :
  In x (insert_label y l) <-> x = y \/ In x l.
Proof.
  induction l as [|z l IH]; simpl; [intuition congruence|].
  destruct (String.compare y z) eqn:E; simpl.
  - apply String.compare_eq_iff in E. subst. intuition congruence.
  - intuition congruence.
  - rewrite IH. intuition congruence.
Qed.

Lemma In_sorted_set x l : In x (sorted_set l) <-> In x l.
Proof.
  induction l as [|y l IH]; simpl; [tauto|].
  rewrite In_insert_label, IH. split; intros [H|H]; auto.
Qed.

Lemma insert_label_sorted x l :
  Sorted (fun a b => String.compare a b = Lt) l ->
  Sorted (fun a b => String.compare a b = Lt) (insert_label x l).
Proof.
  induction 1 as [|y l Hs IH Hy]; simpl.
  - constructor; constructor.
  - destruct (String.compare x y) eqn:E.
    + constructor; assumption.
    + constructor; [constructor; assumption|]. constructor. exact E.
    + constructor; [exact IH|].
      assert (Hyx : String.compare y x = Lt).
      { rewrite String.compare_antisym, E. reflexivity. }
      destruct l as [|z l]; simpl.
      * constructor. exact Hyx.
      * destruct (String.compare x z); constructor;
          try exact Hyx; inversion Hy; assumption.
Qed.

Lemma sorted_set_sorted l :
  Sorted (fun a b => String.compare a b = Lt) (sorted_set l).
Proof.
  induction l as [|x l IH]; simpl; [constructor|].
  apply insert_label_sorted. exact IH.
Qed.

End SortFacts.

(** ** Dates, once more *)

Module DateFacts.
Import Holidays.

Lemma date_eqb_eq d1 d2 : date_eqb d1 d2 = true <-> d1 = d2.
Proof.
  unfold date_eqb. split.
  - intros H. apply andb_true_iff in H. destruct H as [H H3].
    apply andb_true_iff in H. destruct H as [H1 H2].
    apply CalFacts.date_eq; apply Z.eqb_eq; assumption.
  - intros ->. rewrite !Z.eqb_refl. reflexivity.
Qed.

Lemma leb_total d1 d2 : Cal.leb d1 d2 = false -> Cal.leb d2 d1 = true.
Proof.
  intros H. apply CalFacts.leb_false_spec in H.
  apply CalFacts.leb_spec. lia.
Qed.

Lemma leb_trans d1 d2 d3 :
  Cal.leb d1 d2 = true -> Cal.leb d2 d3 = true -> Cal.leb d1 d3 = true.
Proof.
  intros H1 H2. apply CalFacts.leb_spec in H1, H2.
  apply CalFacts.leb_spec. lia.
Qed.

Lemma toordinal_inj d1 d2 :
  Cal.wf d1 -> Cal.wf d2 -> Cal.toordinal d1 = Cal.toordinal d2 -> d1 = d2.
Proof.
  intros W1 W2 E.
  apply CalFacts.leb_antisym; apply CalFacts.leb_toordinal; auto; lia.
Qed.

End DateFacts.

(** ** The periods of [group_consecutive_dates] *)

Module PeriodFacts.
Import Holidays Agg.

Lemma is_closed_app d ps qs :
  is_closed d (ps ++ qs) = is_closed d ps || is_closed d qs.
Proof. unfold is_closed. apply existsb_app. Qed.

Lemma in_period s e d :
  Cal.wf s -> Cal.wf e -> Cal.wf d ->
  (Cal.leb s d && Cal.leb d e = true <->
   Cal.toordinal s <= Cal.toordinal d <= Cal.toordinal e).
Proof.
  intros Ws We Wd. rewrite andb_true_iff.
  rewrite (CalFacts.leb_toordinal s d Ws Wd).
  rewrite (CalFacts.leb_toordinal d e Wd We). tauto.
Qed.

(** The loop returns what was grouped before followed by [runs]. *)
Lemma group_loop_runs rest :
  forall grouped s e hs ps,
    group_loop rest grouped s e hs = Some ps ->
    ps = grouped ++ runs rest s e hs.
Proof.
  induction rest as [|c rest IH]; intros grouped s e hs ps H; simpl in H.
  - inversion H. reflexivity.
  - unfold plus_one_day in H.
    destruct (year (Cal.next_day e) <=? 9999); [|discriminate].
    simpl. destruct (date_eqb (h_date c) (Cal.next_day e)).
    + apply IH in H. exact H.
    + apply IH in H. rewrite <- app_assoc in H. exact H.
Qed.

(** It returns when no day after [date.max] is asked for. *)
Lemma group_loop_total rest :
  forall grouped s e hs,
    year (Cal.next_day e) <= 9999 ->
    Forall (fun h => year (Cal.next_day (h_date h)) <= 9999) rest ->
    group_loop rest grouped s e hs = Some (grouped ++ runs rest s e hs).
Proof.
  induction rest as [|c rest IH]; intros grouped s e hs He Hr; simpl.
  - reflexivity.
  - inversion Hr as [|c' r' Hc Hr']; subst.
    unfold plus_one_day.
    destruct (Z.leb_spec (year (Cal.next_day e)) 9999) as [_|]; [|lia].
    destruct (date_eqb (h_date c) (Cal.next_day e)).
    + apply IH; assumption.
    + rewrite IH by assumption. rewrite <- app_assoc. reflexivity.
Qed.

(** The days the periods close. *)
Lemma runs_cover rest :
  forall s e hs d,
    Cal.wf s -> Cal.wf e -> Cal.wf d ->
    Cal.toordinal s <= Cal.toordinal e ->
    Forall (fun h => Cal.wf (h_date h)) rest ->
    (is_closed d (runs rest s e hs) = true <->
     Cal.toordinal s <= Cal.toordinal d <= Cal.toordinal e \/
     exists h, In h rest /\ h_date h = d).
Proof.
  induction rest as [|c rest IH]; intros s e hs d Ws We Wd Hse Hr.
  - simpl. rewrite orb_false_r, (in_period s e d Ws We Wd).
    split; [auto|]. intros [H|(h & [] & _)]. exact H.
  - inversion Hr as [|c' r' Wc Hr']; subst. cbn [runs].
    pose proof (CalFacts.toordinal_next_day e We) as Hn.
    destruct (date_eqb (h_date c) (Cal.next_day e)) eqn:E.
    + apply DateFacts.date_eqb_eq in E.
      assert (Hc : Cal.toordinal (h_date c) = Cal.toordinal e + 1)
        by (rewrite E; exact Hn).
      rewrite (IH s (h_date c) _ d Ws Wc Wd ltac:(lia) Hr').
      rewrite Hc. split.
      * intros [H|(h & Hh & Hd)]; [|right; exists h; split; [right|]; auto].
        destruct (Z.eq_dec (Cal.toordinal d) (Cal.toordinal e + 1)) as [Ed|Ed];
          [|left; lia].
        right. exists c. split; [left; reflexivity|].
        apply DateFacts.toordinal_inj; auto. lia.
      * intros [H|(h & [<-|Hh] & Hd)].
        -- left. lia.
        -- left. rewrite <- Hd, Hc. lia.
        -- right. exists h. auto.
    + cbn [is_closed existsb].
      fold (is_closed d (runs rest (h_date c) (h_date c) [label c])).
      cbn [close_period p_start p_end].
      rewrite orb_true_iff, (in_period s e d Ws We Wd).
      rewrite (IH (h_date c) (h_date c) _ d Wc Wc Wd ltac:(lia) Hr').
      split.
      * intros [H|[H|(h & Hh & Hd)]];
          [left; exact H| |right; exists h; split; [right|]; auto].
        right. exists c. split; [left; reflexivity|].
        apply DateFacts.toordinal_inj; auto. lia.
      * intros [H|(h & [<-|Hh] & Hd)]; [left; exact H| |].
        -- right. left. rewrite Hd. lia.
        -- right. right. exists h. auto.
Qed.

(** The days of the periods are as many as the entries. *)
Lemma runs_days rest :
  forall s e hs,
    Cal.wf e -> Forall (fun h => Cal.wf (h_date h)) rest ->
    total_days (runs rest s e hs)
    = Cal.toordinal e - Cal.toordinal s + 1 + Z.of_nat (length rest).
Proof.
  induction rest as [|c rest IH]; intros s e hs We Hr.
  - simpl. unfold period_days. simpl. lia.
  - inversion Hr as [|c' r' Wc Hr']; subst. cbn [runs].
    pose proof (CalFacts.toordinal_next_day e We) as Hn.
    destruct (date_eqb (h_date c) (Cal.next_day e)) eqn:E.
    + apply DateFacts.date_eqb_eq in E.
      rewrite (IH s (h_date c) _ Wc Hr'). rewrite E, Hn.
      cbn [length]. lia.
    + cbn [total_days fold_right].
      fold (total_days (runs rest (h_date c) (h_date c) [label c])).
      rewrite (IH _ _ _ Wc Hr'). unfold period_days.
      cbn [close_period p_start p_end length]. lia.
Qed.

(** Every period starts on or before the day it ends. *)
Lemma runs_ordered rest :
  forall s e hs,
    Cal.wf e -> Cal.toordinal s <= Cal.toordinal e ->
    Forall (fun h => Cal.wf (h_date h)) rest ->
    Forall (fun p => Cal.toordinal (p_start p) <= Cal.toordinal (p_end p))
           (runs rest s e hs).
Proof.
  induction rest as [|c rest IH]; intros s e hs We Hse Hr.
  - simpl. constructor; [exact Hse|constructor].
  - inversion Hr as [|c' r' Wc Hr']; subst. cbn [runs].
    pose proof (CalFacts.toordinal_next_day e We) as Hn.
    destruct (date_eqb (h_date c) (Cal.next_day e)) eqn:E.
    + apply DateFacts.date_eqb_eq in E.
      apply IH; [exact Wc| |exact Hr']. rewrite E, Hn. lia.
    + constructor; [exact Hse|]. apply IH; [exact Wc|lia|exact Hr'].
Qed.


(** With entries of distinct dates, a period ends at least two days
    before the next one starts. *)
Lemma runs_separated rest :
  forall s e hs,
    Cal.wf e -> Cal.toordinal s <= Cal.toordinal e ->
    Forall (fun h => Cal.wf (h_date h)) rest ->
    StronglySorted (fun x y => Cal.toordinal x < Cal.toordinal y)
                   (e :: map h_date rest) ->
    StronglySorted (fun p q => Cal.toordinal (p_end p) + 1
                               < Cal.toordinal (p_start q))
                   (runs rest s e hs) /\
    Forall (fun p => Cal.toordinal s <= Cal.toordinal (p_start p))
           (runs rest s e hs).
Proof.
  induction rest as [|c rest IH]; intros s e hs We Hse Hr Hs.
  - simpl. split; constructor; try constructor. simpl. lia.
  - inversion Hr as [|c' r' Wc Hr']; subst. cbn [runs].
    apply StronglySorted_inv in Hs. destruct Hs as [Hs Hec].
    cbn [map] in Hs, Hec. apply Forall_inv in Hec.
    pose proof (CalFacts.toordinal_next_day e We) as Hn.
    destruct (date_eqb (h_date c) (Cal.next_day e)) eqn:E.
    + apply IH; [exact Wc|lia|exact Hr'|exact Hs].
    + destruct (IH (h_date c) (h_date c) [label c] Wc ltac:(lia) Hr' Hs)
        as [IH1 IH2].
      assert (Hgap : Cal.toordinal e + 1 < Cal.toordinal (h_date c)).
      { destruct (Z.eq_dec (Cal.toordinal (h_date c)) (Cal.toordinal e + 1))
          as [Eo|Eo]; [|lia].
        exfalso. rewrite <- Hn in Eo.
        apply DateFacts.toordinal_inj in Eo;
          [|exact Wc|apply CalFacts.wf_next_day; exact We].
        apply DateFacts.date_eqb_eq in Eo. congruence. }
      split.
      * constructor; [exact IH1|].
        apply (Forall_impl _ (P := fun p => Cal.toordinal (h_date c)
                                            <= Cal.toordinal (p_start p)));
          [|exact IH2].
        intros q Hq. cbn [close_period p_end]. lia.
      * constructor; [cbn [close_period p_start]; lia|].
        apply (Forall_impl _ (P := fun p => Cal.toordinal (h_date c)
                                            <= Cal.toordinal (p_start p)));
          [|exact IH2].
        intros q Hq. lia.
Qed.

(** The periods start and end on calendar dates. *)
Lemma runs_wf rest :
  forall s e hs,
    Cal.wf s -> Cal.wf e -> Forall (fun h => Cal.wf (h_date h)) rest ->
    Forall (fun p => Cal.wf (p_start p) /\ Cal.wf (p_end p))
           (runs rest s e hs).
Proof.
  induction rest as [|c rest IH]; intros s e hs Ws We Hr.
  - simpl. constructor; [simpl; auto|constructor].
  - inversion Hr as [|c' r' Wc Hr']; subst. cbn [runs].
    destruct (date_eqb (h_date c) (Cal.next_day e)); [apply IH; auto|].
    constructor; [simpl; auto|apply IH; auto].
Qed.

(** No period ends before the end the loop has reached. *)
Lemma runs_end rest :
  forall s e hs,
    Cal.wf e -> Forall (fun h => Cal.wf (h_date h)) rest ->
    StronglySorted (fun x y => Cal.toordinal x <= Cal.toordinal y)
                   (e :: map h_date rest) ->
    Forall (fun p => Cal.toordinal e <= Cal.toordinal (p_end p))
           (runs rest s e hs).
Proof.
  induction rest as [|c rest IH]; intros s e hs We Hr Hs.
  - simpl. constructor; [simpl; lia|constructor].
  - inversion Hr as [|c' r' Wc Hr']; subst. cbn [runs].
    apply StronglySorted_inv in Hs. destruct Hs as [Hs Hec].
    cbn [map] in Hs, Hec. apply Forall_inv in Hec.
    assert (Hw : forall s' hs',
               Forall (fun p => Cal.toordinal e <= Cal.toordinal (p_end p))
                      (runs rest s' (h_date c) hs')).
    { intros s' hs'.
      apply (Forall_impl _ (P := fun p => Cal.toordinal (h_date c)
                                          <= Cal.toordinal (p_end p)));
        [intros q Hq; lia|].
      apply IH; assumption. }
    destruct (date_eqb (h_date c) (Cal.next_day e)); [apply Hw|].
    constructor; [simpl; lia|apply Hw].
Qed.

(** The first period starts at [s], ends no earlier than [e] and has
    the labels gathered so far. *)
Lemma runs_first rest :
  forall s e hs,
    Cal.wf e -> Forall (fun h => Cal.wf (h_date h)) rest ->
    exists p0 tl,
      runs rest s e hs = p0 :: tl /\ p_start p0 = s /\
      Cal.toordinal e <= Cal.toordinal (p_end p0) /\
      forall x, In x hs -> In x (p_holidays p0).
Proof.
  induction rest as [|c rest IH]; intros s e hs We Hr.
  - simpl. eexists. eexists. split; [reflexivity|].
    split; [reflexivity|]. split; [simpl; lia|].
    intros x Hx. simpl. apply SortFacts.In_sorted_set. exact Hx.
  - inversion Hr as [|c' r' Wc Hr']; subst. cbn [runs].
    pose proof (CalFacts.toordinal_next_day e We) as Hn.
    destruct (date_eqb (h_date c) (Cal.next_day e)) eqn:E.
    + apply DateFacts.date_eqb_eq in E.
      destruct (IH s (h_date c) (hs ++ [label c]) Wc Hr')
        as (p0 & tl & E0 & Hs0 & He0 & Hl0).
      exists p0, tl. split; [exact E0|]. split; [exact Hs0|].
      split; [rewrite E, Hn in He0; lia|].
      intros x Hx. apply Hl0. apply in_or_app. left. exact Hx.
    + eexists. eexists. split; [reflexivity|].
      split; [reflexivity|]. split; [simpl; lia|].
      intros x Hx. simpl. apply SortFacts.In_sorted_set. exact Hx.
Qed.

(** A label of a period is in [hs], the period being one that starts
    at [s], or is that of a later entry whose date is in the period. *)
Lemma runs_labels_sound rest :
  forall s e hs p x,
    Cal.wf e -> Cal.toordinal s <= Cal.toordinal e ->
    Forall (fun h => Cal.wf (h_date h)) rest ->
    StronglySorted (fun x y => Cal.toordinal x <= Cal.toordinal y)
                   (e :: map h_date rest) ->
    In p (runs rest s e hs) -> In x (p_holidays p) ->
    (p_start p = s /\ In x hs) \/
    exists h, In h rest /\ label h = x /\
              Cal.toordinal (p_start p) <= Cal.toordinal (h_date h)
              <= Cal.toordinal (p_end p).
Proof.
  induction rest as [|c rest IH]; intros s e hs p x We Hse Hr Hs Hp Hx.
  - simpl in Hp. destruct Hp as [<-|[]]. left.
    split; [reflexivity|]. apply SortFacts.In_sorted_set. exact Hx.
  - inversion Hr as [|c' r' Wc Hr']; subst. cbn [runs] in Hp.
    apply StronglySorted_inv in Hs. destruct Hs as [Hs Hec].
    cbn [map] in Hs, Hec. apply Forall_inv in Hec.
    destruct (date_eqb (h_date c) (Cal.next_day e)) eqn:E.
    + pose proof (runs_end rest s (h_date c) (hs ++ [label c]) Wc Hr' Hs)
        as Hend.
      rewrite Forall_forall in Hend. specialize (Hend p Hp).
      destruct (IH s (h_date c) _ p x Wc ltac:(lia) Hr' Hs Hp Hx)
        as [[Hps Hin]|(h & Hh & Hl & Hd)].
      * apply in_app_or in Hin. destruct Hin as [Hin|[<-|[]]].
        -- left. auto.
        -- right. exists c. split; [left; reflexivity|].
           split; [reflexivity|]. rewrite Hps. lia.
      * right. exists h. split; [right; exact Hh|]. auto.
    + destruct Hp as [<-|Hp].
      * left. split; [reflexivity|].
        apply SortFacts.In_sorted_set. exact Hx.
      * pose proof (runs_end rest (h_date c) (h_date c) [label c] Wc Hr' Hs)
          as Hend.
        rewrite Forall_forall in Hend. specialize (Hend p Hp).
        destruct (IH (h_date c) (h_date c) _ p x Wc ltac:(lia) Hr' Hs Hp Hx)
          as [[Hps Hin]|(h & Hh & Hl & Hd)].
        -- destruct Hin as [<-|[]].
           right. exists c. split; [left; reflexivity|].
           split; [reflexivity|]. rewrite Hps. lia.
        -- right. exists h. split; [right; exact Hh|]. auto.
Qed.

(** The label of every later entry is in a period that has its date. *)
Lemma runs_labels_complete rest :
  forall s e hs h,
    Cal.wf e -> Cal.toordinal s <= Cal.toordinal e ->
    Forall (fun h => Cal.wf (h_date h)) rest ->
    StronglySorted (fun x y => Cal.toordinal x <= Cal.toordinal y)
                   (e :: map h_date rest) ->
    In h rest ->
    exists p, In p (runs rest s e hs) /\ In (label h) (p_holidays p) /\
              Cal.toordinal (p_start p) <= Cal.toordinal (h_date h)
              <= Cal.toordinal (p_end p).
Proof.
  induction rest as [|c rest IH]; intros s e hs h We Hse Hr Hs Hh;
    [destruct Hh|].
  inversion Hr as [|c' r' Wc Hr']; subst. cbn [runs].
  apply StronglySorted_inv in Hs. destruct Hs as [Hs Hec].
  cbn [map] in Hs, Hec. apply Forall_inv in Hec.
  destruct (date_eqb (h_date c) (Cal.next_day e)) eqn:E.
  - destruct Hh as [<-|Hh].
    + destruct (runs_first rest s (h_date c) (hs ++ [label c]) Wc Hr')
        as (p0 & tl & E0 & Hs0 & He0 & Hl0).
      exists p0. rewrite E0. split; [left; reflexivity|].
      split; [apply Hl0; apply in_or_app; right; left; reflexivity|].
      rewrite Hs0. lia.
    + apply IH; auto. lia.
  - destruct Hh as [<-|Hh].
    + destruct (runs_first rest (h_date c) (h_date c) [label c] Wc Hr')
        as (p0 & tl & E0 & Hs0 & He0 & Hl0).
      exists p0. rewrite E0. split; [right; left; reflexivity|].
      split; [apply Hl0; left; reflexivity|].
      rewrite Hs0. lia.
    + destruct (IH (h_date c) (h_date c) [label c] h Wc ltac:(lia) Hr' Hs Hh)
        as (p & Hp & Hl & Hd).
      exists p. split; [right; exact Hp|]. auto.
Qed.

End PeriodFacts.

(** ** [group_consecutive_dates] and [get_all_holidays] *)

Module GroupingFacts.
Import Holidays Agg.

Lemma SS_strict {A} (R : A -> A -> Prop) (l : list A) :
  StronglySorted R l -> NoDup l ->
  StronglySorted (fun x y => R x y /\ x <> y) l.
Proof.
  induction 1 as [|x l Hs IH Hx]; intros Hn; [constructor|].
  inversion Hn as [|x' l' Hnx Hn']; subst.
  constructor; [apply IH; exact Hn'|].
  rewrite Forall_forall in *. intros y Hy. split; [auto|].
  intros ->. contradiction.
Qed.

(** What [group_consecutive_dates] returns on calendar dates: nothing
    for no entry, and otherwise the [runs] of the entries sorted by
    date. *)
Lemma group_unfold l ps :
  Forall (fun h => Cal.wf (h_date h)) l ->
  group_consecutive_dates l = Some ps ->
  (l = [] /\ ps = []) \/
  exists first rest,
    Permutation (first :: rest) l /\
    Forall (fun h => Cal.wf (h_date h)) (first :: rest) /\
    StronglySorted (fun x y => Cal.toordinal x <= Cal.toordinal y)
                   (map h_date (first :: rest)) /\
    ps = runs rest (h_date first) (h_date first) [label first].
Proof.
  intros Hw H. destruct l as [|a l]; [left; inversion H; auto|right].
  unfold group_consecutive_dates in H.
  set (le := fun x y => Cal.leb (h_date x) (h_date y)) in H.
  pose proof (SortFacts.sorted_by_perm le (a :: l)) as Hp.
  assert (Hs : StronglySorted (fun x y => le x y = true) (sorted_by le (a :: l))).
  { apply SortFacts.sorted_by_sorted; unfold le.
    - intros x y. apply DateFacts.leb_total.
    - intros x y z. apply DateFacts.leb_trans. }
  cbv zeta in H.
  destruct (sorted_by le (a :: l)) as [|first rest] eqn:E; [discriminate|].
  apply PeriodFacts.group_loop_runs in H. simpl in H.
  assert (Hw' : Forall (fun h => Cal.wf (h_date h)) (first :: rest)).
  { rewrite Forall_forall in *. intros h Hh. apply Hw.
    apply (Permutation_in _ Hp). exact Hh. }
  exists first, rest. split; [exact Hp|]. split; [exact Hw'|].
  split; [|exact H].
  apply AggFacts.SS_map.
  apply (AggFacts.SS_weaken _ _ _ _ ) with (2 := Hw') (3 := Hs).
  intros x y Wx Wy Hxy. unfold le in Hxy.
  apply (CalFacts.leb_toordinal _ _ Wx Wy). exact Hxy.
Qed.

(** The periods close the dates of the entries and no other. *)
Lemma group_cover l ps d :
  (forall h, In h l -> Cal.wf (h_date h)) -> Cal.wf d ->
  group_consecutive_dates l = Some ps ->
  (is_closed d ps = true <-> exists h, In h l /\ h_date h = d).
Proof.
  intros Hl Wd H.
  destruct (group_unfold l ps) as [[-> ->]|(first & rest & Hp & Hw & _ & ->)];
    [apply Forall_forall; exact Hl|exact H| |].
  { simpl. split; [discriminate|]. intros (h & [] & _). }
  inversion Hw as [|f r Wf Wr]; subst.
  rewrite (PeriodFacts.runs_cover rest _ _ _ d Wf Wf Wd (Z.le_refl _) Wr).
  split.
  - intros [Hd|(h & Hh & Hd)].
    + exists first. split; [apply (Permutation_in _ Hp); left; reflexivity|].
      apply DateFacts.toordinal_inj; auto. lia.
    + exists h. split; [apply (Permutation_in _ Hp); right; exact Hh|exact Hd].
  - intros (h & Hh & Hd).
    apply (Permutation_in _ (Permutation_sym Hp)) in Hh.
    destruct Hh as [<-|Hh]; [left; rewrite Hd; lia|].
    right. exists h. auto.
Qed.

Lemma next_day_year d :
  Cal.valid d -> d <> mkDate 9999 12 31 -> year (Cal.next_day d) <= 9999.
Proof.
  intros (Hy & Hm & Hd) Hne. unfold Cal.next_day.
  destruct (Z.ltb_spec (day d) (Cal.days_in_month (year d) (month d)));
    [simpl; lia|].
  destruct (Z.ltb_spec (month d) 12); [simpl; lia|]. simpl.
  destruct (Z.eq_dec (year d) 9999) as [E|E]; [|lia].
  exfalso. apply Hne. destruct d as [y m dd]. simpl in *.
  assert (m = 12) by lia. subst. f_equal.
  unfold Cal.days_in_month in *. simpl in *. lia.
Qed.

Section Library.

Variable holiday_class :
  HolidayClass -> list Z -> option (list (Date * String.string)).

Lemma In_get_all_holidays s e sel h :
  In h (get_all_holidays holiday_class s e sel) <->
  exists cls items,
    In (h_country h, cls) country_classes /\ In (h_country h) sel /\
    holiday_class cls (range (year s) (year e + 1)) = Some items /\
    In (h_date h, h_name h) items /\
    Cal.leb s (h_date h) = true /\ Cal.leb (h_date h) e = true.
Proof.
  unfold get_all_holidays. rewrite in_flat_map. split.
  - intros ([country cls] & Hcc & Hh). cbn [fst snd] in Hh.
    destruct (existsb (String.eqb country) sel) eqn:Es; [|destruct Hh].
    apply existsb_exists in Es. destruct Es as (c' & Hc' & Ec).
    apply String.eqb_eq in Ec. subst c'.
    destruct (holiday_class cls (range (year s) (year e + 1)))
      as [items|] eqn:El; [|destruct Hh].
    apply in_map_iff in Hh. destruct Hh as ([d n] & <- & Hdn).
    apply filter_In in Hdn. destruct Hdn as [Hdn Hr].
    apply andb_true_iff in Hr. cbn [fst snd] in *.
    exists cls, items. cbn [h_country h_date h_name].
    split; [exact Hcc|]. split; [exact Hc'|]. split; [exact El|].
    split; [|exact Hr].
    apply (Permutation_in _ (SortFacts.sorted_by_perm item_le items)).
    exact Hdn.
  - intros (cls & items & Hcc & Hsel & El & Hdn & Hs & He).
    exists (h_country h, cls). split; [exact Hcc|]. cbn [fst snd].
    assert (Es : existsb (String.eqb (h_country h)) sel = true).
    { apply existsb_exists. exists (h_country h).
      split; [exact Hsel|apply String.eqb_refl]. }
    rewrite Es, El. apply in_map_iff. exists (h_date h, h_name h).
    split; [destruct h; reflexivity|].
    apply filter_In. cbn [fst]. split; [|rewrite Hs, He; reflexivity].
    apply (Permutation_in _ (Permutation_sym
                               (SortFacts.sorted_by_perm item_le items))).
    exact Hdn.
Qed.

End Library.

End GroupingFacts.

(** ** The weights of the table *)

Module WeightFacts.
Import Agg.

(** An open day has, before the correction, the weight of the closed
    days that follow it. *)
Lemma pass_nth_open (u : F64.float) (cl : list bool) :
  forall i, nth_error cl i = Some false ->
            exists c, nth_error (Pass.percentage u cl) i
                      = Some (Pass.weight u c) /\
                      (i + c + 1 <= length cl)%nat.
Proof.
  induction cl as [|b cl IH]; intros [|i] Hi; try discriminate.
  - simpl in Hi. inversion Hi; subst b. simpl.
    exists (Pass.run_len cl). split; [reflexivity|].
    pose proof (MonthSum.run_len_le cl). lia.
  - simpl in Hi. destruct (IH i Hi) as (c & Hc & Hle).
    exists c. split; [destruct b; exact Hc|simpl; lia].
Qed.

Lemma nth_error_zeros_other {A} (z a b : A) (k : nat) (rest : list A) (i : nat) :
  i <> k ->
  nth_error (repeat z k ++ a :: rest) i = nth_error (repeat z k ++ b :: rest) i.
Proof.
  revert i. induction k as [|k IH]; intros [|i] Hi; simpl; try reflexivity.
  - contradiction.
  - apply IH. lia.
Qed.

(** The weight of an open day is a finite number above zero, also
    after the correction step. *)
Lemma open_positive (cl : list bool) (i : nat) :
  (1 <= length cl <= 31)%nat ->
  nth_error cl i = Some false ->
  exists w, nth_error (Month.month_percentage cl) i = Some w /\
            F64.is_pos_finite w = true.
Proof.
  intros Hlen Hi.
  pose proof (SumsFacts.check_month (length cl) Hlen) as HD.
  assert (HD1 : (1 <= length cl)%nat) by lia.
  pose proof (GroupFacts.run_len_open cl i Hi) as Hk.
  destruct (pass_nth_open (Pass.unit (length cl)) cl i Hi) as (c & Hc & Hle).
  rewrite <- (MonthSum.percentage_is_pass (length cl) HD1 cl eq_refl) in Hc.
  assert (Hw : F64.is_pos_finite (Pass.weight (Pass.unit (length cl)) c) = true).
  { apply (MonthSum.weight_pos (length cl) HD). lia. }
  change (Month.month_percentage cl)
    with (Month.correct_with (F64.sum (Month.percentage cl))
                             (Month.percentage cl)).
  destruct (Nat.eq_dec (Pass.run_len cl) 0) as [E|E].
  - destruct (MonthSum.month_full (length cl) HD HD1 cl _ eq_refl E
                                  (MonthSum.sum_sums_to _)) as (_ & _ & ->).
    eexists. split; [exact Hc|exact Hw].
  - destruct (MonthSum.month_partial (length cl) HD HD1 cl _ eq_refl
                                     ltac:(lia) (MonthSum.sum_sums_to _))
      as (_ & _ & c1 & rest & EP & EM & _ & Hadj).
    rewrite EM. destruct (Nat.eq_dec i (Pass.run_len cl)) as [->|Hne].
    + rewrite SingleFacts.nth_error_zeros_at. eexists. split; [reflexivity|].
      unfold Sums.adjust_ok in Hadj. apply andb_true_iff in Hadj.
      apply Hadj.
    + rewrite (nth_error_zeros_other _ _ (Pass.W (length cl) c1) _ _ _ Hne).
      rewrite <- EP. eexists. split; [exact Hc|exact Hw].
Qed.

(** A row of the output, seen in its month group. *)
Lemma output_row som eom cur periods out o :
  Cal.wf som -> Cal.wf eom ->
  final_df som eom cur periods = Some out -> In o out ->
  exists g i r,
    (1 <= length (map r_IsClosed g) <= 31)%nat /\
    nth_error g i = Some r /\
    nth_error (Month.month_percentage (map r_IsClosed g)) i
    = Some (o_percentage o) /\
    o_date o = r_date r /\
    r_IsClosed r = is_closed (o_date o) periods /\
    Cal.wf (o_date o) /\
    Cal.leb cur (o_date o) = true /\ Cal.leb (o_date o) eom = true.
Proof.
  intros Ws We Hout Ho.
  destruct (AggFacts.In_final_df _ _ _ _ _ _ Hout Ho) as (k & g & Hg & Hog).
  destruct (AggFacts.In_month_final _ _ Hog) as (i & r & p & Hr & Hp & ->).
  pose proof (GroupFacts.group_column _ _ _ _ _ _ Ws We Hg) as Hlen.
  assert (Hrem : In r (remaining som eom cur periods)).
  { apply (AggFacts.groupby_month_In _ _ _ _ Hg).
    apply (nth_error_In _ _ Hr). }
  pose proof (AggFacts.remaining_wf _ _ _ _ _ Ws We Hrem) as Wr.
  exists g, i, r. cbn [o_percentage o_date].
  split; [exact Hlen|]. split; [exact Hr|]. split; [exact Hp|].
  split; [reflexivity|].
  split; [apply (AggFacts.remaining_IsClosed _ _ _ _ _ Hrem)|].
  split; [exact Wr|].
  split; [apply (AggFacts.remaining_IsTodayOrAfter _ _ _ _ _ Hrem)|].
  assert (Hd : In (r_date r) (map r_date (remaining som eom cur periods)))
    by (apply in_map; exact Hrem).
  rewrite AggFacts.remaining_dates in Hd. apply filter_In in Hd.
  destruct Hd as [Hd _].
  destruct (CalFacts.date_range_In _ _ Ws We _ Hd) as [_ Hb].
  apply (CalFacts.leb_toordinal _ _ Wr We). lia.
Qed.

(** The weight of a row: 0 on a closed day, above 0 on an open day. *)
Lemma output_weight som eom cur periods out o :
  Cal.wf som -> Cal.wf eom ->
  final_df som eom cur periods = Some out -> In o out ->
  if is_closed (o_date o) periods then o_percentage o = F64.zero
  else F64.is_pos_finite (o_percentage o) = true.
Proof.
  intros Ws We Hout Ho.
  destruct (output_row _ _ _ _ _ _ Ws We Hout Ho)
    as (g & i & r & Hlen & Hr & Hp & _ & Hc & _).
  assert (Hi : nth_error (map r_IsClosed g) i = Some (r_IsClosed r))
    by (rewrite nth_error_map, Hr; reflexivity).
  rewrite <- Hc. destruct (r_IsClosed r).
  - rewrite (MonthFacts.month_closed_zero _ _ Hi) in Hp. congruence.
  - destruct (open_positive _ _ Hlen Hi) as (w & Hw & Hpos). congruence.
Qed.


(** The exact value of a weight that is 0 or above 0. *)
Lemma units_nonneg (w : F64.float) (v : Z) :
  w = F64.zero \/ F64.is_pos_finite w = true ->
  F64.units w = Some v -> 0 <= v.
Proof.
  intros [->|H]; [intros E; inversion E; lia|].
  destruct w as [sw|sw| |[|] m e]; try discriminate.
  unfold F64.units. destruct (Z.leb_spec 0 (e + 128)) as [Ee|]; [|discriminate].
  intros E. assert (Ev : v = Z.pos m * 2 ^ (e + 128)) by congruence.
  rewrite Ev. apply Z.mul_nonneg_nonneg; [lia|]. apply Z.pow_nonneg. lia.
Qed.

Lemma exact_sum_entry (l : list F64.float) :
  (forall x, In x l -> x = F64.zero \/ F64.is_pos_finite x = true) ->
  forall s, F64.exact_sum l = Some s ->
  0 <= s /\
  forall w, In w l -> exists v, F64.units w = Some v /\ 0 <= v <= s.
Proof.
  induction l as [|x l IH]; intros Hl s Hs; simpl in Hs.
  - inversion Hs. split; [lia|]. intros w [].
  - destruct (F64.units x) as [a|] eqn:Ea; [|discriminate].
    destruct (F64.exact_sum l) as [b|] eqn:Eb; [|discriminate].
    inversion Hs; subst s.
    pose proof (units_nonneg x a (Hl x (or_introl eq_refl)) Ea) as Ha.
    destruct (IH (fun y Hy => Hl y (or_intror Hy)) b eq_refl) as [Hb Hin].
    split; [lia|]. intros w [<-|Hw].
    + exists a. split; [exact Ea|lia].
    + destruct (Hin w Hw) as (v & Hv & Hvb). exists v. split; [exact Hv|lia].
Qed.

(** Every weight of a month is 0 or above 0. *)
Lemma month_entries (cl : list bool) :
  (1 <= length cl <= 31)%nat ->
  forall x, In x (Month.month_percentage cl) ->
            x = F64.zero \/ F64.is_pos_finite x = true.
Proof.
  intros Hlen x Hx. apply In_nth_error in Hx. destruct Hx as [i Hi].
  assert (Hil : (i < length cl)%nat).
  { rewrite <- (MonthFacts.month_percentage_length cl).
    apply nth_error_Some. congruence. }
  destruct (nth_error cl i) as [[|]|] eqn:Eb.
  - left. rewrite (MonthFacts.month_closed_zero _ _ Eb) in Hi. congruence.
  - right. destruct (open_positive _ _ Hlen Eb) as (w & Hw & Hpos). congruence.
  - apply nth_error_None in Eb. lia.
Qed.

(** A weight is a finite number from 0 to 1 + 1e-9. *)
Lemma month_weight_range (cl : list bool) (w : F64.float) :
  (1 <= length cl <= 31)%nat ->
  In w (Month.month_percentage cl) ->
  exists v, F64.units w = Some v /\ 0 <= v /\
            (v - F64.unit_one) * 1000000000 <= F64.unit_one.
Proof.
  intros Hlen Hw.
  pose proof (SumsFacts.check_month (length cl) Hlen) as HD.
  pose proof (MonthSum.run_len_le cl) as Hrl.
  assert (HU : 0 < F64.unit_one) by (unfold F64.unit_one; lia).
  destruct (Nat.eq_dec (Pass.run_len cl) (length cl)) as [E|E].
  - destruct (MonthSum.month_all_closed (length cl) ltac:(lia) cl
                (F64.sum (Month.percentage cl)) eq_refl E) as [_ HM].
    change (Month.correct_with (F64.sum (Month.percentage cl))
                               (Month.percentage cl))
      with (Month.month_percentage cl) in HM.
    rewrite HM in Hw. apply repeat_spec in Hw. subst w.
    exists 0. split; [reflexivity|]. lia.
  - destruct (MonthSum.month_sum (length cl) HD ltac:(lia) cl
                (F64.sum (Month.percentage cl)) eq_refl ltac:(lia) ltac:(lia)
                (MonthSum.sum_sums_to _)) as (s & Hs & Hnear).
    change (Month.correct_with (F64.sum (Month.percentage cl))
                               (Month.percentage cl))
      with (Month.month_percentage cl) in Hs.
    destruct (exact_sum_entry _ (month_entries cl Hlen) s Hs) as [_ Hin].
    destruct (Hin w Hw) as (v & Hv & Hvs).
    exists v. split; [exact Hv|]. split; [lia|].
    unfold F64.within_1e9_of_one in Hnear. lia.
Qed.

(** The output is the same for two lists of periods that close the
    same days between today and the end date. *)
Lemma filter_rows_ext (cur : Date) (f g : Date -> bool) (l : list Date) :
  (forall d, In d l -> Cal.leb cur d = true -> f d = g d) ->
  filter r_IsTodayOrAfter (map (fun d => mkRow d (f d) (Cal.leb cur d)) l)
  = filter r_IsTodayOrAfter (map (fun d => mkRow d (g d) (Cal.leb cur d)) l).
Proof.
  induction l as [|d l IH]; intros H; [reflexivity|].
  cbn [map filter r_IsTodayOrAfter].
  rewrite IH by (intros d' Hd'; apply H; right; exact Hd').
  destruct (Cal.leb cur d) eqn:E; [|reflexivity].
  rewrite (H d (or_introl eq_refl) E). reflexivity.
Qed.

Lemma final_df_ext som eom cur ps qs :
  Cal.wf som -> Cal.wf eom ->
  (forall d, Cal.wf d -> Cal.leb cur d = true -> Cal.leb d eom = true ->
             is_closed d ps = is_closed d qs) ->
  final_df som eom cur ps = final_df som eom cur qs.
Proof.
  intros Ws We H. unfold final_df, remaining. cbv zeta.
  rewrite (filter_rows_ext cur (fun d => is_closed d ps)
                           (fun d => is_closed d qs)); [reflexivity|].
  intros d Hd Hc.
  destruct (CalFacts.date_range_In _ _ Ws We _ Hd) as [Wd Hb].
  apply H; [exact Wd|exact Hc|].
  apply (CalFacts.leb_toordinal _ _ Wd We). lia.
Qed.

End WeightFacts.

(** ** The holiday reset *)

Module ResetFacts.
Import Agg Holidays.

(** The dates of the sample library are calendar dates. *)
Lemma library_wf c ys items d n :
  Sample2.library c ys = Some items -> In (d, n) items -> Cal.wf d.
Proof.
  intros H Hin.
  destruct c; simpl in H; inversion H; subst items; clear H;
    try (destruct Hin; fail);
    apply in_flat_map in Hin; destruct Hin as (y & _ & Hin); simpl in Hin;
    repeat (destruct Hin as [Hin|Hin];
            [inversion Hin; subst; unfold Cal.wf, Cal.days_in_month; simpl; lia|]);
    destruct Hin.
Qed.

Section Library.

Variable holiday_class :
  HolidayClass -> list Z -> option (list (Date * String.string)).

Hypothesis holiday_dates :
  forall c ys items d n,
    holiday_class c ys = Some items -> In (d, n) items -> Cal.wf d.

(** After the reset a day between today and the end date is closed
    when, and only when, it is a holiday of a selected country. *)
Lemma reset_closed cur eom sel periods d :
  Cal.wf d -> Cal.leb cur d = true -> Cal.leb d eom = true ->
  holiday_periods holiday_class cur eom sel = Some periods ->
  (is_closed d periods = true <->
   exists country cls items name,
     In (country, cls) country_classes /\ In country sel /\
     holiday_class cls (range (year cur) (year eom + 1)) = Some items /\
     In (d, name) items).
Proof.
  intros Wd Hcd Hde H. unfold holiday_periods in H. cbv zeta in H.
  rewrite (GroupingFacts.group_cover _ _ d) with (3 := H); [|clear H|exact Wd].
  - split.
    + intros (h & Hh & <-).
      apply GroupingFacts.In_get_all_holidays in Hh.
      destruct Hh as (cls & items & Hcc & Hs & Hl & Hi & _).
      exists (h_country h), cls, items, (h_name h). auto.
    + intros (country & cls & items & name & Hcc & Hs & Hl & Hi).
      exists (mkHoliday d name country). split; [|reflexivity].
      apply GroupingFacts.In_get_all_holidays.
      exists cls, items. cbn [h_country h_date h_name]. auto 10.
  - intros h Hh. apply GroupingFacts.In_get_all_holidays in Hh.
    destruct Hh as (cls & items & _ & _ & Hl & Hi & _).
    apply (holiday_dates _ _ _ _ _ Hl Hi).
Qed.

End Library.

End ResetFacts.

(** ** Editing the closed periods *)

Module EditFacts.
Import Edit Agg.

Lemma set_nth_split {A} (x : A) (l : list A) :
  forall i, (i < length l)%nat ->
            set_nth i x l = firstn i l ++ x :: skipn (S i) l.
Proof.
  induction l as [|y l IH]; intros [|i] Hi; simpl in *; try lia.
  - reflexivity.
  - rewrite IH by lia. reflexivity.
Qed.

Lemma remove_nat (i : nat) (l : list Period) :
  remove_closed_period (Z.of_nat i) l
  = if (i <? length l)%nat then Some (firstn i l ++ skipn (S i) l) else None.
Proof.
  unfold remove_closed_period. cbv zeta.
  destruct (Z.ltb_spec (Z.of_nat i) 0) as [|_]; [lia|].
  destruct (Z.leb_spec 0 (Z.of_nat i)) as [_|]; [|lia]. cbn [andb].
  rewrite Nat2Z.id.
  destruct (Z.ltb_spec (Z.of_nat i) (Z.of_nat (length l)));
    destruct (Nat.ltb_spec i (length l)); try lia; reflexivity.
Qed.

Lemma is_closed_firstn_skipn d (l : list Period) (i : nat) :
  is_closed d (firstn i l ++ skipn (S i) l) = true -> is_closed d l = true.
Proof.
  assert (Hl : is_closed d l
               = is_closed d (firstn i l) || is_closed d (skipn i l))
    by (rewrite <- PeriodFacts.is_closed_app, firstn_skipn; reflexivity).
  rewrite Hl, PeriodFacts.is_closed_app. clear Hl.
  intros H. apply orb_true_iff in H. apply orb_true_iff.
  destruct H as [H|H]; [left; exact H|right].
  destruct (skipn i l) as [|p t] eqn:E.
  - rewrite (skipn_all2 l) in H; [exact H|].
    assert (length (skipn i l) = 0%nat) by (rewrite E; reflexivity).
    rewrite length_skipn in *. lia.
  - replace (skipn (S i) l) with t in H.
    + simpl. rewrite H. apply orb_true_r.
    + change (S i) with (1 + i)%nat. rewrite <- skipn_skipn, E. reflexivity.
Qed.

End EditFacts.

(** ** The properties *)

Section Extras.

Import Agg Holidays Edit.

(** Checks that a concrete triple is a calendar date. *)
Ltac calendar_date :=
  unfold Cal.valid, Cal.wf; simpl;
  repeat split; apply Z.leb_le; reflexivity.

(** Checks a property of the dates of a concrete list of entries. *)
Ltac each_entry tac :=
  let h := fresh "h" in
  let H := fresh "H" in
  intros h H; vm_compute in H;
  repeat (destruct H as [H|H]; [subst h; tac|]); destruct H.

Local Open Scope string_scope.

(** X1.  [add_months] adds [months] to the count of months: from a
    calendar date it arrives, when it returns, at a calendar date of
    the month that many months later, on the same day of the month or
    on the last day of that month when the month is too short. *)
Theorem X1_add_months_result d n r :
  Cal.valid d -> Options.add_months d n = Some r ->
  Cal.valid r /\
  12 * year r + month r = 12 * year d + month d + n /\
  day r = Z.min (day d) (Cal.days_in_month (year r) (month r)) /\
  (day d <= 28 -> day r = day d).
Proof.
  intros Hv H.
  destruct (OptionsFacts.add_months_Some d n r Hv H) as (Hr & Hi & Hd).
  split; [exact Hr|]. split; [exact Hi|]. split; [exact Hd|].
  pose proof (CalFacts.days_in_month_bounds (year r) (month r)). lia.
Qed.

Lemma X1_witness :
  Cal.valid (mkDate 2024 2 29) /\
  12 * 2024 + 2 = 12 * 2024 + 1 + 1 /\
  29 = Z.min 31 (Cal.days_in_month 2024 2) /\
  (31 <= 28 -> 29 = 31).
Proof.
  apply (X1_add_months_result (mkDate 2024 1 31) 1 (mkDate 2024 2 29)).
  - calendar_date.
  - reflexivity.
Defined.

(** X2.  [add_months] raises (the [ValueError] of [date.replace])
    exactly when the month it arrives at is outside the years 1 to
    9999. *)
Theorem X2_add_months_out_of_range d n :
  Cal.valid d ->
  (Options.add_months d n = None <->
   ~ (12 * 1 + 1 <= 12 * year d + month d + n <= 12 * 9999 + 12)).
Proof.
  intros Hv. rewrite (OptionsFacts.add_months_None d n Hv).
  unfold Options.month_index. split; intros H Hr; apply H; lia.
Qed.

Lemma X2_witness :
  Options.add_months (mkDate 9999 12 1) 1 = None <->
  ~ (12 * 1 + 1 <= 12 * 9999 + 12 + 1 <= 12 * 9999 + 12).
Proof.
  apply (X2_add_months_out_of_range (mkDate 9999 12 1) 1).
  calendar_date.
Defined.

(** X3.  From a day of the month that every month has (the 28th at
    most), adding months twice is adding their sum, and adding [a]
    months and then [-a] leads back to the date. *)
Theorem X3_add_months_compose d a b d1 :
  Cal.valid d -> day d <= 28 -> Options.add_months d a = Some d1 ->
  Options.add_months d1 b = Options.add_months d (a + b) /\
  Options.add_months d1 (- a) = Some d.
Proof.
  intros Hv H28 H1. split.
  - apply (OptionsFacts.add_months_add d a b d1 Hv H28 H1).
  - rewrite (OptionsFacts.add_months_add d a (- a) d1 Hv H28 H1).
    rewrite Z.add_opp_diag_r. apply OptionsFacts.add_months_0. exact Hv.
Qed.

Lemma X3_witness :
  Options.add_months (mkDate 2025 2 1) 5
  = Options.add_months (mkDate 2024 11 1) (3 + 5) /\
  Options.add_months (mkDate 2025 2 1) (- 3) = Some (mkDate 2024 11 1).
Proof.
  apply (X3_add_months_compose (mkDate 2024 11 1) 3 5 (mkDate 2025 2 1)).
  - calendar_date.
  - simpl. lia.
  - reflexivity.
Defined.

(** X4.  When [generate_month_options] returns, it returns
    [num_months] options, and reading the [k]-th one back as line 109
    does gives the year and the month that come [k] months after the
    start date's. *)
Theorem X4_month_options_read_back start n opts :
  Cal.valid start ->
  Options.generate_month_options start n = Some opts ->
  length opts = n /\
  forall k, (k < n)%nat ->
    exists s y m,
      nth_error opts k = Some s /\
      Options.parse_selected s = Some (y, m) /\
      1 <= m <= 12 /\
      12 * y + m = 12 * year start + month start + Z.of_nat k.
Proof.
  intros Hv H. unfold Options.generate_month_options in H.
  destruct (OptionsFacts.options_from_Some start n 0 opts H) as [Hl Hn].
  split; [exact Hl|]. intros k Hk.
  destruct (Hn k Hk) as (r & Hr & Hs). rewrite Z.add_0_l in Hr.
  destruct (OptionsFacts.add_months_Some _ _ _ Hv Hr) as ((Hy & Hm & _) & Hi & _).
  exists (Options.strftime_Ym r), (year r), (month r).
  split; [exact Hs|]. split; [|split; [exact Hm|exact Hi]].
  apply OptionsFacts.parse_strftime; lia.
Qed.

Lemma X4_witness :
  length ["2024-11"; "2024-12"; "2025-01"] = 3%nat /\
  forall k, (k < 3)%nat ->
    exists s y m,
      nth_error ["2024-11"; "2024-12"; "2025-01"] k = Some s /\
      Options.parse_selected s = Some (y, m) /\
      1 <= m <= 12 /\
      12 * y + m = 12 * 2024 + 11 + Z.of_nat k.
Proof.
  apply (X4_month_options_read_back (mkDate 2024 11 1) 3).
  - calendar_date.
  - reflexivity.
Defined.

(** X5.  [generate_month_options] raises exactly when it is asked for
    at least one month and the last month asked for is after December
    9999. *)
Theorem X5_month_options_fail start n :
  Cal.valid start ->
  (Options.generate_month_options start n = None <->
   (0 < n)%nat /\
   12 * 9999 + 12 < 12 * year start + month start + Z.of_nat n - 1).
Proof.
  intros Hv. unfold Options.generate_month_options.
  rewrite OptionsFacts.options_from_None.
  pose proof Hv as (Hy & Hm & _). split.
  - intros (k & Hk & Hn).
    apply (OptionsFacts.add_months_None _ _ Hv) in Hn.
    unfold Options.month_index in Hn. lia.
  - intros [Hn Hlast]. exists (n - 1)%nat. split; [lia|].
    apply (OptionsFacts.add_months_None _ _ Hv).
    unfold Options.month_index. lia.
Qed.

Lemma X5_witness :
  Options.generate_month_options (mkDate 9999 2 1) 12 = None <->
  (0 < 12)%nat /\
  12 * 9999 + 12 < 12 * 9999 + 2 + Z.of_nat 12 - 1.
Proof.
  apply (X5_month_options_fail (mkDate 9999 2 1) 12).
  calendar_date.
Defined.

(** X6.  Whatever option of the select box is chosen, the end date
    computed from it is the last day of a month that is not before
    today's, so the range check of line 334 passes and the table is
    built: the [else] branch cannot be reached from the select box. *)
Theorem X6_selected_month_passes_guard cur opts s periods :
  Cal.valid cur -> Options.month_options cur = Some opts -> In s opts ->
  exists ey em eom out,
    Options.parse_selected s = Some (ey, em) /\
    Options.selected_end s = Some eom /\
    eom = Agg.end_of_end_month ey em /\
    Cal.leb (Cal.replace_day1 cur) eom = true /\
    Cal.leb cur eom = true /\
    Agg.allocate cur ey em periods = Some out.
Proof.
  intros Hv Ho Hs. unfold Options.month_options in Ho.
  pose proof (OptionsFacts.valid_replace_day1 cur Hv) as Hv1.
  unfold Options.generate_month_options in Ho.
  destruct (OptionsFacts.options_from_Some _ _ _ _ Ho) as [Hl Hn].
  apply In_nth_error in Hs. destruct Hs as [k Hk].
  assert (Hk12 : (k < 12)%nat).
  { rewrite <- Hl. apply nth_error_Some. congruence. }
  destruct (Hn k Hk12) as (r & Hr & Hs). rewrite Z.add_0_l in Hr.
  rewrite Hk in Hs. inversion Hs; subst s. clear Hs.
  destruct (OptionsFacts.add_months_Some _ _ _ Hv1 Hr)
    as ((Hy & Hm & _) & Hi & _).
  unfold Options.month_index in Hi.
  cbn [Cal.replace_day1 year month day] in Hi.
  assert (Hp : Options.parse_selected (Options.strftime_Ym r)
               = Some (year r, month r))
    by (apply OptionsFacts.parse_strftime; lia).
  assert (Hle1 : Cal.leb (Cal.replace_day1 cur)
                         (Agg.end_of_end_month (year r) (month r)) = true).
  { apply OptionsFacts.leb_month_end; [exact Hv1|exact Hm|].
    unfold Options.month_index. cbn [Cal.replace_day1 year month day]. lia. }
  assert (Hle : Cal.leb cur (Agg.end_of_end_month (year r) (month r)) = true).
  { apply OptionsFacts.leb_month_end; [exact Hv|exact Hm|].
    unfold Options.month_index. lia. }
  exists (year r), (month r), (Agg.end_of_end_month (year r) (month r)).
  eexists. split; [exact Hp|]. split.
  { unfold Options.selected_end. rewrite Hp.
    destruct (Z.leb_spec 1 (month r)); [|lia].
    destruct (Z.leb_spec (month r) 12); [|lia]. cbn [andb].
    apply OptionsFacts.date_new_Some. split; [|reflexivity].
    repeat split; cbn [year month day]; try lia.
    pose proof (CalFacts.days_in_month_bounds (year r) (month r)). lia. }
  split; [reflexivity|]. split; [exact Hle1|]. split; [exact Hle|].
  unfold Agg.allocate, Agg.final_df. rewrite Hle1. reflexivity.
Qed.

Lemma X6_witness :
  exists ey em eom out,
    Options.parse_selected "2024-03" = Some (ey, em) /\
    Options.selected_end "2024-03" = Some eom /\
    eom = Agg.end_of_end_month ey em /\
    Cal.leb (Cal.replace_day1 Sample.today) eom = true /\
    Cal.leb Sample.today eom = true /\
    Agg.allocate Sample.today ey em Sample.closed_periods = Some out.
Proof.
  eapply (X6_selected_month_passes_guard Sample.today).
  - calendar_date.
  - vm_compute. reflexivity.
  - simpl. tauto.
Defined.

(** X7.  The option the select box shows at first, the one of index
    2, is [default_end_month]: the month two months after today's. *)
Theorem X7_default_end_month cur opts r :
  Options.month_options cur = Some opts ->
  Options.add_months (Cal.replace_day1 cur) 2 = Some r ->
  nth_error opts 2 = Some (Options.strftime_Ym r).
Proof.
  intros Ho Hr. unfold Options.month_options in Ho.
  unfold Options.generate_month_options in Ho.
  destruct (OptionsFacts.options_from_Some _ _ _ _ Ho) as [_ Hn].
  destruct (Hn 2%nat ltac:(lia)) as (r' & Hr' & Hs).
  change (0 + Z.of_nat 2) with 2 in Hr'. congruence.
Qed.

Lemma X7_witness :
  nth_error ["2024-01"; "2024-02"; "2024-03"; "2024-04"; "2024-05";
             "2024-06"; "2024-07"; "2024-08"; "2024-09"; "2024-10";
             "2024-11"; "2024-12"] 2
  = Some (Options.strftime_Ym (mkDate 2024 3 1)).
Proof.
  apply (X7_default_end_month Sample.today).
  - vm_compute. reflexivity.
  - vm_compute. reflexivity.
Defined.

(** X8.  [get_all_holidays] returns the holidays that the package
    lists for a country that is both selected and among the nine of
    [country_classes], dated from the start date to the end date, and
    nothing else: a name it does not know and a class that raises
    [NotImplementedError] contribute nothing. *)
Theorem X8_get_all_holidays lib s e sel h :
  In h (get_all_holidays lib s e sel) <->
  exists cls items,
    In (h_country h, cls) country_classes /\ In (h_country h) sel /\
    lib cls (range (year s) (year e + 1)) = Some items /\
    In (h_date h, h_name h) items /\
    Cal.leb s (h_date h) = true /\ Cal.leb (h_date h) e = true.
Proof. apply GroupingFacts.In_get_all_holidays. Qed.

Lemma X8_witness :
  In (mkHoliday (mkDate 2024 12 25) "Christmas Day" "美国")
     (get_all_holidays Sample2.library (mkDate 2024 12 1) (mkDate 2025 1 31)
                       Sample2.selected) <->
  exists cls items,
    In ("美国", cls) country_classes /\ In "美国" Sample2.selected /\
    Sample2.library cls (range 2024 (2025 + 1)) = Some items /\
    In (mkDate 2024 12 25, "Christmas Day") items /\
    Cal.leb (mkDate 2024 12 1) (mkDate 2024 12 25) = true /\
    Cal.leb (mkDate 2024 12 25) (mkDate 2025 1 31) = true.
Proof.
  apply (X8_get_all_holidays
           Sample2.library (mkDate 2024 12 1) (mkDate 2025 1 31)
           Sample2.selected
           (mkHoliday (mkDate 2024 12 25) "Christmas Day" "美国")).
Defined.

(** X9.  [group_consecutive_dates] returns when no entry is dated
    9999-12-31, the last date there is; it returns no period for no
    entry, and at least one otherwise. *)
Theorem X9_group_returns l :
  (forall h, In h l -> Cal.valid (h_date h) /\ h_date h <> mkDate 9999 12 31) ->
  exists ps, group_consecutive_dates l = Some ps /\ (ps = [] <-> l = []).
Proof.
  intros Hl. destruct l as [|a l].
  { exists []. split; [reflexivity|tauto]. }
  unfold group_consecutive_dates.
  set (le := fun x y => Cal.leb (h_date x) (h_date y)).
  pose proof (SortFacts.sorted_by_perm le (a :: l)) as Hp. cbv zeta.
  destruct (sorted_by le (a :: l)) as [|first rest] eqn:E.
  { apply Permutation_nil in Hp. discriminate. }
  assert (Hall : forall h, In h (first :: rest) ->
                           Cal.valid (h_date h) /\
                           year (Cal.next_day (h_date h)) <= 9999).
  { intros h Hh. apply (Permutation_in _ Hp) in Hh.
    destruct (Hl h Hh) as [Hv Hne].
    split; [exact Hv|apply GroupingFacts.next_day_year; assumption]. }
  eexists. split.
  - apply PeriodFacts.group_loop_total.
    + apply Hall. left. reflexivity.
    + apply Forall_forall. intros h Hh. apply Hall. right. exact Hh.
  - simpl.
    destruct (PeriodFacts.runs_first rest (h_date first) (h_date first)
                                     [label first])
      as (p0 & tl & E0 & _).
    + apply CalFacts.valid_wf. apply Hall. left. reflexivity.
    + apply Forall_forall. intros h Hh. apply CalFacts.valid_wf.
      apply Hall. right. exact Hh.
    + rewrite E0. split; discriminate.
Qed.

Lemma X9_witness :
  exists ps, group_consecutive_dates Sample2.entries = Some ps /\
             (ps = [] <-> Sample2.entries = []).
Proof.
  apply (X9_group_returns Sample2.entries).
  each_entry ltac:(split; [calendar_date|discriminate]).
Defined.

(** X10.  The periods [group_consecutive_dates] returns close the dates
    of the entries and no other date. *)
Theorem X10_group_closes_the_dates l ps d :
  (forall h, In h l -> Cal.wf (h_date h)) -> Cal.wf d ->
  group_consecutive_dates l = Some ps ->
  (Agg.is_closed d ps = true <-> exists h, In h l /\ h_date h = d).
Proof. apply GroupingFacts.group_cover. Qed.

Lemma X10_witness :
  Agg.is_closed (mkDate 2024 12 26) Sample2.periods = true <->
  exists h, In h Sample2.entries /\ h_date h = mkDate 2024 12 26.
Proof.
  apply (X10_group_closes_the_dates Sample2.entries Sample2.periods).
  - each_entry ltac:(calendar_date).
  - calendar_date.
  - vm_compute. reflexivity.
Defined.

(** X11.  The periods have as many days as there are entries, and each
    starts on or before the day it ends. *)
Theorem X11_group_days l ps :
  (forall h, In h l -> Cal.wf (h_date h)) ->
  group_consecutive_dates l = Some ps ->
  total_days ps = Z.of_nat (length l) /\
  Forall (fun p => Cal.leb (p_start p) (p_end p) = true) ps.
Proof.
  intros Hl H.
  destruct (GroupingFacts.group_unfold l ps) as [[-> ->]|(first & rest & Hp & Hw & _ & ->)];
    [apply Forall_forall; exact Hl|exact H| |].
  { split; [reflexivity|constructor]. }
  inversion Hw as [|f r Wf Wr]; subst. split.
  - rewrite (PeriodFacts.runs_days rest _ _ _ Wf Wr).
    rewrite <- (Permutation_length Hp). cbn [length]. lia.
  - pose proof (PeriodFacts.runs_ordered rest (h_date first) (h_date first)
                  [label first] Wf (Z.le_refl _) Wr) as Ho.
    pose proof (PeriodFacts.runs_wf rest (h_date first) (h_date first)
                  [label first] Wf Wf Wr) as Hwf.
    rewrite Forall_forall in *. intros p Hp'.
    destruct (Hwf p Hp') as [Ws We].
    apply (CalFacts.leb_toordinal _ _ Ws We). auto.
Qed.

Lemma X11_witness :
  total_days Sample2.periods = Z.of_nat (length Sample2.entries) /\
  Forall (fun p => Cal.leb (p_start p) (p_end p) = true) Sample2.periods.
Proof.
  apply (X11_group_days Sample2.entries Sample2.periods).
  - each_entry ltac:(calendar_date).
  - vm_compute. reflexivity.
Defined.

(** X12.  When the entries have distinct dates, the periods come in
    ascending order and each ends at least two days before the next
    one starts: no two of them overlap or touch. *)
Theorem X12_group_distinct_dates l ps :
  (forall h, In h l -> Cal.wf (h_date h)) -> NoDup (map h_date l) ->
  group_consecutive_dates l = Some ps ->
  StronglySorted (fun p q => Cal.toordinal (p_end p) + 1
                             < Cal.toordinal (p_start q)) ps.
Proof.
  intros Hl Hn H.
  destruct (GroupingFacts.group_unfold l ps) as [[-> ->]|(first & rest & Hp & Hw & Hs & ->)];
    [apply Forall_forall; exact Hl|exact H| |].
  { constructor. }
  inversion Hw as [|f r Wf Wr]; subst.
  apply (PeriodFacts.runs_separated rest _ _ _ Wf (Z.le_refl _) Wr).
  assert (Hn' : NoDup (map h_date (first :: rest))).
  { apply (Permutation_NoDup (l := map h_date l)); [|exact Hn].
    apply Permutation_map. apply Permutation_sym. exact Hp. }
  apply (GroupingFacts.SS_strict _ _ Hs) in Hn'.
  apply (AggFacts.SS_weaken _ _ Cal.wf _) with (3 := Hn').
  - intros x y Wx Wy [Hle Hne].
    destruct (Z.eq_dec (Cal.toordinal x) (Cal.toordinal y)) as [E|E]; [|lia].
    exfalso. apply Hne. apply DateFacts.toordinal_inj; assumption.
  - apply Forall_forall. intros x Hx. apply in_map_iff in Hx.
    destruct Hx as (h & <- & Hh). rewrite Forall_forall in Hw. auto.
Qed.

Lemma X12_witness :
  StronglySorted (fun p q => Cal.toordinal (p_end p) + 1
                             < Cal.toordinal (p_start q))
                 Sample2.italy_periods.
Proof.
  apply (X12_group_distinct_dates Sample2.italy_entries Sample2.italy_periods).
  - each_entry ltac:(calendar_date).
  - vm_compute. repeat constructor; simpl; intuition discriminate.
  - vm_compute. reflexivity.
Defined.

(** X13.  The holiday labels of a period are in ascending order
    without repetition; each is the label of an entry whose date is in
    the period, and the label of every entry is in a period that has
    its date. *)
Theorem X13_group_labels l ps :
  (forall h, In h l -> Cal.wf (h_date h)) ->
  group_consecutive_dates l = Some ps ->
  (forall p, In p ps ->
     Sorted (fun a b => String.compare a b = Lt) (p_holidays p) /\
     forall x, In x (p_holidays p) ->
       exists h, In h l /\ label h = x /\
                 Cal.toordinal (p_start p) <= Cal.toordinal (h_date h)
                 <= Cal.toordinal (p_end p)) /\
  (forall h, In h l ->
     exists p, In p ps /\ In (label h) (p_holidays p) /\
               Cal.toordinal (p_start p) <= Cal.toordinal (h_date h)
               <= Cal.toordinal (p_end p)).
Proof.
  intros Hl H.
  destruct (GroupingFacts.group_unfold l ps) as [[-> ->]|(first & rest & Hp & Hw & Hs & ->)];
    [apply Forall_forall; exact Hl|exact H| |].
  { split; [intros p []|intros h []]. }
  inversion Hw as [|f r Wf Wr]; subst. cbn [map] in Hs.
  pose proof (PeriodFacts.runs_end rest (h_date first) (h_date first)
                [label first] Wf Wr Hs) as Hend.
  rewrite Forall_forall in Hend.
  split.
  - intros p Hp'. split.
    + assert (Hsorted : forall rest s e hs p,
                 In p (runs rest s e hs) ->
                 Sorted (fun a b => String.compare a b = Lt) (p_holidays p)).
      { clear. induction rest as [|c rest IH]; intros s e hs p Hp; simpl in Hp.
        - destruct Hp as [<-|[]]. apply SortFacts.sorted_set_sorted.
        - destruct (date_eqb (h_date c) (Cal.next_day e)); [eauto|].
          destruct Hp as [<-|Hp]; [apply SortFacts.sorted_set_sorted|eauto]. }
      apply (Hsorted _ _ _ _ _ Hp').
    + intros x Hx.
      destruct (PeriodFacts.runs_labels_sound rest _ _ _ p x Wf (Z.le_refl _)
                  Wr Hs Hp' Hx) as [[Hps [<-|[]]]|(h & Hh & Hlab & Hd)].
      * exists first. split; [apply (Permutation_in _ Hp); left; reflexivity|].
        split; [reflexivity|]. rewrite Hps. specialize (Hend p Hp'). lia.
      * exists h. split; [apply (Permutation_in _ Hp); right; exact Hh|]. auto.
  - intros h Hh. apply (Permutation_in _ (Permutation_sym Hp)) in Hh.
    destruct Hh as [<-|Hh].
    + destruct (PeriodFacts.runs_first rest (h_date first) (h_date first)
                  [label first] Wf Wr) as (p0 & tl & E0 & Hs0 & He0 & Hl0).
      exists p0. rewrite E0. split; [left; reflexivity|].
      split; [apply Hl0; left; reflexivity|]. rewrite Hs0. lia.
    + apply (PeriodFacts.runs_labels_complete rest _ _ _ h Wf (Z.le_refl _)
               Wr Hs Hh).
Qed.

Lemma X13_witness :
  (forall p, In p Sample2.periods ->
     Sorted (fun a b => String.compare a b = Lt) (p_holidays p) /\
     forall x, In x (p_holidays p) ->
       exists h, In h Sample2.entries /\ label h = x /\
                 Cal.toordinal (p_start p) <= Cal.toordinal (h_date h)
                 <= Cal.toordinal (p_end p)) /\
  (forall h, In h Sample2.entries ->
     exists p, In p Sample2.periods /\ In (label h) (p_holidays p) /\
               Cal.toordinal (p_start p) <= Cal.toordinal (h_date h)
               <= Cal.toordinal (p_end p)).
Proof.
  apply (X13_group_labels Sample2.entries Sample2.periods).
  - each_entry ltac:(calendar_date).
  - vm_compute. reflexivity.
Defined.







(** X17.  The table depends on the closed periods only through the
    days they close between today and the end date: two lists of
    periods that close the same of these days give the same table,
    whatever their order, their overlaps, their holiday labels and the
    days they close before today or after the end date. *)
Theorem X17_only_closed_days_matter som eom cur ps qs :
  Cal.wf som -> Cal.wf eom ->
  (forall d, Cal.wf d -> Cal.leb cur d = true -> Cal.leb d eom = true ->
             is_closed d ps = is_closed d qs) ->
  final_df som eom cur ps = final_df som eom cur qs.
Proof. apply WeightFacts.final_df_ext. Qed.

Lemma X17_witness :
  final_df (mkDate 2024 12 1) (mkDate 2025 1 31) (mkDate 2024 12 10)
           [mkPeriod (mkDate 2024 12 25) (mkDate 2024 12 26) []]
  = final_df (mkDate 2024 12 1) (mkDate 2025 1 31) (mkDate 2024 12 10)
             [mkPeriod (mkDate 2024 12 2) (mkDate 2024 12 6) [];
              mkPeriod (mkDate 2024 12 25) (mkDate 2024 12 26) []].
Proof.
  apply (X17_only_closed_days_matter (mkDate 2024 12 1) (mkDate 2025 1 31)
                                     (mkDate 2024 12 10)).
  - calendar_date.
  - calendar_date.
  - intros d Wd Hc He. unfold is_closed. cbn [existsb p_start p_end].
    assert (H : Cal.leb d (mkDate 2024 12 6) = false).
    { apply CalFacts.leb_false_spec. apply CalFacts.leb_spec in Hc.
      simpl in *. lia. }
    rewrite H, andb_false_r. reflexivity.
Defined.

(** X18.  [remove_closed_period] raises (the [IndexError] of [del])
    exactly when the index is outside the list, a negative index
    counting from the end; otherwise the list loses one period, and no
    day becomes closed by it. *)
Theorem X18_remove_closed_period index cps :
  let n := Z.of_nat (length cps) in
  match remove_closed_period index cps with
  | None => ~ (- n <= index < n)
  | Some cps' =>
      - n <= index < n /\
      S (length cps') = length cps /\
      forall d, is_closed d cps' = true -> is_closed d cps = true
  end.
Proof.
  intros n. unfold remove_closed_period. fold n. cbv zeta.
  set (i := if index <? 0 then index + n else index).
  assert (Hi : i = if index <? 0 then index + n else index) by reflexivity.
  clearbody i.
  destruct (Z.leb_spec 0 i) as [H0|H0]; cbn [andb];
    [destruct (Z.ltb_spec i n) as [H1|H1]|];
    try (destruct (Z.ltb_spec index 0); lia).
  split; [destruct (Z.ltb_spec index 0); lia|]. split.
  - rewrite length_app, length_firstn, length_skipn. unfold n in *. lia.
  - intros d. apply EditFacts.is_closed_firstn_skipn.
Qed.

Lemma X18_witness :
  let n := Z.of_nat (length Sample4.three) in
  match remove_closed_period (-1) Sample4.three with
  | None => ~ (- n <= -1 < n)
  | Some cps' =>
      - n <= -1 < n /\
      S (length cps') = length Sample4.three /\
      forall d, is_closed d cps' = true -> is_closed d Sample4.three = true
  end.
Proof. apply (X18_remove_closed_period (-1) Sample4.three). Defined.

(** X19.  The end of the loop body for the period of index [i].
    Without the delete button the period takes the two dates of its
    widgets and the others are left alone.  With it, the deletion
    comes before the three assignments to [closed_periods[i]]: for the
    last period these raise [IndexError], and for any other they
    overwrite the period that followed, so that the list loses that
    one and keeps, in place [i], the dates of the widgets. *)
Theorem X19_manage_period lib sel i s e pressed cps :
  (i < length cps)%nat ->
  manage_period lib sel i s e pressed cps
  = if pressed then
      if (S i =? length cps)%nat then None
      else Some (firstn i cps ++ period_of lib sel s e :: skipn (i + 2) cps)
    else Some (firstn i cps ++ period_of lib sel s e :: skipn (S i) cps).
Proof.
  intros Hi. unfold manage_period. destruct pressed.
  - rewrite EditFacts.remove_nat.
    destruct (Nat.ltb_spec i (length cps)) as [_|]; [|lia].
    assert (Hlen : length (firstn i cps ++ skipn (S i) cps)
                   = (length cps - 1)%nat).
    { rewrite length_app, length_firstn, length_skipn. lia. }
    destruct (Nat.eqb_spec (S i) (length cps)) as [E|E].
    + destruct (nth_error (firstn i cps ++ skipn (S i) cps) i) eqn:En;
        [|reflexivity].
      assert (i < length (firstn i cps ++ skipn (S i) cps))%nat
        by (apply nth_error_Some; congruence).
      lia.
    + destruct (nth_error (firstn i cps ++ skipn (S i) cps) i) eqn:En.
      * f_equal. rewrite EditFacts.set_nth_split by lia.
        assert (Hf : length (firstn i cps) = i)
          by (rewrite length_firstn; lia).
        rewrite firstn_app, Hf, Nat.sub_diag, firstn_firstn, Nat.min_id.
        cbn [firstn]. rewrite app_nil_r. f_equal. f_equal.
        rewrite skipn_app, Hf.
        rewrite (skipn_all2 (firstn i cps)) by lia.
        replace (S i - i)%nat with 1%nat by lia.
        rewrite skipn_skipn. cbn [app]. f_equal. lia.
      * apply nth_error_None in En. lia.
  - destruct (nth_error cps i) eqn:En.
    + rewrite EditFacts.set_nth_split by lia. reflexivity.
    + apply nth_error_None in En. lia.
Qed.

Lemma X19_witness :
  manage_period Sample2.library Sample2.selected 0
                (mkDate 2024 12 3) (mkDate 2024 12 4) true Sample4.three
  = if true then
      if (1 =? length Sample4.three)%nat then None
      else Some (firstn 0 Sample4.three
                 ++ period_of Sample2.library Sample2.selected
                              (mkDate 2024 12 3) (mkDate 2024 12 4)
                 :: skipn (0 + 2) Sample4.three)
    else Some (firstn 0 Sample4.three
               ++ period_of Sample2.library Sample2.selected
                            (mkDate 2024 12 3) (mkDate 2024 12 4)
               :: skipn 1 Sample4.three).
Proof.
  apply (X19_manage_period Sample2.library Sample2.selected 0
                           (mkDate 2024 12 3) (mkDate 2024 12 4) true
                           Sample4.three).
  simpl. lia.
Defined.

(** X20.  Confirming an added period closes the days from its start
    date to its end date and leaves every other day as it was; when
    the end date is before the start date the list is unchanged, and
    there is no such day. *)
Theorem X20_confirm_add lib sel s e cps d :
  is_closed d (confirm_add lib sel s e cps)
  = is_closed d cps || (Cal.leb s d && Cal.leb d e).
Proof.
  unfold confirm_add, Cal.ltb.
  destruct (Cal.leb s e) eqn:Ese; cbn [negb].
  - rewrite PeriodFacts.is_closed_app. f_equal.
    unfold is_closed, period_of. cbn [existsb p_start p_end].
    apply orb_false_r.
  - destruct (Cal.leb s d) eqn:Esd; [|rewrite orb_false_r; reflexivity].
    destruct (Cal.leb d e) eqn:Ede; [|rewrite orb_false_r; reflexivity].
    rewrite (DateFacts.leb_trans _ _ _ Esd Ede) in Ese. discriminate.
Qed.

Lemma X20_witness :
  is_closed (mkDate 2024 12 31)
            (confirm_add Sample2.library Sample2.selected
                         (mkDate 2024 12 30) (mkDate 2025 1 2) Sample4.three)
  = is_closed (mkDate 2024 12 31) Sample4.three
    || (Cal.leb (mkDate 2024 12 30) (mkDate 2024 12 31)
        && Cal.leb (mkDate 2024 12 31) (mkDate 2025 1 2)).
Proof.
  apply (X20_confirm_add Sample2.library Sample2.selected
                         (mkDate 2024 12 30) (mkDate 2025 1 2)
                         Sample4.three (mkDate 2024 12 31)).
Defined.

End Extras.
